(** * pdf-brain: batched embedding and concept deduplication

    A shallow embedding of the batch scheduler (EmbeddingQueue), the
    embedding client (Ollama) and the concept curator (AutoTagger), with the
    properties the design document states about them (the claims C1 to
    C10) and further properties of the code: of failures and pauses of the
    scheduler, of the cost, the batches and the health check of the
    client, and of the tags, the prompt and the persistence of the
    curator.

    Conventions of the embedding.
    - An [Effect.Effect<A, E>] is modelled by its observable behaviour: the
      list of events it performs and its exit ([Failure e] or [Success a]).
    - Array lengths and batch sizes are natural numbers.  The percentage of
      a progress report, [Math.round ((p / t) * 100)], is computed in
      double precision, as the source does ([roundPercent]); the two
      comparisons of quotients that decide a branch, [Math.ceil (n / b)]
      and [heapUsed / heapTotal > pct / 100], are taken exactly.
    - A string is the sequence of bytes of its UTF-8 form.  The characters
      the code looks for (separators, letters, digits) are ASCII, one byte
      each, found in the bytes where they are in the string.  [s.length]
      counts UTF-16 code units ([utf16Length]).  What [toLowerCase] does
      outside ASCII follows the Unicode tables of the engine and is a
      parameter of the functions that call it. *)

From Stdlib Require Import PrimFloat Ascii.
From Stdlib Require ZArith Floats Uint63.
From stdpp Require Import base list strings pretty.

(* ===================================================================== *)
(** * Part I.  The program                                                *)
(* ===================================================================== *)

(** ** Effects: a trace of events and an exit *)

Module Effect.

Inductive Exit (E A : Type) : Type :=
| Failure (e : E)
| Success (a : A).
Arguments Failure {E A} e.
Arguments Success {E A} a.

(** An effect that has run: what it did, and how it ended. *)
Definition Eff (Ev E A : Type) : Type := (list Ev * Exit E A)%type.

Definition succeed {Ev E A} (a : A) : Eff Ev E A := ([], Success a).
Definition fail {Ev E A} (e : E) : Eff Ev E A := ([], Failure e).
Definition emit {Ev E} (ev : Ev) : Eff Ev E unit := ([ev], Success tt).

(** [yield*]: run [m]; on success continue with [k], the events of both in
    order; on failure stop there. *)
Definition bind {Ev E A B} (m : Eff Ev E A) (k : A -> Eff Ev E B)
  : Eff Ev E B :=
  match m with
  | (tr, Failure e) => (tr, Failure e)
  | (tr, Success a) => let '(tr', r) := k a in (tr ++ tr', r)
  end.

Definition events {Ev E A} (m : Eff Ev E A) : list Ev := m.1.
Definition exit {Ev E A} (m : Eff Ev E A) : Exit E A := m.2.

(** [Effect.mapError]. *)
Definition mapError {Ev E E' A} (f : E -> E') (m : Eff Ev E A)
  : Eff Ev E' A :=
  match m with
  | (tr, Failure e) => (tr, Failure (f e))
  | (tr, Success a) => (tr, Success a)
  end.

(** [Effect.catchAll]. *)
Definition catchAll {Ev E E' A} (m : Eff Ev E A) (h : E -> Eff Ev E' A)
  : Eff Ev E' A :=
  match m with
  | (tr, Failure e) => let '(tr', r) := h e in (tr ++ tr', r)
  | (tr, Success a) => (tr, Success a)
  end.

(** A schedule of delays in milliseconds, one before each recurrence. *)
Definition Schedule : Type := nat -> nat.

(** [Schedule.exponential (Duration.millis base)]: the delay before the
    [n]-th recurrence is [base * 2 ^ n]. *)
Definition exponential (base : nat) : Schedule := fun n => base * 2 ^ n.

(** [schedule |> Schedule.compose (Schedule.recurs times)]: the delays of
    [schedule], for [times] recurrences and no more. *)
Definition recurs (schedule : Schedule) (times : nat) : list nat :=
  map schedule (seq 0 times).

(** [Effect.retry (effect, policy)]: [attempt n] is the [n]-th run of the
    effect. A failure, whatever it is, is followed by the next delay and
    another run, until the policy has no recurrence left; then the last
    failure is the result. *)
Fixpoint retry {Ev E A} (sleep : nat -> Ev) (attempt : nat -> Eff Ev E A)
    (delays : list nat) (n : nat) : Eff Ev E A :=
  match attempt n with
  | (tr, Success a) => (tr, Success a)
  | (tr, Failure e) =>
      match delays with
      | [] => (tr, Failure e)
      | delay :: delays' =>
          let '(tr', r) := retry sleep attempt delays' (S n) in
          (tr ++ sleep delay :: tr', r)
      end
  end.

End Effect.

Import Effect.

Declare Scope eff_scope.
Delimit Scope eff_scope with eff.
Notation "x <- c ;; k" := (Effect.bind c (fun x => k))
  (at level 100, c at next level, right associativity) : eff_scope.
Notation "c ;;; k" := (Effect.bind c (fun _ => k))
  (at level 100, right associativity) : eff_scope.

(** ** EmbeddingQueue: gated batch processing *)

Module EmbeddingQueue.

Record EmbeddingQueueConfig : Type := {
  batchSize : nat;
  concurrency : nat;
  batchDelayMs : nat;
  checkpointAfterBatch : bool;
  adaptiveBatchSize : bool;
}.

Definition DEFAULT_QUEUE_CONFIG : EmbeddingQueueConfig := {|
  batchSize := 20;
  concurrency := 3;
  batchDelayMs := 50;
  checkpointAfterBatch := true;
  adaptiveBatchSize := true;
|}.

Record BatchProgress : Type := {
  batch : nat;
  totalBatches : nat;
  processed : nat;
  total : nat;
  percent : nat;
}.

(** What a run of [processInBatches] does, as seen from outside. *)
Inductive QueueEvent : Type :=
| EvProcess (index : nat)         (* [process (items[index])] completed *)
| EvProgress (p : BatchProgress)  (* [onProgress (p)] *)
| EvAfterBatch (batchIdx : nat)   (* [afterBatch ()] after that batch *)
| EvSleep (ms : nat).             (* [Effect.sleep] between two batches *)

(** [Math.ceil (n / b)] for lengths [n] and a positive size [b].  (With
    [b = 0] and [n > 0] the source gets [Infinity] and its loop never
    ends; the model has no such run, and its properties take [b > 0] or
    [n = 0].) *)
Definition ceilDiv (n b : nat) : nat := (n + b - 1) / b.

(** A length as a [number]: the double nearest to it, which is the length
    itself below [2 ^ 53]. *)
Definition toDouble (n : nat) : float :=
  PrimFloat.of_uint63 (Uint63.of_Z (Z.of_nat n)).

(** The value of a finite double, in units of [2 ^ -1074]: every finite
    double is a whole number of them. *)
Definition doubleUnits (x : float) : Z :=
  match FloatOps.Prim2SF x with
  | SpecFloat.S754_finite s m e =>
      (if s then -1 else 1) * Z.pos m * 2 ^ (e + 1074)
  | _ => 0
  end%Z.

(** [Math.round (x)] for a finite [x]: the integer nearest to [x], the
    greater one when two are as near, that is the floor of [x + 1/2]. *)
Definition Math_round (x : float) : Z :=
  ((2 * doubleUnits x + 2 ^ 1074) / 2 ^ 1075)%Z.

(** [Math.round ((p / t) * 100)], in double precision: the quotient is
    rounded to a double, and so is its product by 100. *)
Definition roundPercent (p t : nat) : nat :=
  Z.to_nat (Math_round (toDouble p / toDouble t * 100)%float).

(** [items.slice (start, end)]. *)
Definition slice {T} (items : list T) (start end_ : nat) : list T :=
  take (end_ - start) (drop start items).

Section ProcessInBatches.
Context {T R E : Type}.

(** The outcome of [process item]. *)
Variable process : T -> Exit E R.
(** The caller's hook, if any; the outcome of its call after batch [k]. *)
Variable afterBatch : option (nat -> Exit E unit).
(** Whether a progress callback was passed. *)
Variable onProgress : bool.
(** The order in which the in-flight calls of batch [k] complete, as
    positions within the batch. *)
Variable completion : nat -> list nat.

(** The calls of one batch completing in the order [order]: every result
    is stored in the slot of its item; the first failure interrupts the
    batch. [start] is the position of the batch in [items]. *)
Fixpoint runCompletions (start : nat) (batch : list T) (order : list nat)
    (slots : list (option R)) : Eff QueueEvent E (list (option R)) :=
  match order with
  | [] => succeed slots
  | i :: order' =>
      match batch !! i with
      | None => runCompletions start batch order' slots
      | Some item =>
          match process item with
          | Failure e => ([EvProcess (start + i)], Failure e)
          | Success r =>
              (emit (EvProcess (start + i));;;
               runCompletions start batch order' (<[i := Some r]> slots))%eff
          end
      end
  end.

(** [Stream.fromIterable (batch) |> Stream.mapEffect (process,
    { concurrency }) |> Stream.runCollect |> Chunk.toArray]: the results
    in the order of [batch], whatever the order of completion. *)
Definition mapEffectCollect (start : nat) (batch : list T)
    (order : list nat) : Eff QueueEvent E (list R) :=
  (slots <- runCompletions start batch order
              (replicate (length batch) None);;
   succeed (omap id slots))%eff.

Definition reportProgress (p : BatchProgress) : Eff QueueEvent E unit :=
  if onProgress then emit (EvProgress p) else succeed tt.

Definition runAfterBatch (config : EmbeddingQueueConfig) (batchIdx : nat)
  : Eff QueueEvent E unit :=
  match afterBatch with
  | Some hook =>
      if checkpointAfterBatch config
      then (emit (EvAfterBatch batchIdx);;; ([], hook batchIdx))%eff
      else succeed tt
  | None => succeed tt
  end.

Definition backpressure (config : EmbeddingQueueConfig)
    (batchIdx nBatches : nat) : Eff QueueEvent E unit :=
  if bool_decide (0 < batchDelayMs config)
     && bool_decide (batchIdx < nBatches - 1)
  then emit (EvSleep (batchDelayMs config))
  else succeed tt.

(** The body of the [for] loop, [remaining] iterations from [batchIdx]. *)
Fixpoint batchLoop (items : list T) (config : EmbeddingQueueConfig)
    (nBatches remaining batchIdx : nat) (results : list R)
  : Eff QueueEvent E (list R) :=
  match remaining with
  | 0 => succeed results
  | S remaining' =>
      let start := batchIdx * batchSize config in
      let end_ := Nat.min (start + batchSize config) (length items) in
      let batch := slice items start end_ in
      (batchResults <- mapEffectCollect start batch (completion batchIdx);;
       let results := results ++ batchResults in
       reportProgress {|
         batch := batchIdx + 1;
         totalBatches := nBatches;
         processed := length results;
         total := length items;
         percent := roundPercent (length results) (length items);
       |};;;
       runAfterBatch config batchIdx;;;
       backpressure config batchIdx nBatches;;;
       batchLoop items config nBatches remaining' (S batchIdx) results)%eff
  end.

Definition processInBatches (items : list T)
    (config : EmbeddingQueueConfig) : Eff QueueEvent E (list R) :=
  let nBatches := ceilDiv (length items) (batchSize config) in
  batchLoop items config nBatches nBatches 0 [].

End ProcessInBatches.

(** [process.memoryUsage ()], in bytes. *)
Record MemoryUsage : Type := { heapUsed : nat; heapTotal : nat }.

(** [mem.heapUsed / mem.heapTotal > pct / 100]. *)
Definition heapUsedRatioAbove (mem : MemoryUsage) (pct : nat) : bool :=
  bool_decide (pct * heapTotal mem < 100 * heapUsed mem).

(** [memoryUsage] is [None] where [process.memoryUsage] does not exist. *)
Definition getAdaptiveBatchSize (memoryUsage : option MemoryUsage)
    (baseBatchSize : nat) : nat :=
  match memoryUsage with
  | Some mem =>
      if heapUsedRatioAbove mem 85 then Nat.max 10 (baseBatchSize / 4)
      else if heapUsedRatioAbove mem 70 then Nat.max 10 (baseBatchSize / 2)
      else if heapUsedRatioAbove mem 50 then Nat.max 10 (3 * baseBatchSize / 4)
      else baseBatchSize
  | None => baseBatchSize
  end.

(** [createEmbeddingProcessor (embedFn, checkpointFn, config).embedBatch]:
    the batch size is adapted once, when the run starts. *)
Definition embedBatch {E : Type} (embedFn : string -> Exit E (list float))
    (checkpointFn : nat -> Exit E unit) (fullConfig : EmbeddingQueueConfig)
    (memoryUsage : option MemoryUsage) (completion : nat -> list nat)
    (texts : list string) (onProgress : bool)
  : Eff QueueEvent E (list (list float)) :=
  let adaptiveConfig := {|
    batchSize :=
      if adaptiveBatchSize fullConfig
      then getAdaptiveBatchSize memoryUsage (batchSize fullConfig)
      else batchSize fullConfig;
    concurrency := concurrency fullConfig;
    batchDelayMs := batchDelayMs fullConfig;
    checkpointAfterBatch := checkpointAfterBatch fullConfig;
    adaptiveBatchSize := adaptiveBatchSize fullConfig;
  |} in
  processInBatches embedFn (Some checkpointFn) onProgress completion
    texts adaptiveConfig.

End EmbeddingQueue.

(** ** Ollama: the embedding client *)

Module Ollama.

Record OllamaError : Type := { reason : string }.

(** One response of the embedding service to [POST /api/embeddings]. *)
Inductive EmbeddingResponse : Type :=
| ConnectionFailed (e : string)   (* [fetch] rejects with [e] *)
| NotOk (body : option string)    (* [!response.ok]; [None] when
                                     [response.text ()] rejects *)
| InvalidJson                     (* [response.json ()] rejects *)
| Json (embedding : list float).  (* [data.embedding] *)

Inductive OllamaEvent : Type :=
| EvFetch (text : string) (n : nat)     (* the [n]-th request for [text] *)
| EvSleep (ms : nat).

Definition EXPECTED_EMBEDDING_DIMENSION : nat := 1024.

Definition validateEmbedding (embedding : list float)
  : Exit OllamaError (list float) :=
  if length embedding =? 0 then
    Failure {| reason :=
      "Invalid embedding: dimension 0 (expected "
        +:+ pretty EXPECTED_EMBEDDING_DIMENSION +:+ ")" |}
  else if negb (length embedding =? EXPECTED_EMBEDDING_DIMENSION) then
    Failure {| reason :=
      "Invalid embedding: dimension " +:+ pretty (length embedding)
        +:+ " (expected " +:+ pretty EXPECTED_EMBEDDING_DIMENSION +:+ ")" |}
  else if existsb (fun v => negb (PrimFloat.is_finite v)) embedding then
    Failure {| reason :=
      "Invalid embedding: contains non-finite values (NaN or Infinity)" |}
  else Success embedding.

(** The generator of [embedSingle], run once on the response it gets. *)
Definition embedAttempt (response : EmbeddingResponse)
  : Exit OllamaError (list float) :=
  match response with
  | ConnectionFailed e => Failure {| reason := "Connection failed: " +:+ e |}
  | NotOk None => Failure {| reason := "Failed to read error response" |}
  | NotOk (Some error) => Failure {| reason := error |}
  | InvalidJson => Failure {| reason := "Invalid JSON response" |}
  | Json embedding => validateEmbedding embedding
  end.

(** [Schedule.exponential (Duration.millis (100)) |>
    Schedule.compose (Schedule.recurs (3))]. *)
Definition retryPolicy : list nat := recurs (exponential 100) 3.

(** [embed]: [responses n] is what the service answers to the [n]-th
    request. *)
Definition embedSingle (responses : nat -> EmbeddingResponse) (text : string)
  : Eff OllamaEvent OllamaError (list float) :=
  retry EvSleep
    (fun n => ([EvFetch text n], embedAttempt (responses n)))
    retryPolicy 0.

(** [embedBatch (texts, concurrency)]: [Stream.fromIterable (texts) |>
    Stream.mapEffect (embedSingle, { concurrency }) |> Stream.runCollect],
    the operator [processInBatches] runs a batch with. [responses i] is what
    the service answers to the requests for [texts[i]]; [completion] is the
    order in which the calls complete, which is all that the concurrency
    limit (5 unless given) bears on; the event [EvProcess i] is the
    completion of the call for [texts[i]]. *)
Definition embedBatch (responses : nat -> nat -> EmbeddingResponse)
    (completion : list nat) (texts : list string)
  : Eff EmbeddingQueue.QueueEvent OllamaError (list (list float)) :=
  EmbeddingQueue.mapEffectCollect
    (fun '(i, text) => exit (embedSingle (responses i) text))
    0 (imap pair texts) completion.

(** The answer to [GET /api/tags]. A body that parses is taken to have the
    type the source declares for it, [OllamaTagsResponse]; [models] holds
    the names [data.models[i].name]. *)
Inductive TagsResponse : Type :=
| TagsFetchFailed                  (* [fetch] rejects *)
| TagsNotOk                        (* [!response.ok] *)
| TagsInvalidJson                  (* [response.json ()] rejects *)
| TagsJson (models : list string).

(** How the process [ollama pull] ends: it closes with an exit code ([None]
    for [null]), or it cannot be spawned. *)
Inductive PullOutcome : Type :=
| PullClosed (code : option nat)
| PullError (message : string).

(** The part of [loadConfig ()] that [checkHealth] reads: [ollama.host],
    [embedding.model] and [ollama.autoInstall]. *)
Record HealthConfig : Type := {
  host : string;
  model : string;
  autoInstall : bool;
}.

Inductive HealthEvent : Type :=
| EvFetchTags (host : string)
| EvPull (model : string).     (* [spawn ("ollama", ["pull", model])] *)

Definition autoInstallModel (pull : PullOutcome) (model host : string)
  : Eff HealthEvent OllamaError unit :=
  ([EvPull model],
   match pull with
   | PullClosed (Some 0) => Success tt
   | PullClosed code =>
       Failure {| reason :=
         "Auto-install failed: " +:+ "ollama pull exited with code "
           +:+ match code with Some n => pretty n | None => "null" end
           +:+ ". Ensure Ollama is running and the model name is valid." |}
   | PullError message =>
       Failure {| reason :=
         "Auto-install failed: " +:+ "Failed to spawn ollama pull: "
           +:+ message +:+ ". Ensure Ollama CLI is installed." |}
   end).

(** [data.models.some ((m) => m.name === modelName ||
    m.name.startsWith (`${modelName}:`))]. *)
Definition hasModel (modelName : string) (models : list string) : bool :=
  existsb (fun name => bool_decide (name = modelName)
                       || String.prefix (modelName +:+ ":") name) models.

(** [checkHealth]: [tags] is the answer of the service, [pull] the end of
    the installation, should it be started. *)
Definition checkHealth (config : HealthConfig) (tags : TagsResponse)
    (pull : PullOutcome) : Eff HealthEvent OllamaError unit :=
  (models <-
     ([EvFetchTags (host config)],
      match tags with
      | TagsFetchFailed =>
          Failure {| reason := "Cannot connect to Ollama at " +:+ host config |}
      | TagsNotOk => Failure {| reason := "Ollama not responding" |}
      | TagsInvalidJson =>
          Failure {| reason := "Invalid response from Ollama" |}
      | TagsJson models => Success models
      end);;
   let modelName := model config in
   if negb (hasModel modelName models) then
     if autoInstall config
     then autoInstallModel pull modelName (host config)
     else fail {| reason :=
            "Model " +:+ modelName +:+ " not found. Run: ollama pull "
              +:+ modelName |}
   else succeed tt)%eff.

End Ollama.

(** ** Strings as the source uses them *)

Module JsString.

(** [s.includes (sub)]. *)
Fixpoint includes (s sub : string) : bool :=
  String.prefix sub s
  || match s with
     | EmptyString => false
     | String _ s' => includes s' sub
     end.

(** [s.split (sep)] for a separator of one character. *)
Fixpoint split (sep : ascii) (s : string) : list string :=
  match s with
  | EmptyString => [EmptyString]
  | String c s' =>
      if Ascii.eqb c sep then EmptyString :: split sep s'
      else match split sep s' with
           | w :: ws => String c w :: ws
           | [] => [String c EmptyString]
           end
  end.

(** The letters [A-Z] to [a-z], the other bytes unchanged. *)
Definition lowerChar (c : ascii) : ascii :=
  let n := Ascii.nat_of_ascii c in
  if (65 <=? n) && (n <=? 90) then Ascii.ascii_of_nat (n + 32) else c.

(** The letters [a-z] to [A-Z], the other bytes unchanged. *)
Definition upperChar (c : ascii) : ascii :=
  let n := Ascii.nat_of_ascii c in
  if (97 <=? n) && (n <=? 122) then Ascii.ascii_of_nat (n - 32) else c.

Fixpoint mapChars (f : ascii -> ascii) (s : string) : string :=
  match s with
  | EmptyString => EmptyString
  | String c s' => String (f c) (mapChars f s')
  end.

(** Every byte of [s] passes the test [p]. *)
Fixpoint allChars (p : ascii -> bool) (s : string) : bool :=
  match s with
  | EmptyString => true
  | String c s' => p c && allChars p s'
  end.

(** The string holds ASCII characters only. *)
Definition isAscii (s : string) : bool :=
  allChars (fun c => Ascii.nat_of_ascii c <? 128) s.

(** How a pattern with the flag [i] (and without the flag [u]) reads a
    string: the letters [A-Z] match as [a-z], and no character outside
    ASCII matches an ASCII letter. *)
Definition asciiLowerCase : string -> string := mapChars lowerChar.

(** [s.toLowerCase ()].  On a string of ASCII characters it maps [A-Z] to
    [a-z].  On any other string it follows the Unicode tables the engine
    was built with: that part is the parameter [unicodeLowerCase], the
    lower-casing of the engine on such strings. *)
Definition toLowerCase (unicodeLowerCase : string -> string) (s : string)
  : string :=
  if isAscii s then mapChars lowerChar s else unicodeLowerCase s.

(** [s.toUpperCase ()], as far as the ASCII letters of the result go, for
    the code only looks for the ASCII word DUPLICATE in it: [a-z] become
    [A-Z], and the dotless i (U+0131, the bytes 196 177 in UTF-8) becomes
    [I]. The other characters outside ASCII are left as they are: none
    has an upper case in which a letter of that word stands next to the
    letters the word has around it. *)
Fixpoint toUpperCase (s : string) : string :=
  match s with
  | EmptyString => EmptyString
  | String c s' =>
      match s' with
      | String c' s'' =>
          if Ascii.eqb c "196" && Ascii.eqb c' "177"
          then String "I" (toUpperCase s'')
          else String (upperChar c) (toUpperCase s')
      | EmptyString => String (upperChar c) EmptyString
      end
  end.

(** [s.length]: the number of UTF-16 code units of the string, one for
    every character and two for a character beyond U+FFFF, which UTF-8
    writes in four bytes. A byte from 128 to 191 continues a character. *)
Fixpoint utf16Length (s : string) : nat :=
  match s with
  | EmptyString => 0
  | String c s' =>
      let n := Ascii.nat_of_ascii c in
      (if (128 <=? n) && (n <? 192) then 0
       else if 240 <=? n then 2 else 1)
      + utf16Length s'
  end.

Fixpoint trimStart (s : string) : string :=
  match s with
  | EmptyString => EmptyString
  | String c s' => if Ascii.is_space c then trimStart s' else s
  end.

Definition trimEnd (s : string) : string :=
  String.rev (trimStart (String.rev s)).

(** [s.trim ()]. *)
Definition trim (s : string) : string := trimEnd (trimStart s).

(** [s.split (/\s+/)]: [s] cut at every maximal run of white space;
    [inRun] tells that the previous character was white space. *)
Fixpoint splitSpaces (inRun : bool) (s : string) : list string :=
  match s with
  | EmptyString => [EmptyString]
  | String c s' =>
      if Ascii.is_space c then
        if inRun then splitSpaces true s'
        else EmptyString :: splitSpaces true s'
      else match splitSpaces false s' with
           | w :: ws => String c w :: ws
           | [] => [String c EmptyString]
           end
  end.

(** A value is falsy when it is the empty string (or missing). *)
Definition truthy (s : string) : bool :=
  match s with EmptyString => false | String _ _ => true end.

(** [value || fallback] for an optional string. *)
Definition orElse (value : option string) (fallback : string) : string :=
  match value with
  | Some s => if truthy s then s else fallback
  | None => fallback
  end.

End JsString.

(** ** AutoTagger: validation and deduplication of proposed concepts *)

Module AutoTagger.

Import JsString.

(** Proposed new concept from the LLM. *)
Module ProposedConcept.
Record t : Type := mk {
  id : string;
  prefLabel : string;
  altLabels : option (list string);
  definition : option string;
}.
End ProposedConcept.

(** A concept of the taxonomy, as [findSimilarConcepts] returns it. *)
Module Concept.
Record t : Type := mk {
  id : string;
  prefLabel : string;
  altLabels : list string;
  definition : option string;
}.
End Concept.

Record TaxonomyError : Type := { taxonomyReason : string }.

Inductive JudgeProvider : Type := gateway | ollama.

(** The part of [loadConfig ()] that the judge reads. *)
Record Config : Type := {
  judge_provider : JudgeProvider;
  judge_model : string;
  ollama_host : string;
}.

Record JudgeResult : Type := { isDuplicate : bool; available : bool }.

(** The answer to [POST /api/generate]. *)
Inductive GenerateResponse : Type :=
| FetchFailed                            (* [fetch] rejects *)
| GenerateNotOk                          (* [!response.ok] *)
| GenerateInvalidJson                    (* [response.json ()] rejects *)
| GenerateJson (response : option string).

(** What surrounds the curator while it handles the [k]-th proposal of a
    run: the outcome of each call it can make, given the arguments.
    [loadConfig] is [None] when loading the configuration throws;
    [generateText] is [None] when the call rejects.
    [engineLowerCase] is the lower-casing of the engine on strings that are
    not ASCII. *)
Record World : Type := {
  embed : nat -> string -> Exit Ollama.OllamaError (list float);
  findSimilarConcepts :
    nat -> list float -> float -> Exit TaxonomyError (list Concept.t);
  addConcept : nat -> ProposedConcept.t -> Exit TaxonomyError unit;
  storeConceptEmbedding :
    nat -> string -> list float -> Exit TaxonomyError unit;
  loadConfig : nat -> option Config;
  AI_GATEWAY_API_KEY : nat -> option string;
  generateText : nat -> string -> string -> option string;
  fetchGenerate : nat -> string -> string -> string -> GenerateResponse;
  engineLowerCase : string -> string;
}.

Inductive TaggerEvent : Type :=
| EvEmbed (proposal : ProposedConcept.t) (text : string)
| EvFindSimilar (proposal : ProposedConcept.t) (embedding : list float)
    (threshold : float)
| EvJudge (proposal : ProposedConcept.t) (existing : Concept.t)
| EvAddConcept (concept : ProposedConcept.t)
| EvStoreConceptEmbedding (id : string) (embedding : list float).

Definition judgePrompt (proposed : ProposedConcept.t) (existing : Concept.t)
  : string :=
  "You are a taxonomy curator. Determine if these two concepts are essentially the SAME concept (duplicates that should be merged) or DISTINCT concepts that both belong in a knowledge taxonomy.

PROPOSED CONCEPT:
Name: " +:+ ProposedConcept.prefLabel proposed +:+ "
Definition: "
  +:+ orElse (ProposedConcept.definition proposed) "(no definition)" +:+ "

EXISTING CONCEPT:
Name: " +:+ Concept.prefLabel existing +:+ "
Definition: "
  +:+ orElse (Concept.definition existing) "(no definition)" +:+ "

Consider:
- Are they synonyms or alternate names for the same thing? → DUPLICATE
- Are they related but represent different ideas, theories, or domains? → DISTINCT
- Would a subject matter expert consider them separate entries? → DISTINCT

Reply with ONLY one word: DUPLICATE or DISTINCT".

(** [llmJudgeDuplicate]; [None] when the promise rejects. *)
Definition llmJudgeDuplicate (w : World) (k : nat)
    (proposed : ProposedConcept.t) (existing : Concept.t)
  : option JudgeResult :=
  match loadConfig w k with
  | None => None
  | Some config =>
      let prompt := judgePrompt proposed existing in
      match judge_provider config with
      | gateway =>
          match AI_GATEWAY_API_KEY w k with
          | None => Some {| isDuplicate := false; available := false |}
          | Some gatewayKey =>
              if negb (truthy gatewayKey)
              then Some {| isDuplicate := false; available := false |}
              else
                match generateText w k (judge_model config) prompt with
                | Some text =>
                    let answer := toUpperCase (trim text) in
                    Some {| isDuplicate := includes answer "DUPLICATE";
                            available := true |}
                | None => Some {| isDuplicate := false; available := false |}
                end
          end
      | ollama =>
          match fetchGenerate w k (ollama_host config) (judge_model config)
                  prompt with
          | FetchFailed => Some {| isDuplicate := false; available := false |}
          | GenerateNotOk =>
              Some {| isDuplicate := false; available := false |}
          | GenerateInvalidJson =>
              Some {| isDuplicate := false; available := false |}
          | GenerateJson response =>
              let answer := toUpperCase (trim (orElse response "")) in
              Some {| isDuplicate := includes answer "DUPLICATE";
                      available := true |}
          end
      end
  end.

(** What can fail inside [autoAcceptProposals]: the embedding client, the
    taxonomy, or [Effect.tryPromise] around the judge, whose [catch] turns a
    rejection into a failure carrying the value it builds. *)
Inductive AcceptFailure : Type :=
| OllamaFailed (e : Ollama.OllamaError)
| TaxonomyFailed (e : TaxonomyError)
| JudgeRejected (fallback : JudgeResult).

Record EnrichmentError : Type := {
  message : string;
  cause : AcceptFailure;
}.

Record AcceptCounts : Type := { accepted : nat; rejected : nat }.

Definition callOllama {A} (ev : TaggerEvent)
    (outcome : Exit Ollama.OllamaError A) : Eff TaggerEvent AcceptFailure A :=
  Effect.mapError OllamaFailed ([ev], outcome).

Definition callTaxonomy {A} (ev : TaggerEvent)
    (outcome : Exit TaxonomyError A) : Eff TaggerEvent AcceptFailure A :=
  Effect.mapError TaxonomyFailed ([ev], outcome).

(** [Effect.tryPromise ({ try: () => llmJudgeDuplicate (proposal, best),
    catch: () => ({ isDuplicate: false, available: false }) })]. *)
Definition tryJudge (w : World) (k : nat) (proposal : ProposedConcept.t)
    (best : Concept.t) : Eff TaggerEvent AcceptFailure JudgeResult :=
  ([EvJudge proposal best],
   match llmJudgeDuplicate w k proposal best with
   | Some judgeResult => Success judgeResult
   | None =>
       Failure (JudgeRejected {| isDuplicate := false; available := false |})
   end).

Definition proposalText (proposal : ProposedConcept.t) : string :=
  match ProposedConcept.definition proposal with
  | Some definition =>
      if truthy definition
      then ProposedConcept.prefLabel proposal +:+ ": " +:+ definition
      else ProposedConcept.prefLabel proposal
  | None => ProposedConcept.prefLabel proposal
  end.

(** The body of the loop of [autoAcceptProposals] for the [k]-th proposal:
    [true] when the proposal was accepted and persisted, [false] when it was
    rejected as a duplicate. *)
Definition acceptProposal (w : World) (k : nat) (proposal : ProposedConcept.t)
  : Eff TaggerEvent AcceptFailure bool :=
  (embedding <- callOllama (EvEmbed proposal (proposalText proposal))
                  (embed w k (proposalText proposal));;
   similar <- callTaxonomy (EvFindSimilar proposal embedding 0.75%float)
                (findSimilarConcepts w k embedding 0.75%float);;
   duplicate <- match similar with
                | best :: _ =>
                    (judgeResult <- tryJudge w k proposal best;;
                     succeed (isDuplicate judgeResult))
                | [] => succeed false
                end;;
   if duplicate : bool then succeed false
   else
     (callTaxonomy (EvAddConcept proposal) (addConcept w k proposal);;;
      callTaxonomy
        (EvStoreConceptEmbedding (ProposedConcept.id proposal) embedding)
        (storeConceptEmbedding w k (ProposedConcept.id proposal) embedding);;;
      succeed true))%eff.

Fixpoint acceptLoop (w : World) (k : nat) (proposals : list ProposedConcept.t)
    (nAccepted nRejected : nat) : Eff TaggerEvent AcceptFailure AcceptCounts :=
  match proposals with
  | [] => succeed {| accepted := nAccepted; rejected := nRejected |}
  | proposal :: proposals' =>
      (isAccepted <- acceptProposal w k proposal;;
       if isAccepted : bool
       then acceptLoop w (S k) proposals' (S nAccepted) nRejected
       else acceptLoop w (S k) proposals' nAccepted (S nRejected))%eff
  end.

Definition enrichmentError (e : AcceptFailure) : EnrichmentError := {|
  message :=
    "Auto-accept failed: "
    +:+ match e with
        | OllamaFailed e' => Ollama.reason e'
        | TaxonomyFailed e' => taxonomyReason e'
        | JudgeRejected _ => "[object Object]"
        end;
  cause := e;
|}.

Definition autoAcceptProposals (w : World)
    (proposals : list ProposedConcept.t)
  : Eff TaggerEvent EnrichmentError AcceptCounts :=
  if length proposals =? 0
  then succeed {| accepted := 0; rejected := 0 |}
  else Effect.mapError enrichmentError (acceptLoop w 0 proposals 0 0).

Definition validParents : list string :=
  ["programming"; "education"; "design"; "business"; "meta"; "psychology";
   "research"; "writing"].

Definition isValidConceptId (unicodeLowerCase : string -> string)
    (id : string) : bool :=
  if negb (includes id "/") || negb (length (split "/" id) =? 2) then false
  else
    match split "/" id with
    | parent :: child :: _ =>
        if negb (bool_decide (parent ∈ validParents)) then false
        else if includes child " " then false
        else if 30 <? utf16Length child then false
        else if bool_decide (child = "concept") || bool_decide (child = "new")
        then false
        else if negb (bool_decide (id = toLowerCase unicodeLowerCase id))
        then false
        else if 4 <? length (split "-" child) then false
        else true
    | _ => false
    end.

(** [concepts] is [None] for [undefined]. *)
Definition validateProposedConcepts (unicodeLowerCase : string -> string)
    (concepts : option (list ProposedConcept.t)) : list ProposedConcept.t :=
  match concepts with
  | None => []
  | Some concepts =>
      List.filter
        (fun c =>
           if negb (truthy (ProposedConcept.id c))
              || negb (truthy (ProposedConcept.prefLabel c)) then false
           else if negb (isValidConceptId unicodeLowerCase
                           (ProposedConcept.id c)) then false
           else
             let labelWords :=
               length (splitSpaces false (trim (ProposedConcept.prefLabel c)))
             in
             if 5 <? labelWords then false else true)
        concepts
  end.

(** Steps 2 and 3 of [enrich]. [llmProposals] is what the LLM proposed:
    [None] when [enrichWithLLM] failed and the heuristics took over (no
    proposals then), otherwise the raw [proposedConcepts] of its answer,
    which [enrichWithLLM] passes through [validateProposedConcepts]. A
    failure of [autoAcceptProposals] is logged and counts nothing. *)
Definition enrichProposals (w : World)
    (llmProposals : option (option (list ProposedConcept.t)))
  : Eff TaggerEvent EnrichmentError AcceptCounts :=
  let proposedConcepts :=
    match llmProposals with
    | Some raw => Some (validateProposedConcepts (engineLowerCase w) raw)
    | None => None
    end in
  let validatedProposals := default [] proposedConcepts in
  if 0 <? length validatedProposals
  then
    Effect.catchAll (autoAcceptProposals w validatedProposals)
      (fun _ => succeed {| accepted := 0; rejected := 0 |})
  else succeed {| accepted := 0; rejected := 0 |}.

(** *** Heuristic extraction *)

(** One of the characters [a-z0-9-]. *)
Definition isTagChar (c : ascii) : bool :=
  let n := Ascii.nat_of_ascii c in
  ((97 <=? n) && (n <=? 122)) || ((48 <=? n) && (n <=? 57))
  || Ascii.eqb c "-".

(** [s.replace (/[^a-z0-9-]/g, "-")]. *)
Definition replaceNonTagChars : string -> string :=
  mapChars (fun c => if isTagChar c then c else "-"%char).

(** [s.replace (/-+/g, "-")]: of every run of hyphens the last one stays. *)
Fixpoint collapseHyphens (s : string) : string :=
  match s with
  | EmptyString => EmptyString
  | String c s' =>
      if Ascii.eqb c "-" && String.prefix "-" s' then collapseHyphens s'
      else String c (collapseHyphens s')
  end.

(** [s.replace (/^-/, "")]. *)
Definition stripLeadingHyphen (s : string) : string :=
  match s with
  | EmptyString => EmptyString
  | String c s' => if Ascii.eqb c "-" then s' else s
  end.

(** [s.replace (/-$/, "")]. *)
Fixpoint stripTrailingHyphen (s : string) : string :=
  match s with
  | EmptyString => EmptyString
  | String c s' =>
      if Ascii.eqb c "-" && negb (truthy s') then EmptyString
      else String c (stripTrailingHyphen s')
  end.

(** [s.replace (/^-|-$/g, "")]: the match at the start is taken first, the
    one at the end is looked for in what follows it. *)
Definition stripHyphens (s : string) : string :=
  stripTrailingHyphen (stripLeadingHyphen s).

Definition normalizeTag (unicodeLowerCase : string -> string)
    (tag : string) : string :=
  stripHyphens
    (collapseHyphens
       (replaceNonTagChars (toLowerCase unicodeLowerCase tag))).

(** [[...new Set (values)]]: the values in the order of their first
    occurrence. *)
Definition setAdd (set : list string) (value : string) : list string :=
  if bool_decide (value ∈ set) then set else set ++ [value].

Definition newSet (values : list string) : list string :=
  foldl setAdd [] values.

Definition isDigit (c : ascii) : bool :=
  let n := Ascii.nat_of_ascii c in (48 <=? n) && (n <=? 57).

(** Matches [/[a-z]/i]. *)
Definition isLetter (c : ascii) : bool :=
  let n := Ascii.nat_of_ascii (lowerChar c) in (97 <=? n) && (n <=? 122).

(** Matches [/[a-f0-9-]/i]. *)
Definition isUuidChar (c : ascii) : bool :=
  let n := Ascii.nat_of_ascii (lowerChar c) in
  ((97 <=? n) && (n <=? 102)) || isDigit c || Ascii.eqb c "-".

(** Patterns to ignore in path segments, each as the test it makes. *)
Definition IGNORE_PATH_PATTERNS : list (string -> bool) := [
  (* /^\d+$/ *)
  fun s => truthy s && allChars isDigit s;
  (* /^[a-f0-9-]{36}$/i *)
  fun s => (String.length s =? 36) && allChars isUuidChar s;
  (* /^(downloads?|documents?|files?|temp|tmp|cache)$/i *)
  fun s => bool_decide (asciiLowerCase s ∈
             ["download"; "downloads"; "document"; "documents"; "file";
              "files"; "temp"; "tmp"; "cache"]);
  (* /^(users?|home|library|mobile documents)$/i *)
  fun s => bool_decide (asciiLowerCase s ∈
             ["user"; "users"; "home"; "library"; "mobile documents"]);
  (* /^[._]/ *)
  fun s => String.prefix "." s || String.prefix "_" s;
  (* /^com\.[a-z]+\.[a-z]+$/i *)
  fun s => match split "." s with
           | [com; org; app] =>
               bool_decide (asciiLowerCase com = "com")
               && truthy org && allChars isLetter org
               && truthy app && allChars isLetter app
           | _ => false
           end;
  (* /^3l68kqb4hg/i *)
  fun s => String.prefix "3l68kqb4hg" (asciiLowerCase s)
].

(** [basePath] is [None] for [undefined]. *)
Definition extractPathTags (unicodeLowerCase : string -> string)
    (filePath : string) (basePath : option string) : list string :=
  let path :=
    match basePath with
    | Some basePath =>
        if truthy basePath && String.prefix basePath filePath
        then String.substring (String.length basePath)
               (String.length filePath - String.length basePath) filePath
        else filePath
    | None => filePath
    end in
  let segments :=
    List.filter (fun s => 2 <=? utf16Length s)
      (map (normalizeTag unicodeLowerCase)
         (List.filter
            (fun s => negb (existsb (fun p => p s) IGNORE_PATH_PATTERNS))
            (List.filter (fun s => 2 <=? utf16Length s)
               (List.filter (fun s => truthy s && negb (includes s "."))
                  (split "/" path))))) in
  newSet segments.

(** Stop words for keyword extraction. *)
Definition STOP_WORDS : list string := [
  "a"; "an"; "the"; "and"; "or"; "but"; "in"; "on"; "at"; "to"; "for"; "of";
  "with"; "by"; "from"; "as"; "is"; "was"; "are"; "were"; "been"; "be";
  "have"; "has"; "had"; "do"; "does"; "did"; "will"; "would"; "could";
  "should"; "may"; "might"; "must"; "shall"; "can"; "this"; "that"; "these";
  "those"; "i"; "you"; "he"; "she"; "it"; "we"; "they"; "what"; "which";
  "who"; "where"; "when"; "why"; "how"; "all"; "each"; "every"; "both";
  "few"; "more"; "most"; "other"; "some"; "no"; "not"; "only"; "same"; "so";
  "than"; "too"; "very"; "just"; "also"; "now"; "here"; "there"; "then";
  "if"; "about"; "into"; "through"; "during"; "before"; "after"; "above";
  "below"; "up"; "down"; "out"; "off"; "over"; "under"; "again"; "any";
  "pdf"; "epub"; "doc"; "file"; "document"; "page"; "pages"; "chapter";
  "book"; "ebook"; "download"; "copy"; "version"; "new"; "first"; "last";
  "good"; "best"; "free"
].

(** [s.endsWith (suffix)]. *)
Definition endsWith (s suffix : string) : bool :=
  String.prefix (String.rev suffix) (String.rev s).

(** [s.replace (/[...]+/g, " ")] for the class [p] of characters: every
    run of them becomes one space. *)
Fixpoint replaceRuns (p : ascii -> bool) (s : string) : string :=
  match s with
  | EmptyString => EmptyString
  | String c s' =>
      if p c then
        match s' with
        | String c' _ =>
            if p c' then replaceRuns p s'
            else String " " (replaceRuns p s')
        | EmptyString => String " " EmptyString
        end
      else String c (replaceRuns p s')
  end.

(** [s.replace (/\([^)]*\)/g, " ")], for the delimiters [opening] and
    [closing]: an opening delimiter, with what follows it up to the next
    closing one, becomes one space. Together with that result, the one for
    what follows the first closing delimiter of [s], if there is one. *)
Fixpoint replaceDelimitedFrom (opening closing : ascii) (s : string)
  : string * option string :=
  match s with
  | EmptyString => (EmptyString, None)
  | String c s' =>
      let '(rest, afterClosing) := replaceDelimitedFrom opening closing s' in
      (if Ascii.eqb c opening then
         match afterClosing with
         | Some after => String " " after
         | None => String c rest
         end
       else String c rest,
       if Ascii.eqb c closing then Some rest else afterClosing)
  end.

Definition replaceDelimited (opening closing : ascii) (s : string) : string :=
  (replaceDelimitedFrom opening closing s).1.

Definition extractFilenameTags (unicodeLowerCase : string -> string)
    (filename : string) : list string :=
  (* filename.replace (/\.(pdf|epub|md|markdown|txt)$/i, ...) *)
  let name :=
    match List.find
            (fun extension => endsWith (asciiLowerCase filename) extension)
            [".pdf"; ".epub"; ".md"; ".markdown"; ".txt"] with
    | Some extension =>
        String.substring 0 (String.length filename - String.length extension)
          filename
    | None => filename
    end in
  let cleaned :=
    trim
      (replaceRuns Ascii.is_space
         (replaceDelimited "[" "]"
            (replaceDelimited "(" ")"
               (replaceRuns
                  (fun c => Ascii.eqb c "-" || Ascii.eqb c "_"
                            || Ascii.eqb c "+")
                  name)))) in
  let words :=
    List.filter (fun w => 3 <=? utf16Length w)
      (map (normalizeTag unicodeLowerCase)
         (List.filter (fun w => negb (truthy w && allChars isDigit w))
            (List.filter (fun w => negb (bool_decide (w ∈ STOP_WORDS)))
               (List.filter (fun w => 3 <=? utf16Length w)
                  (map (toLowerCase unicodeLowerCase)
                     (splitSpaces false cleaned)))))) in
  take 3 (newSet words).

(** The tags [generateTags] returns as [allTags], from the tags of the LLM,
    of the path, of the file name and of the content. *)
Definition allTags (llmTags pathTags filenameTags contentTags : list string)
  : list string :=
  take 10
    (List.filter (fun t => 2 <=? String.length t)
       (newSet (llmTags ++ pathTags ++ filenameTags ++ contentTags))).

(** *** RAG context *)

(** A concept as the prompt of the LLM lists it. *)
Module TaxonomyConcept.
Record t : Type := mk {
  id : string;
  prefLabel : string;
  altLabels : list string;
}.
End TaxonomyConcept.

(** [parts.join (sep)]. *)
Definition join (sep : string) (parts : list string) : string :=
  String.concat sep parts.

(** The line feed. *)
Definition newline : string := String "010" EmptyString.

(** Format concepts for LLM prompt. *)
Definition formatConceptsForPrompt (concepts : list TaxonomyConcept.t)
  : string :=
  if length concepts =? 0 then "No taxonomy concepts available yet."
  else
    let lines :=
      map (fun c =>
             let aliases :=
               if 0 <? length (TaxonomyConcept.altLabels c)
               then " (aliases: "
                      +:+ join ", " (TaxonomyConcept.altLabels c) +:+ ")"
               else EmptyString in
             "- " +:+ TaxonomyConcept.id c +:+ ": "
               +:+ TaxonomyConcept.prefLabel c +:+ aliases)
        concepts in
    "Available concepts (use these IDs when applicable):" +:+ newline
      +:+ join newline lines.

Inductive RagEvent : Type :=
| EvEmbedSample (sample : string)
| EvFindSimilarConcepts (embedding : list float) (threshold : float)
    (limit : nat).

Definition ragError (e : AcceptFailure) : EnrichmentError := {|
  message :=
    "RAG context extraction failed: "
    +:+ match e with
        | OllamaFailed e' => Ollama.reason e'
        | TaxonomyFailed e' => taxonomyReason e'
        | JudgeRejected _ => "[object Object]"
        end;
  cause := e;
|}.

(** [extractRAGContext (content)], given the outcome of the calls of the
    embedding client and of the taxonomy. *)
Definition extractRAGContext
    (embed : string -> Exit Ollama.OllamaError (list float))
    (findSimilarConcepts :
       list float -> float -> nat -> Exit TaxonomyError (list Concept.t))
    (content : string)
  : Eff RagEvent EnrichmentError (list TaxonomyConcept.t) :=
  Effect.mapError ragError
    (let sample := String.substring 0 2000 content in
     embedding <- Effect.mapError OllamaFailed
                    ([EvEmbedSample sample], embed sample);;
     conceptsFromDB <- Effect.mapError TaxonomyFailed
                         ([EvFindSimilarConcepts embedding 0.5%float 5],
                          findSimilarConcepts embedding 0.5%float 5);;
     succeed
       (map (fun c => TaxonomyConcept.mk (Concept.id c) (Concept.prefLabel c)
                        (Concept.altLabels c))
          conceptsFromDB))%eff.

(** Step 1 of [enrich]: the concepts of the prompt, those of the RAG
    context first. [availableConcepts] is [None] when the options give
    none. *)
Definition conceptsForPrompt
    (embed : string -> Exit Ollama.OllamaError (list float))
    (findSimilarConcepts :
       list float -> float -> nat -> Exit TaxonomyError (list Concept.t))
    (content : string) (availableConcepts : option (list TaxonomyConcept.t))
  : Eff RagEvent EnrichmentError (list TaxonomyConcept.t) :=
  let availableConcepts := default [] availableConcepts in
  (ragConcepts <- Effect.catchAll
                    (extractRAGContext embed findSimilarConcepts content)
                    (fun _ => succeed []);;
   succeed
     (ragConcepts
        ++ List.filter
             (fun c =>
                negb (existsb
                        (fun r => bool_decide (TaxonomyConcept.id r
                                               = TaxonomyConcept.id c))
                        ragConcepts))
             availableConcepts))%eff.

End AutoTagger.

(* ===================================================================== *)
(** * Part II.  Vocabulary of the properties                              *)
(* ===================================================================== *)

Definition isSuccess {E A} (x : Exit E A) : Prop :=
  match x with Success _ => True | Failure _ => False end.

Definition isFailure {E A} (x : Exit E A) : Prop :=
  match x with Success _ => False | Failure _ => True end.

(** ** Runs of the batch scheduler *)

Module QueueSpec.

Import EmbeddingQueue.

(** The indices of the items whose processing completed, in that order. *)
Definition processedIndices (tr : list QueueEvent) : list nat :=
  omap (fun ev => match ev with EvProcess i => Some i | _ => None end) tr.

(** The progress events, in the order of their emission. *)
Definition progressReports (tr : list QueueEvent) : list BatchProgress :=
  omap (fun ev => match ev with EvProgress p => Some p | _ => None end) tr.

(** Every call of the hook: the batch it follows, and the indices of the
    items completed before it. *)
Fixpoint hookPoints (completed : list nat) (tr : list QueueEvent)
  : list (nat * list nat) :=
  match tr with
  | [] => []
  | EvProcess i :: tr' => hookPoints (completed ++ [i]) tr'
  | EvAfterBatch k :: tr' => (k, completed) :: hookPoints completed tr'
  | _ :: tr' => hookPoints completed tr'
  end.

(** A completion order of [n] calls under a concurrency limit [c]: every
    call completes once, and the [p]-th completion is one of the first
    [p + c] calls (no other call has been started by then). *)
Definition validOrder (c n : nat) (order : list nat) : Prop :=
  order ≡ₚ seq 0 n /\ forall p i, order !! p = Some i -> i < p + c.

(** The hook, when it is called, succeeds. *)
Definition hookSucceeds {E} (afterBatch : option (nat -> Exit E unit))
    (nBatches : nat) (config : EmbeddingQueueConfig) : Prop :=
  forall hook k, afterBatch = Some hook -> checkpointAfterBatch config = true ->
    k < nBatches -> hook k = Success tt.





(** The batch size [embedBatch] runs with. *)
Definition effectiveBatchSize (fullConfig : EmbeddingQueueConfig)
    (memoryUsage : option MemoryUsage) : nat :=
  if adaptiveBatchSize fullConfig
  then getAdaptiveBatchSize memoryUsage (batchSize fullConfig)
  else batchSize fullConfig.

(** [{ ...config, batchSize: size }]. *)
Definition withBatchSize (config : EmbeddingQueueConfig) (size : nat)
  : EmbeddingQueueConfig := {|
  batchSize := size;
  concurrency := concurrency config;
  batchDelayMs := batchDelayMs config;
  checkpointAfterBatch := checkpointAfterBatch config;
  adaptiveBatchSize := adaptiveBatchSize config;
|}.

(** The heap of [mem1] is no fuller than that of [mem2]. *)
Definition pressureLe (mem1 mem2 : MemoryUsage) : Prop :=
  0 < heapTotal mem1 /\ 0 < heapTotal mem2
  /\ heapUsed mem1 * heapTotal mem2 <= heapUsed mem2 * heapTotal mem1.

Section Vocabulary.
Context {T R E : Type}.
Variable process : T -> Exit E R.
Variable afterBatch : option (nat -> Exit E unit).
Variable onProgress : bool.
Variable completion : nat -> list nat.
Variable items : list T.
Variable config : EmbeddingQueueConfig.

(** The [k]-th batch, as the loop slices it. *)
Definition batchOf (k : nat) : list T :=
  slice items (k * batchSize config)
    (Nat.min (k * batchSize config + batchSize config) (length items)).

(** The number of items in the batches up to the [k]-th. *)
Definition processedAfter (k : nat) : nat :=
  Nat.min (S k * batchSize config) (length items).

Definition validCompletion : Prop :=
  forall k, k < ceilDiv (length items) (batchSize config) ->
    validOrder (concurrency config) (length (batchOf k)) (completion k).

Definition processOK (x : T) (r : R) : Prop := process x = Success r.

(** The indices of the items of batch [k], in their order of completion. *)
Definition batchIndices (k : nat) : list nat :=
  map (fun i => k * batchSize config + i) (completion k).

(** The indices of the items of the batches up to the [k]-th. *)
Definition completedItems (k : nat) : list nat :=
  flat_map batchIndices (seq 0 (S k)).

(** Every item of batch [k] has been processed, with success. *)
Definition batchCompleted (tr : list QueueEvent) (k : nat) : Prop :=
  forall i x, k * batchSize config <= i < processedAfter k ->
    items !! i = Some x ->
    EvProcess i ∈ tr /\ isSuccess (process x).

(** The events of a batch that runs to its end. *)
Definition processEvents (k : nat) (order : list nat) : list QueueEvent :=
  map (fun i => EvProcess (k * batchSize config + i)) order.

Definition progressOf (k : nat) : BatchProgress := {|
  batch := k + 1;
  totalBatches := ceilDiv (length items) (batchSize config);
  processed := processedAfter k;
  total := length items;
  percent := roundPercent (processedAfter k) (length items);
|}.

Definition progressEvents (k : nat) : list QueueEvent :=
  if onProgress then [EvProgress (progressOf k)] else [].

Definition hookEnabled : bool :=
  match afterBatch with
  | Some _ => checkpointAfterBatch config
  | None => false
  end.

Definition hookEvents (k : nat) : list QueueEvent :=
  if hookEnabled then [EvAfterBatch k] else [].

Definition sleepEvents (k : nat) : list QueueEvent :=
  if bool_decide (0 < batchDelayMs config)
     && bool_decide (k < ceilDiv (length items) (batchSize config) - 1)
  then [EvSleep (batchDelayMs config)] else [].

Definition batchEvents (k : nat) : list QueueEvent :=
  processEvents k (completion k) ++ progressEvents k ++ hookEvents k
    ++ sleepEvents k.

(** How a run that fails ends, inside batch [j]: a call of [process] fails,
    or the hook does. *)
Definition interrupted (j : nat) (e : E) (tail : list QueueEvent) : Prop :=
  (exists p i x, completion j !! p = Some i /\ batchOf j !! i = Some x
      /\ process x = Failure e
      /\ tail = processEvents j (take (S p) (completion j)))
  \/ (exists hook, afterBatch = Some hook /\ checkpointAfterBatch config = true
      /\ hook j = Failure e
      /\ Forall (fun x => isSuccess (process x)) (batchOf j)
      /\ tail = processEvents j (completion j) ++ progressEvents j
                  ++ [EvAfterBatch j]).





End Vocabulary.

End QueueSpec.

(** ** Calls of the embedding client *)

Module OllamaSpec.
Import Ollama.

(** The vector has the expected dimension and holds finite numbers only. *)
Definition validEmbedding (v : list float) : Prop :=
  length v = EXPECTED_EMBEDDING_DIMENSION
  /\ Forall (fun x => PrimFloat.is_finite x = true) v.

(** Dimension zero, another wrong dimension, or a value that is not finite. *)
Definition invalidEmbedding (v : list float) : Prop :=
  length v = 0
  \/ length v <> EXPECTED_EMBEDDING_DIMENSION
  \/ Exists (fun x => PrimFloat.is_finite x = false) v.

(** The error is one of those [validateEmbedding] raises. *)
Definition isValidationError (e : OllamaError) : Prop :=
  String.prefix "Invalid embedding" (reason e) = true.

(** The events of a call of [embed] that makes [k] retries. *)
Definition attemptsTrace (text : string) (k : nat) : list OllamaEvent :=
  EvFetch text 0
  :: flat_map (fun i => [EvSleep (100 * 2 ^ i); EvFetch text (S i)]) (seq 0 k).

(** The number of requests a call makes. *)
Definition fetchCount (tr : list OllamaEvent) : nat :=
  length (omap (fun ev => match ev with EvFetch _ n => Some n | _ => None end)
            tr).

(** The time a call waits between its requests, in milliseconds. *)
Definition totalSleep (tr : list OllamaEvent) : nat :=
  sum_list (omap (fun ev => match ev with EvSleep ms => Some ms | _ => None end)
              tr).

End OllamaSpec.

(** ** Runs of the concept curator *)

Module TaggerSpec.
Import JsString AutoTagger.

(** The text the judge answered, when it could be consulted at all. *)
Definition judgeAnswer (w : World) (k : nat) (proposed : ProposedConcept.t)
    (existing : Concept.t) : option string :=
  match loadConfig w k with
  | None => None
  | Some config =>
      match judge_provider config with
      | gateway =>
          match AI_GATEWAY_API_KEY w k with
          | Some gatewayKey =>
              if truthy gatewayKey
              then generateText w k (judge_model config)
                     (judgePrompt proposed existing)
              else None
          | None => None
          end
      | ollama =>
          match fetchGenerate w k (ollama_host config) (judge_model config)
                  (judgePrompt proposed existing) with
          | GenerateJson response => Some (orElse response "")
          | _ => None
          end
      end
  end.

(** The answer, trimmed and in upper case, contains the token DUPLICATE. *)
Definition saysDuplicate (answer : string) : bool :=
  includes (toUpperCase (trim answer)) "DUPLICATE".

(** The calls that persist a concept. *)
Inductive PersistCall : Type :=
| Added (concept : ProposedConcept.t)
| Stored (id : string).

Definition persistCalls (tr : list TaggerEvent) : list PersistCall :=
  omap (fun ev =>
          match ev with
          | EvAddConcept concept => Some (Added concept)
          | EvStoreConceptEmbedding id _ => Some (Stored id)
          | _ => None
          end) tr.

(** The identifier of the concept an event is about. *)
Definition eventConceptId (ev : TaggerEvent) : string :=
  match ev with
  | EvEmbed proposal _ => ProposedConcept.id proposal
  | EvFindSimilar proposal _ _ => ProposedConcept.id proposal
  | EvJudge proposal _ => ProposedConcept.id proposal
  | EvAddConcept concept => ProposedConcept.id concept
  | EvStoreConceptEmbedding id _ => id
  end.

(** Whether the loop body accepts the [k]-th proposal. *)
Definition isAccepted (w : World) (k : nat) (proposal : ProposedConcept.t)
  : bool :=
  match exit (acceptProposal w k proposal) with
  | Success b => b
  | Failure _ => false
  end.

(** The proposals of a run that the loop body accepts, from the [k]-th on. *)
Fixpoint acceptedOf (w : World) (k : nat) (proposals : list ProposedConcept.t)
  : list ProposedConcept.t :=
  match proposals with
  | [] => []
  | proposal :: proposals' =>
      if isAccepted w k proposal
      then proposal :: acceptedOf w (S k) proposals'
      else acceptedOf w (S k) proposals'
  end.

(** The events of the loop bodies of [proposals], the first of them being
    the [k]-th proposal of the run. *)
Fixpoint bodyEvents (w : World) (k : nat) (proposals : list ProposedConcept.t)
  : list TaggerEvent :=
  match proposals with
  | [] => []
  | proposal :: proposals' =>
      events (acceptProposal w k proposal) ++ bodyEvents w (S k) proposals'
  end.

(** The calls of the judge: the proposal, and the concept it is compared
    with. *)
Definition judgeCalls (tr : list TaggerEvent)
  : list (ProposedConcept.t * Concept.t) :=
  omap (fun ev => match ev with
                  | EvJudge proposal existing => Some (proposal, existing)
                  | _ => None
                  end) tr.

(** The calls of the embedding client: the proposal, and the text embedded. *)
Definition embedCalls (tr : list TaggerEvent)
  : list (ProposedConcept.t * string) :=
  omap (fun ev => match ev with
                  | EvEmbed proposal text => Some (proposal, text)
                  | _ => None
                  end) tr.

(** The last character of a string. *)
Fixpoint lastChar (s : string) : option ascii :=
  match s with
  | EmptyString => None
  | String c EmptyString => Some c
  | String _ s' => lastChar s'
  end.

(** A tag in normal form: made of the characters [a-z0-9-], with no two
    hyphens in a row and no hyphen at either end. *)
Definition wellFormedTag (tag : string) : Prop :=
  allChars isTagChar tag = true
  /\ includes tag "--" = false
  /\ String.prefix "-" tag = false
  /\ lastChar tag <> Some "-"%char.

(** Holds no line feed. *)
Definition singleLine (s : string) : Prop := includes s newline = false.

(** A capital letter, [A-Z]. *)
Definition isUpperAscii (c : ascii) : bool :=
  let n := Ascii.nat_of_ascii c in (65 <=? n) && (n <=? 90).



(** The path that [extractPathTags] cuts into segments: the file path,
    with the base path taken off its front when one is given that is not
    empty and that the file path starts with. *)
Definition pathBelow (filePath : string) (basePath : option string)
    (path : string) : Prop :=
  (exists base,
     basePath = Some base /\ base <> "" /\ filePath = base +:+ path)
  \/ (path = filePath
      /\ forall base rest,
           basePath = Some base -> filePath = base +:+ rest -> base = "").

(** [segment] holds no slash and stands in [path] between two slashes, an
    end of the path counting as one. *)
Definition segmentOf (path segment : string) : Prop :=
  includes segment "/" = false
  /\ exists before after,
       "/" +:+ path +:+ "/" = before +:+ "/" +:+ segment +:+ "/" +:+ after.

(** Holds no white space. *)
Definition noSpace (s : string) : bool :=
  allChars (fun c => negb (Ascii.is_space c)) s.

(** A character at which [extractFilenameTags] cuts a name into words. *)
Definition isWordBreak (c : ascii) : bool :=
  Ascii.is_space c || Ascii.eqb c "-" || Ascii.eqb c "_" || Ascii.eqb c "+".

(** [s] spells [word], a word written in capital letters: letter by
    letter, each in either case, the letter I also as the dotless i
    (U+0131, the bytes 196 177). *)
Fixpoint anyCase (word s : string) : bool :=
  match word, s with
  | EmptyString, EmptyString => true
  | String letter word', String c s' =>
      ((Ascii.eqb c letter || Ascii.eqb c (lowerChar letter))
       && anyCase word' s')
      || (Ascii.eqb letter "I"
          && match s' with
             | String c' s'' =>
                 Ascii.eqb c "196" && Ascii.eqb c' "177" && anyCase word' s''
             | EmptyString => false
             end)
  | _, _ => false
  end.

(** The form [parent/child] that a valid identifier has: the parent is a
    known category; the child has no slash and no space, at most four
    words between hyphens and at most thirty UTF-16 code units, and is no
    placeholder; and the identifier is in lower case, that is, lower-casing
    leaves it as it is. *)
Definition structurallyValid (unicodeLowerCase : string -> string)
    (id : string) : Prop :=
  exists parent child,
    id = parent +:+ "/" +:+ child
    /\ parent ∈ validParents
    /\ includes child "/" = false
    /\ includes child " " = false
    /\ toLowerCase unicodeLowerCase id = id
    /\ length (split "-" child) <= 4
    /\ utf16Length child <= 30
    /\ child <> "concept"
    /\ child <> "new".

(** Every way through the body of the loop. *)
Ltac accept_step :=
  match goal with
  | |- context [embed ?w ?k ?t] =>
      destruct (embed w k t) as [?e|?embedding] eqn:?Hembed
  | |- context [findSimilarConcepts ?w ?k ?v ?t] =>
      destruct (findSimilarConcepts w k v t) as [?e|[|?best ?rest]]
        eqn:?Hsimilar
  | |- context [llmJudgeDuplicate ?w ?k ?p ?c] =>
      destruct (llmJudgeDuplicate w k p c) as [[[|] ?]|] eqn:?Hjudge
  | |- context [addConcept ?w ?k ?p] =>
      destruct (addConcept w k p) as [?e|[]] eqn:?Hadd
  | |- context [storeConceptEmbedding ?w ?k ?i ?v] =>
      destruct (storeConceptEmbedding w k i v) as [?e|[]] eqn:?Hstore
  end;
  cbn [mapError bind succeed app isDuplicate events exit fst snd].

Ltac accept_cases :=
  unfold acceptProposal, callOllama, callTaxonomy, tryJudge;
  repeat accept_step.

End TaggerSpec.

(** ** Sample inputs *)

Module QueueSamples.
Import EmbeddingQueue.

(** Five items in batches of two, the hook after every batch. *)
Definition sampleConfig : EmbeddingQueueConfig := {|
  batchSize := 2;
  concurrency := 2;
  batchDelayMs := 50;
  checkpointAfterBatch := true;
  adaptiveBatchSize := false;
|}.

Definition sampleItems : list nat := [1; 2; 3; 4; 5].

(** The two calls of a full batch complete in reverse order. *)
Definition sampleCompletion (k : nat) : list nat :=
  if k <? 2 then [1; 0] else [0].

Definition sampleProcess (n : nat) : Exit string nat := Success (n * 2).

Definition sampleHook (k : nat) : Exit string unit := Success tt.

(** The configuration of the test suite: no delay, one call at a time. *)
Definition testConfig (size : nat) (checkpoint : bool)
  : EmbeddingQueueConfig := {|
  batchSize := size;
  concurrency := 1;
  batchDelayMs := 0;
  checkpointAfterBatch := checkpoint;
  adaptiveBatchSize := false;
|}.

(** With one call at a time the calls complete in the order of the batch. *)
Definition inOrder (size : nat) (k : nat) : list nat := seq 0 size.

(** Fails on the item 2. *)
Definition boom (n : nat) : Exit string nat :=
  if n =? 2 then Failure "boom" else Success n.

(** Forty items in two batches, of 23 and of 17; the call on the item 30,
    of the second batch, fails. *)
Definition fortyItems : list nat := seq 1 40.

Definition fortyConfig : EmbeddingQueueConfig := testConfig 23 false.

Definition fortyCompletion (k : nat) : list nat :=
  if k =? 0 then seq 0 23 else seq 0 17.

Definition failsOn30 (n : nat) : Exit string nat :=
  if n =? 30 then Failure "boom" else Success n.

End QueueSamples.

Module OllamaSamples.
Import Ollama.

Definition sampleVector : list float := repeat 0.5%float 1024.

(** The service answers an empty vector first, a good one afterwards. *)
Definition sampleResponses (n : nat) : EmbeddingResponse :=
  match n with
  | 0 => Json []
  | S _ => Json sampleVector
  end.

(** A vector of the right dimension that starts with an infinity. *)
Definition infiniteVector : list float := infinity :: repeat 0.5%float 1023.

(** The service answers that vector first, a good one afterwards. *)
Definition infiniteThenGood (n : nat) : EmbeddingResponse :=
  match n with
  | 0 => Json infiniteVector
  | S _ => Json sampleVector
  end.

End OllamaSamples.

Module TaggerSamples.
Import AutoTagger.

Definition machineLearning : ProposedConcept.t :=
  ProposedConcept.mk "programming/machine-learning" "Machine Learning" None
    (Some "Learning from data").

Definition deepLearning : ProposedConcept.t :=
  ProposedConcept.mk "programming/deep-learning" "Deep Learning" None None.

Definition existingML : Concept.t :=
  Concept.mk "programming/ml" "ML" [] None.

(** An engine whose lower-casing leaves the characters outside ASCII as
    they are. *)
Definition sampleLowerCase : string -> string :=
  JsString.mapChars JsString.lowerChar.

(** A taxonomy that finds the candidates [similar k] for the [k]-th
    proposal, and a judge on Ollama that answers [answer]. *)
Definition sampleWorld (similar : nat -> list Concept.t)
    (answer : GenerateResponse) : World := {|
  embed := fun _ _ => Success [1%float];
  findSimilarConcepts := fun k _ _ => Success (similar k);
  addConcept := fun _ _ => Success tt;
  storeConceptEmbedding := fun _ _ _ => Success tt;
  loadConfig := fun _ =>
    Some {| judge_provider := ollama;
            judge_model := "llama3.2";
            ollama_host := "http://localhost:11434" |};
  AI_GATEWAY_API_KEY := fun _ => None;
  generateText := fun _ _ _ => None;
  fetchGenerate := fun _ _ _ _ => answer;
  engineLowerCase := sampleLowerCase;
|}.

(** A candidate is found and the judge cannot be reached. *)
Definition unreachableJudge : World :=
  sampleWorld (fun _ => [existingML]) FetchFailed.

(** Nothing resembles the first proposal; the second has a candidate, and
    the judge calls it a duplicate. *)
Definition duplicateSecond : World :=
  sampleWorld (fun k => if k =? 0 then [] else [existingML])
    (GenerateJson (Some "DUPLICATE")).

(** Nothing resembles the proposals; the embedding client answers the
    first call and is down afterwards. *)
Definition embedFailsSecond : World := {|
  embed := fun k _ =>
    if k =? 0 then Success [1%float]
    else Failure {| Ollama.reason := "Connection failed: refused" |};
  findSimilarConcepts := fun _ _ _ => Success [];
  addConcept := fun _ _ => Success tt;
  storeConceptEmbedding := fun _ _ _ => Success tt;
  loadConfig := fun _ => None;
  AI_GATEWAY_API_KEY := fun _ => None;
  generateText := fun _ _ _ => None;
  fetchGenerate := fun _ _ _ _ => FetchFailed;
  engineLowerCase := sampleLowerCase;
|}.

(** Nothing resembles the proposals; the taxonomy adds a concept but cannot
    store its embedding. *)
Definition storeFails : World := {|
  embed := fun _ _ => Success [1%float];
  findSimilarConcepts := fun _ _ _ => Success [];
  addConcept := fun _ _ => Success tt;
  storeConceptEmbedding := fun _ _ _ =>
    Failure {| taxonomyReason := "database is locked" |};
  loadConfig := fun _ => None;
  AI_GATEWAY_API_KEY := fun _ => None;
  generateText := fun _ _ _ => None;
  fetchGenerate := fun _ _ _ _ => FetchFailed;
  engineLowerCase := sampleLowerCase;
|}.

(** A candidate is found, and the judge answers with a sentence. *)
Definition talkativeJudge : World :=
  sampleWorld (fun _ => [existingML])
    (GenerateJson (Some "These are NOT duplicates.")).

End TaggerSamples.


(* ===================================================================== *)
(** * Part III.  Properties                                               *)
(* ===================================================================== *)

(** ** Effects *)

Lemma bind_success {Ev E A B} tr (a : A) (k : A -> Eff Ev E B) :
  bind (tr, Success a) k = (tr ++ events (k a), exit (k a)).
Proof. simpl. by destruct (k a). Qed.

Lemma bind_failure {Ev E A B} tr (e : E) (k : A -> Eff Ev E B) :
  bind (tr, Failure e) k = (tr, Failure e).
Proof. done. Qed.

Lemma events_mapError {Ev E E' A} (f : E -> E') (m : Eff Ev E A) :
  events (mapError f m) = events m.
Proof. by destruct m as [tr [e|a]]. Qed.

Lemma exit_mapError_Success {Ev E E' A} (f : E -> E') (m : Eff Ev E A) a :
  exit (mapError f m) = Success a <-> exit m = Success a.
Proof. destruct m as [tr [e|a']]; simpl; split; congruence. Qed.

(** ** The batch scheduler *)

Import EmbeddingQueue QueueSpec.

Section QueueLemmas.
Context {T R E : Type}.
Variable process : T -> Exit E R.
Variable afterBatch : option (nat -> Exit E unit).
Variable onProgress : bool.
Variable completion : nat -> list nat.
Variable items : list T.
Variable config : EmbeddingQueueConfig.

Local Abbreviation batchOf := (QueueSpec.batchOf items config).
Local Abbreviation processedAfter := (QueueSpec.processedAfter items config).
Local Abbreviation validCompletion :=
  (QueueSpec.validCompletion completion items config).
Local Abbreviation processOK := (QueueSpec.processOK process).
Local Abbreviation batchIndices := (QueueSpec.batchIndices completion config).
Local Abbreviation completedItems :=
  (QueueSpec.completedItems completion config).
Local Abbreviation batchCompleted :=
  (QueueSpec.batchCompleted process items config).
Local Abbreviation processEvents := (QueueSpec.processEvents config).
Local Abbreviation progressOf := (QueueSpec.progressOf items config).
Local Abbreviation progressEvents :=
  (QueueSpec.progressEvents onProgress items config).
Local Abbreviation hookEnabled := (QueueSpec.hookEnabled afterBatch config).
Local Abbreviation hookEvents := (QueueSpec.hookEvents afterBatch config).
Local Abbreviation sleepEvents := (QueueSpec.sleepEvents items config).
Local Abbreviation batchEvents :=
  (QueueSpec.batchEvents afterBatch onProgress completion items config).
Local Abbreviation interrupted :=
  (QueueSpec.interrupted process afterBatch onProgress completion items
     config).
Local Abbreviation theRun :=
  (processInBatches process afterBatch onProgress completion items config).

Lemma runCompletions_spec start batch order slots :
  (forall i, i ∈ order -> i < length batch) ->
  length slots = length batch ->
  match runCompletions process start batch order slots with
  | (tr, Success slots') =>
      tr = map (fun i => EvProcess (start + i)) order
      /\ length slots' = length batch
      /\ (forall i, i ∈ order -> exists x r, batch !! i = Some x
            /\ process x = Success r /\ slots' !! i = Some (Some r))
      /\ (forall i, i ∉ order -> slots' !! i = slots !! i)
  | (tr, Failure e) =>
      exists p i x, order !! p = Some i /\ batch !! i = Some x
        /\ process x = Failure e
        /\ tr = map (fun i => EvProcess (start + i)) (take (S p) order)
  end.
Proof.
  revert slots. induction order as [|i order IH]; intros slots Hin Hlen; simpl.
  - split_and!; [done|done| |done]. intros i Hi. by apply elem_of_nil in Hi.
  - assert (Hi : i < length batch) by (apply Hin; left).
    destruct (lookup_lt_is_Some_2 batch i Hi) as [x Hx]. rewrite Hx.
    destruct (process x) as [e|r] eqn:Hp.
    + exists 0, i, x. by rewrite take_0.
    + specialize (IH (<[i:=Some r]> slots)).
      destruct (runCompletions process start batch order (<[i:=Some r]> slots))
        as [tr [e|slots']] eqn:Hrun; simpl.
      * destruct IH as (p & i' & x' & Hp' & Hx' & Hf & ->).
        { intros; apply Hin; by right. } { by rewrite length_insert. }
        exists (S p), i', x'. done.
      * destruct IH as (-> & Hl & Hin' & Hout).
        { intros; apply Hin; by right. } { by rewrite length_insert. }
        split_and!; [done|done| |].
        -- intros i' Hi'.
           destruct (decide (i' ∈ order)) as [?|Hno]; [by apply Hin'|].
           apply elem_of_cons in Hi' as [->|?]; [|done].
           exists x, r. split_and!; [done|done|].
           rewrite Hout by done. apply list_lookup_insert_eq. lia.
        -- intros i' Hi'. apply not_elem_of_cons in Hi' as [? ?].
           rewrite Hout by done. by apply list_lookup_insert_ne.
Qed.

Lemma omap_id_slots (batch : list T) (slots : list (option R)) :
  Forall2 (fun x s => exists r, s = Some r /\ processOK x r) batch slots ->
  Forall2 processOK batch (omap id slots).
Proof.
  induction 1 as [|x s batch slots (r & -> & Hr) _ IH]; simpl; by constructor.
Qed.

Lemma mapEffectCollect_spec start batch order :
  order ≡ₚ seq 0 (length batch) ->
  match mapEffectCollect process start batch order with
  | (tr, Success rs) =>
      tr = map (fun i => EvProcess (start + i)) order
      /\ Forall2 processOK batch rs
  | (tr, Failure e) =>
      exists p i x, order !! p = Some i /\ batch !! i = Some x
        /\ process x = Failure e
        /\ tr = map (fun i => EvProcess (start + i)) (take (S p) order)
  end.
Proof.
  intros Hperm. unfold mapEffectCollect.
  assert (Hin : forall i, i ∈ order <-> i < length batch).
  { intros i. rewrite Hperm, elem_of_seq. lia. }
  pose proof (runCompletions_spec start batch order
                (replicate (length batch) None)) as Hspec.
  destruct (runCompletions process start batch order _) as [tr [e|slots]];
    simpl.
  - apply Hspec; [intros; by apply Hin | by rewrite length_replicate].
  - destruct Hspec as (-> & Hlen & Hfilled & _);
      [intros; by apply Hin | by rewrite length_replicate |].
    rewrite app_nil_r. split; [done|].
    apply omap_id_slots, Forall2_same_length_lookup_2; [done|].
    intros i x s Hx Hs.
    destruct (Hfilled i) as (x' & r & Hx' & Hr & Hs').
    { apply Hin. by eapply lookup_lt_Some. }
    exists r. split; [congruence|]. unfold QueueSpec.processOK. congruence.
Qed.

(** Arithmetic of the partition. *)

Lemma ceilDiv_lt n b k : 0 < b -> k < ceilDiv n b <-> k * b < n.
Proof.
  intros Hb. unfold ceilDiv. split; intros H.
  - destruct (decide (k * b < n)) as [|Hge]; [done|]. exfalso.
    assert ((n + b - 1) / b < S k); [|lia].
    apply Nat.Div0.div_lt_upper_bound. nia.
  - assert (S k <= (n + b - 1) / b); [|lia].
    apply Nat.div_le_lower_bound; lia.
Qed.

Lemma ceilDiv_covers n b : 0 < b -> n <= ceilDiv n b * b.
Proof.
  intros Hb. destruct (decide (n <= ceilDiv n b * b)) as [|Hlt]; [done|].
  assert (ceilDiv n b < ceilDiv n b); [|lia].
  apply ceilDiv_lt; lia.
Qed.

Lemma length_batchOf k :
  length (batchOf k)
  = Nat.min (batchSize config) (length items - k * batchSize config).
Proof.
  unfold QueueSpec.batchOf, slice. rewrite length_take, length_drop. lia.
Qed.

Lemma take_next_batch k :
  take (S k * batchSize config) items
  = take (k * batchSize config) items ++ batchOf k.
Proof.
  unfold QueueSpec.batchOf, slice.
  destruct (decide (k * batchSize config <= length items)) as [Hle|Hgt].
  - replace (S k * batchSize config)
      with (k * batchSize config + batchSize config) by lia.
    rewrite <- take_take_drop. f_equal.
    destruct (decide (k * batchSize config + batchSize config <= length items)).
    + f_equal. lia.
    + rewrite !take_ge; [done| |]; rewrite length_drop; lia.
  - rewrite !take_ge, drop_ge by lia. rewrite take_nil. by rewrite app_nil_r.
Qed.

Lemma reportProgress_eq p :
  reportProgress (E:=E) onProgress p
  = ((if onProgress then [EvProgress p] else []), Success tt).
Proof. unfold reportProgress. by destruct onProgress. Qed.

Lemma backpressure_eq k :
  backpressure (E:=E) config k (ceilDiv (length items) (batchSize config))
  = (sleepEvents k, Success tt).
Proof. unfold backpressure, QueueSpec.sleepEvents. by case_match. Qed.

Lemma runAfterBatch_eq k :
  runAfterBatch afterBatch config k
  = (hookEvents k,
     match afterBatch with
     | Some hook => if checkpointAfterBatch config then hook k else Success tt
     | None => Success tt
     end).
Proof.
  unfold runAfterBatch, QueueSpec.hookEvents, QueueSpec.hookEnabled.
  destruct afterBatch as [hook|]; [|done].
  destruct (checkpointAfterBatch config); [|done].
  simpl. by destruct (hook k).
Qed.

Lemma length_processed k rs :
  k * batchSize config <= length items ->
  Forall2 processOK (take (S k * batchSize config) items) rs ->
  length rs = processedAfter k.
Proof.
  intros Hk Hrs. apply Forall2_length in Hrs. rewrite <- Hrs, length_take.
  unfold QueueSpec.processedAfter. lia.
Qed.

Lemma processOK_isSuccess l rs :
  Forall2 processOK l rs -> Forall (fun x => isSuccess (process x)) l.
Proof.
  induction 1 as [|x r l rs Hx _ IH]; constructor; [|done].
  unfold QueueSpec.processOK in Hx. by rewrite Hx.
Qed.

Lemma batchLoop_shape remaining : forall batchIdx results,
  0 < batchSize config ->
  validCompletion ->
  batchIdx + remaining = ceilDiv (length items) (batchSize config) ->
  Forall2 processOK (take (batchIdx * batchSize config) items) results ->
  exists j tail,
    let run := batchLoop process afterBatch onProgress completion items
                 config (ceilDiv (length items) (batchSize config))
                 remaining batchIdx results in
    events run = flat_map batchEvents (seq batchIdx j) ++ tail
    /\ Forall (fun x => isSuccess (process x))
         (take ((batchIdx + j) * batchSize config) items)
    /\ match exit run with
       | Success rs => j = remaining /\ tail = [] /\ Forall2 processOK items rs
       | Failure e => j < remaining /\ interrupted (batchIdx + j) e tail
       end.
Proof.
  induction remaining as [|remaining IH]; intros k results HB Hvalid Hk Hres.
  - exists 0, []. simpl. rewrite Nat.add_0_r in *.
    split_and!; [done|by eapply processOK_isSuccess|done..|].
    rewrite take_ge in Hres; [done|]. rewrite Hk. by apply ceilDiv_covers.
  - assert (Hlt : k < ceilDiv (length items) (batchSize config)) by lia.
    pose proof (proj1 (Hvalid k Hlt)) as Hperm.
    pose proof (mapEffectCollect_spec (k * batchSize config) (batchOf k)
                  (completion k) Hperm) as Hbatch.
    cbn [batchLoop]. fold (batchOf k).
    destruct (mapEffectCollect process (k * batchSize config) (batchOf k)
                (completion k)) as [tr [e|rs]].
    + exists 0, tr. simpl. rewrite Nat.add_0_r.
      split_and!; [done|by eapply processOK_isSuccess|lia|]. left.
      destruct Hbatch as (p & i & x & ? & ? & ? & ->).
      by exists p, i, x.
    + destruct Hbatch as [-> Hrs].
      assert (Hres' : Forall2 processOK (take (S k * batchSize config) items)
                        (results ++ rs)).
      { rewrite take_next_batch. by apply Forall2_app. }
      assert (Hkle : k * batchSize config <= length items).
      { apply ceilDiv_lt in Hlt; lia. }
      rewrite bind_success. cbv beta.
      rewrite (length_processed k _ Hkle Hres').
      rewrite reportProgress_eq, bind_success, runAfterBatch_eq.
      fold (processEvents k (completion k)). fold (progressOf k).
      fold (progressEvents k).
      destruct (match afterBatch with
                | Some hook => if checkpointAfterBatch config then hook k
                               else Success tt
                | None => Success tt end) as [e|[]] eqn:Hhook.
      * exists 0, (processEvents k (completion k) ++ progressEvents k
                    ++ [EvAfterBatch k]).
        rewrite Nat.add_0_r, bind_failure. simpl.
        destruct afterBatch as [hook|] eqn:Hab; [|done].
        destruct (checkpointAfterBatch config) eqn:Hcp; [|done].
        unfold QueueSpec.hookEvents, QueueSpec.hookEnabled. rewrite ?Hcp.
        split_and!; [done|by eapply processOK_isSuccess|lia|].
        right. exists hook. split_and!; [done..| |done].
        by eapply processOK_isSuccess.
      * rewrite bind_success, backpressure_eq, bind_success.
        destruct (IH (S k) (results ++ rs) HB Hvalid ltac:(lia) Hres')
          as (j & tail & Hev & Hok & Hex).
        destruct (batchLoop _ _ _ _ _ _ _ _ _ _) as [tr' ex'].
        simpl in Hev, Hex. subst tr'.
        exists (S j), tail. simpl.
        replace (k + S j) with (S k + j) by lia. split_and!; [|done|].
        { unfold QueueSpec.batchEvents. by rewrite <- !app_assoc. }
        destruct ex' as [e|rs'].
        -- destruct Hex as [? Hint]. split; [lia|done].
        -- destruct Hex as (-> & -> & ?). done.
Qed.

Lemma processedIndices_app tr1 tr2 :
  processedIndices (tr1 ++ tr2) = processedIndices tr1 ++ processedIndices tr2.
Proof. apply omap_app. Qed.

Lemma progressReports_app tr1 tr2 :
  progressReports (tr1 ++ tr2) = progressReports tr1 ++ progressReports tr2.
Proof. apply omap_app. Qed.

Lemma hookPoints_app tr1 tr2 completed :
  hookPoints completed (tr1 ++ tr2)
  = hookPoints completed tr1
      ++ hookPoints (completed ++ processedIndices tr1) tr2.
Proof.
  revert completed. induction tr1 as [|[i|p|k|ms] tr1 IH]; intros completed;
    simpl; rewrite ?app_nil_r, ?IH, <- ?app_assoc; done.
Qed.

Lemma elem_of_processedIndices i tr :
  i ∈ processedIndices tr <-> EvProcess i ∈ tr.
Proof.
  unfold processedIndices. rewrite list_elem_of_omap. split.
  - intros ([]&?&?); naive_solver.
  - intros ?. by exists (EvProcess i).
Qed.

Lemma processedIndices_processEvents k order :
  processedIndices (processEvents k order)
  = map (fun i => k * batchSize config + i) order.
Proof. induction order; simpl; by f_equal. Qed.

Lemma processedIndices_batchEvents k :
  processedIndices (batchEvents k) = batchIndices k.
Proof.
  unfold QueueSpec.batchEvents.
  rewrite !processedIndices_app, processedIndices_processEvents.
  unfold QueueSpec.progressEvents, QueueSpec.hookEvents, QueueSpec.sleepEvents.
  destruct onProgress, hookEnabled; case_match; simpl; by rewrite app_nil_r.
Qed.

Lemma processedIndices_batches j :
  processedIndices (flat_map batchEvents (seq 0 j))
  = flat_map batchIndices (seq 0 j).
Proof.
  induction j as [|j IH]; [done|].
  rewrite seq_S, !flat_map_app, processedIndices_app, IH. simpl.
  by rewrite !app_nil_r, processedIndices_batchEvents.
Qed.

Lemma batchIndices_perm k :
  0 < batchSize config -> validCompletion ->
  k < ceilDiv (length items) (batchSize config) ->
  batchIndices k
  ≡ₚ seq (k * batchSize config) (processedAfter k - k * batchSize config).
Proof.
  intros HB Hvalid Hk. unfold QueueSpec.batchIndices.
  rewrite (proj1 (Hvalid k Hk)), length_batchOf.
  change (map ?f ?l) with (f <$> l).
  rewrite (fmap_add_seq (k * batchSize config) 0), Nat.add_0_r.
  unfold QueueSpec.processedAfter. apply ceilDiv_lt in Hk; [|done].
  replace (Nat.min (batchSize config) (length items - k * batchSize config))
    with (Nat.min (S k * batchSize config) (length items)
          - k * batchSize config)
    by (rewrite Nat.mul_succ_l; lia).
  done.
Qed.

Lemma batches_perm j :
  0 < batchSize config -> validCompletion ->
  j <= ceilDiv (length items) (batchSize config) ->
  flat_map batchIndices (seq 0 j)
  ≡ₚ seq 0 (Nat.min (j * batchSize config) (length items)).
Proof.
  intros HB Hvalid. induction j as [|j IH]; intros Hj; [done|].
  rewrite seq_S, flat_map_app, IH by lia. simpl. rewrite app_nil_r.
  rewrite batchIndices_perm by (done || lia).
  assert (j * batchSize config < length items) by (apply ceilDiv_lt; lia).
  replace (Nat.min (j * batchSize config) (length items))
    with (j * batchSize config) by lia.
  fold (processedAfter j).
  assert (Hsplit : processedAfter j
            = j * batchSize config + (processedAfter j - j * batchSize config)).
  { unfold QueueSpec.processedAfter. rewrite Nat.mul_succ_l. lia. }
  change (Nat.min (batchSize config + j * batchSize config) (length items))
    with (processedAfter j).
  rewrite Hsplit at 2. by rewrite seq_app.
Qed.

Lemma progressReports_processEvents k order :
  progressReports (processEvents k order) = [].
Proof. by induction order. Qed.

Lemma hookPoints_processEvents completed k order :
  hookPoints completed (processEvents k order) = [].
Proof. revert completed. induction order; intros; simpl; auto. Qed.

Lemma progressReports_batchEvents k :
  progressReports (batchEvents k)
  = if onProgress then [progressOf k] else [].
Proof.
  unfold QueueSpec.batchEvents.
  rewrite !progressReports_app, progressReports_processEvents.
  unfold QueueSpec.progressEvents, QueueSpec.hookEvents, QueueSpec.sleepEvents.
  destruct onProgress, hookEnabled; by case_match.
Qed.

Lemma progressReports_batches j :
  progressReports (flat_map batchEvents (seq 0 j))
  = if onProgress then map progressOf (seq 0 j) else [].
Proof.
  induction j as [|j IH]; [by destruct onProgress|].
  rewrite seq_S, flat_map_app, progressReports_app, IH. simpl.
  rewrite app_nil_r, progressReports_batchEvents.
  destruct onProgress; [|done]. by rewrite map_app.
Qed.

Lemma hookPoints_batchEvents completed k :
  hookPoints completed (batchEvents k)
  = if hookEnabled then [(k, completed ++ batchIndices k)] else [].
Proof.
  unfold QueueSpec.batchEvents.
  rewrite hookPoints_app, hookPoints_processEvents,
    processedIndices_processEvents.
  fold (batchIndices k).
  unfold QueueSpec.progressEvents, QueueSpec.hookEvents, QueueSpec.sleepEvents.
  destruct onProgress, hookEnabled; by case_match.
Qed.

Lemma hookPoints_batches j :
  hookPoints [] (flat_map batchEvents (seq 0 j))
  = if hookEnabled then map (fun k => (k, completedItems k)) (seq 0 j)
    else [].
Proof.
  induction j as [|j IH]; [by destruct hookEnabled|].
  rewrite seq_S, flat_map_app, hookPoints_app, IH. simpl.
  rewrite app_nil_r, hookPoints_batchEvents, processedIndices_batches.
  destruct hookEnabled; [|done]. rewrite map_app. simpl.
  unfold QueueSpec.completedItems. rewrite (seq_S j), flat_map_app. simpl.
  by rewrite app_nil_r.
Qed.

Lemma elem_of_batches j i :
  0 < batchSize config -> validCompletion ->
  j <= ceilDiv (length items) (batchSize config) ->
  i ∈ flat_map batchIndices (seq 0 j)
  <-> i < Nat.min (j * batchSize config) (length items).
Proof.
  intros HB Hvalid Hj. rewrite (batches_perm j HB Hvalid Hj), elem_of_seq. lia.
Qed.

Lemma lookup_batchOf k i x :
  batchOf k !! i = Some x <->
  items !! (k * batchSize config + i) = Some x
  /\ k * batchSize config + i < processedAfter k.
Proof.
  unfold QueueSpec.batchOf, slice, QueueSpec.processedAfter.
  rewrite lookup_take_Some, lookup_drop, Nat.mul_succ_l.
  split; intros [Hx ?]; (split; [done|]);
    apply lookup_lt_Some in Hx; lia.
Qed.

Lemma completion_bound k i :
  0 < batchSize config -> validCompletion ->
  k < ceilDiv (length items) (batchSize config) ->
  i ∈ completion k -> i < batchSize config.
Proof.
  intros HB Hvalid Hk. rewrite (proj1 (Hvalid k Hk)), elem_of_seq.
  rewrite length_batchOf. lia.
Qed.

Lemma processedAfter_mono k m :
  k < m -> processedAfter k
           <= Nat.min (m * batchSize config) (length items).
Proof. unfold QueueSpec.processedAfter. nia. Qed.

(** Batches below [m] are completed when their items are in the trace. *)
Lemma batchCompleted_below tr k m :
  k < m ->
  (forall i, i < Nat.min (m * batchSize config) (length items) ->
     EvProcess i ∈ tr) ->
  Forall (fun x => isSuccess (process x)) (take (m * batchSize config) items) ->
  batchCompleted tr k.
Proof.
  intros Hk Hin Hok i x Hi Hx.
  pose proof (processedAfter_mono k m Hk). split; [apply Hin; lia|].
  rewrite Forall_forall in Hok. apply Hok.
  apply list_elem_of_lookup. exists i. apply lookup_take_Some.
  split; [done|lia].
Qed.

(** A completed batch has its first item in the trace. *)
Lemma batchCompleted_first tr k :
  0 < batchSize config ->
  k < ceilDiv (length items) (batchSize config) ->
  batchCompleted tr k -> EvProcess (k * batchSize config) ∈ tr.
Proof.
  intros HB Hk Hc. apply ceilDiv_lt in Hk; [|done].
  destruct (lookup_lt_is_Some_2 items (k * batchSize config) Hk) as [x Hx].
  apply (Hc _ x); [|done].
  unfold QueueSpec.processedAfter. rewrite Nat.mul_succ_l. lia.
Qed.

Lemma run_shape :
  0 < batchSize config -> validCompletion ->
  exists j tail,
    events theRun = flat_map batchEvents (seq 0 j) ++ tail
    /\ Forall (fun x => isSuccess (process x))
         (take (j * batchSize config) items)
    /\ match exit theRun with
       | Success rs => j = ceilDiv (length items) (batchSize config)
                       /\ tail = [] /\ Forall2 processOK items rs
       | Failure e => j < ceilDiv (length items) (batchSize config)
                      /\ interrupted j e tail
       end.
Proof.
  intros HB Hvalid.
  destruct (batchLoop_shape (ceilDiv (length items) (batchSize config)) 0 []
              HB Hvalid eq_refl) as (j & tail & H); [by rewrite take_0|].
  exists j, tail. apply H.
Qed.

Lemma run_summary :
  0 < batchSize config -> validCompletion ->
  exists m,
    m <= ceilDiv (length items) (batchSize config)
    /\ (isSuccess (exit theRun) ->
        m = ceilDiv (length items) (batchSize config))
    /\ (forall k, k < ceilDiv (length items) (batchSize config) ->
          batchCompleted (events theRun) k <-> k < m)
    /\ progressReports (events theRun)
       = (if onProgress then map progressOf (seq 0 m) else [])
    /\ hookPoints [] (events theRun)
       = (if hookEnabled then map (fun k => (k, completedItems k)) (seq 0 m)
          else []).
Proof.
  intros HB Hvalid.
  destruct (run_shape HB Hvalid) as (j & tail & Hev & Hok & Hex).
  destruct (exit theRun) as [e|rs].
  - destruct Hex as [Hj [(p & i & x & Hp & Hx & Hfail & ->)|
                         (hook & Hab & Hcp & Hhook & Hokj & ->)]].
    + (* a call of [process] failed in batch [j] *)
      exists j. rewrite Hev. split_and!; [lia|done| | |].
      * intros k Hk. split.
        -- intros Hc. destruct (decide (k < j)) as [|Hge]; [done|]. exfalso.
           pose proof (batchCompleted_first _ k HB Hk Hc) as Hfirst.
           apply elem_of_processedIndices in Hfirst.
           rewrite processedIndices_app, processedIndices_batches,
             processedIndices_processEvents, elem_of_app in Hfirst.
           destruct Hfirst as [Hfirst|Hfirst].
           { apply elem_of_batches in Hfirst; [|done|done|lia]. nia. }
           apply list_elem_of_fmap in Hfirst as (i' & Hi' & Hin).
           apply elem_of_take in Hin as (p' & Hin & _).
           apply list_elem_of_lookup_2 in Hin.
           apply (completion_bound j) in Hin; [|done|done|lia].
           assert (k = j) as -> by nia.
           apply lookup_batchOf in Hx as [Hx Hlt].
           destruct (Hc (j * batchSize config + i) x) as [_ Hs]; [lia|done|].
           by rewrite Hfail in Hs.
        -- intros Hlt. apply (batchCompleted_below _ k j Hlt); [|done].
           intros i' Hi'. apply elem_of_processedIndices.
           rewrite processedIndices_app, processedIndices_batches, elem_of_app.
           left. apply elem_of_batches; [done|done|lia|done].
      * rewrite progressReports_app, progressReports_batches,
          progressReports_processEvents. by rewrite app_nil_r.
      * rewrite hookPoints_app, hookPoints_batches,
          hookPoints_processEvents. by rewrite app_nil_r.
    + (* the hook failed after batch [j] *)
      assert (Hidx : processedIndices
                (flat_map batchEvents (seq 0 j)
                 ++ processEvents j (completion j) ++ progressEvents j
                 ++ [EvAfterBatch j])
              = flat_map batchIndices (seq 0 (S j))).
      { rewrite !processedIndices_app, processedIndices_batches,
          processedIndices_processEvents, seq_S, flat_map_app.
        unfold QueueSpec.progressEvents. simpl. destruct onProgress; simpl;
          by rewrite !app_nil_r. }
      assert (Henabled : hookEnabled = true).
      { unfold QueueSpec.hookEnabled. by rewrite Hab. }
      exists (S j). rewrite Hev. split_and!; [lia|done| | |].
      * intros k Hk. split.
        -- intros Hc.
           pose proof (batchCompleted_first _ k HB Hk Hc) as Hfirst.
           apply elem_of_processedIndices in Hfirst. rewrite Hidx in Hfirst.
           apply elem_of_batches in Hfirst; [|done|done|lia]. nia.
        -- intros Hlt. apply (batchCompleted_below _ k (S j) Hlt).
           ++ intros i' Hi'. apply elem_of_processedIndices. rewrite Hidx.
              apply elem_of_batches; [done|done|lia|done].
           ++ rewrite take_next_batch. by apply Forall_app.
      * rewrite !progressReports_app, progressReports_batches,
          progressReports_processEvents.
        unfold QueueSpec.progressEvents. destruct onProgress; [|done].
        by rewrite seq_S, map_app.
      * rewrite hookPoints_app, hookPoints_batches, hookPoints_app,
          hookPoints_processEvents, hookPoints_app, Henabled.
        rewrite processedIndices_batches, processedIndices_processEvents.
        fold (batchIndices j).
        assert (Hpg : hookPoints (([] ++ flat_map batchIndices (seq 0 j))
                                    ++ batchIndices j) (progressEvents j) = []).
        { unfold QueueSpec.progressEvents. by destruct onProgress. }
        assert (Hpi : processedIndices (progressEvents j) = []).
        { unfold QueueSpec.progressEvents. by destruct onProgress. }
        rewrite Hpg, Hpi, seq_S, map_app.
        simpl. unfold QueueSpec.completedItems.
        rewrite (seq_S j), flat_map_app. simpl.
        by rewrite !app_nil_r.
  - destruct Hex as (-> & -> & Hrs). rewrite Hev, app_nil_r.
    exists (ceilDiv (length items) (batchSize config)).
    split_and!; [done|done| | |].
    + intros k Hk. split; [done|]. intros _.
      apply (batchCompleted_below _ k _ Hk); [|done].
      intros i Hi. apply elem_of_processedIndices.
      rewrite processedIndices_batches. by apply elem_of_batches.
    + apply progressReports_batches.
    + apply hookPoints_batches.
Qed.
End QueueLemmas.

(** *** Double precision

    The percentage of a progress report is the rounding of a double.  The
    division and the multiplication of doubles are specified by
    [SpecFloat]: from its rounding to the nearest double follows how far
    the double for [(p / t) * 100] is from the exact quotient, and from
    that, for lengths below [2 ^ 32], that the percentage grows with [p]
    and is 100 when [p = t]. *)

Module DoubleFacts.
Import SpecFloat FloatOps FloatAxioms Uint63.
Import EmbeddingQueue.

Section DoubleRounding.
Local Open Scope Z_scope.























End DoubleRounding.

End DoubleFacts.

Section QueueFacts.
Context {T R E : Type}.
Implicit Types (process : T -> Exit E R) (items : list T)
  (config : EmbeddingQueueConfig) (completion : nat -> list nat).

Lemma concat_batches items config j :
  concat (map (batchOf items config) (seq 0 j))
  = take (j * batchSize config) items.
Proof.
  induction j as [|j IH]; [by rewrite take_0|].
  rewrite seq_S, map_app, concat_app, IH, take_next_batch. simpl.
  by rewrite app_nil_r.
Qed.

Lemma Forall2_processOK_map process (f : T -> R) items rs :
  (forall x, x ∈ items -> process x = Success (f x)) ->
  Forall2 (processOK process) items rs -> rs = map f items.
Proof.
  intros Hf Hrs. induction Hrs as [|x r items rs Hx _ IH]; [done|].
  simpl. unfold QueueSpec.processOK in Hx. rewrite Hf in Hx by left.
  injection Hx as <-. f_equal. apply IH. intros; apply Hf; by right.
Qed.
End QueueFacts.

Section QueueTheorems.
Context {T R E : Type}.

(** Claim C1.  For a batch size [B > 0] and a process that succeeds on the
    items (and a hook that succeeds when called), whatever the concurrency
    limit and the order in which the calls of a batch complete:
    [processInBatches] cuts the [N] items into [ceil (N / B)] consecutive
    batches, all of size [B] but the last, which has [N mod B] items, or [B]
    if that is zero; every item is processed exactly once; and the result
    is the outputs of the items in the order of the input. *)
Theorem processInBatches_partitions_in_order
    (process : T -> Exit E R) (f : T -> R)
    (afterBatch : option (nat -> Exit E unit)) (onProgress : bool)
    (completion : nat -> list nat) (items : list T)
    (config : EmbeddingQueueConfig) :
  0 < batchSize config ->
  validCompletion completion items config ->
  (forall x, x ∈ items -> process x = Success (f x)) ->
  hookSucceeds afterBatch (ceilDiv (length items) (batchSize config)) config ->
  let B := batchSize config in
  let N := length items in
  let nBatches := ceilDiv N B in
  let run := processInBatches process afterBatch onProgress completion
               items config in
  (N <= nBatches * B < N + B)
  /\ concat (map (batchOf items config) (seq 0 nBatches)) = items
  /\ (forall k, S k < nBatches -> length (batchOf items config k) = B)
  /\ (0 < N -> length (batchOf items config (nBatches - 1))
               = if N mod B =? 0 then B else N mod B)
  /\ exit run = Success (map f items)
  /\ processedIndices (events run)
     = flat_map (batchIndices completion config) (seq 0 nBatches)
  /\ processedIndices (events run) ≡ₚ seq 0 N.
Proof.
  intros HB Hvalid Hf Hhook B N nBatches run.
  assert (Hcover : N <= nBatches * B) by (by apply ceilDiv_covers).
  assert (Hlast : 0 < N -> (nBatches - 1) * B < N).
  { intros HN. apply ceilDiv_lt; [done|].
    assert (0 < ceilDiv N B); [apply ceilDiv_lt; lia|]. fold nBatches. lia. }
  assert (Hrun : exit run = Success (map f items)
                 /\ events run
                    = flat_map (batchEvents afterBatch onProgress completion
                                  items config) (seq 0 nBatches)).
  { destruct (run_shape process afterBatch onProgress completion items config
                HB Hvalid) as (j & tail & Hev & Hok & Hex).
    fold run in Hev, Hex. destruct (exit run) as [e|rs].
    - exfalso. destruct Hex as [Hj [(p & i & x & _ & Hx & Hfail & _)|
                                    (hook & Hab & Hcp & Hfail & _)]].
      + apply lookup_batchOf in Hx as [Hx _].
        apply list_elem_of_lookup_2, Hf in Hx. congruence.
      + rewrite (Hhook hook j Hab Hcp Hj) in Hfail. done.
    - destruct Hex as (-> & -> & Hrs). rewrite app_nil_r in Hev.
      split; [|done]. f_equal. by eapply Forall2_processOK_map. }
  destruct Hrun as [Hexit Hev].
  split_and!.
  - done.
  - destruct (decide (0 < N)) as [HN|HN]; [specialize (Hlast HN); nia|].
    destruct (decide (0 < nBatches)) as [Hpos|]; [|lia].
    apply ceilDiv_lt in Hpos; lia.
  - rewrite concat_batches. by apply take_ge.
  - intros k Hk. rewrite length_batchOf. apply ceilDiv_lt in Hk; [|done].
    fold B N. lia.
  - intros HN. rewrite length_batchOf. fold B N. specialize (Hlast HN).
    pose proof (Nat.Div0.div_mod N B) as Hdm.
    pose proof (Nat.mod_upper_bound N B ltac:(lia)) as Hmod.
    assert (Hk : exists k, nBatches = S k).
    { exists (nBatches - 1). assert (0 < nBatches); [|lia].
      apply ceilDiv_lt; lia. }
    destruct Hk as [k Hk]. rewrite Hk in *.
    replace (S k - 1) with k in * by lia.
    destruct (N mod B =? 0) eqn:Hz.
    + apply Nat.eqb_eq in Hz. assert (N / B = S k) by nia. nia.
    + apply Nat.eqb_neq in Hz. assert (N / B = k) by nia. nia.
  - done.
  - by rewrite Hev, processedIndices_batches.
  - rewrite Hev, processedIndices_batches.
    rewrite batches_perm by done. fold B N nBatches. f_equiv. lia.
Qed.

(** Claim C2.  In every run of [processInBatches] with a hook, failing runs
    included: when [checkpointAfterBatch] is set, the hook is called once
    for each completed batch and for no other, in the order of the batches,
    and at the call for batch [k] the items completed are exactly those of
    the batches up to [k] (its own batch is done, the next has not begun);
    on success every batch has its call.  When [checkpointAfterBatch] is
    not set, the hook is never called. *)
Theorem checkpoint_hook_once_per_batch
    (process : T -> Exit E R) (hook : nat -> Exit E unit)
    (onProgress : bool) (completion : nat -> list nat) (items : list T)
    (config : EmbeddingQueueConfig) :
  0 < batchSize config ->
  validCompletion completion items config ->
  let nBatches := ceilDiv (length items) (batchSize config) in
  let run := processInBatches process (Some hook) onProgress completion
               items config in
  let calls := hookPoints [] (events run) in
  if checkpointAfterBatch config then
    exists m,
      m <= nBatches
      /\ (isSuccess (exit run) -> m = nBatches)
      /\ (forall k, k < nBatches ->
            batchCompleted process items config (events run) k <-> k < m)
      /\ map fst calls = seq 0 m
      /\ Forall (fun call =>
           call.2 ≡ₚ seq 0 (processedAfter items config call.1)) calls
  else calls = [].
Proof.
  intros HB Hvalid nBatches run calls.
  destruct (run_summary process (Some hook) onProgress completion items
              config HB Hvalid) as (m & Hm & Hsucc & Hdone & _ & Hcalls).
  fold run in Hsucc, Hdone, Hcalls. fold calls in Hcalls.
  unfold QueueSpec.hookEnabled in Hcalls.
  destruct (checkpointAfterBatch config); [|done].
  exists m. split_and!; [done..| |].
  - rewrite Hcalls, map_map. simpl. apply map_id.
  - rewrite Hcalls, Forall_map, Forall_forall. intros k Hk. simpl.
    apply elem_of_seq in Hk. unfold QueueSpec.completedItems.
    by rewrite batches_perm by (done || lia).
Qed.

End QueueTheorems.

(** *** The cases of the test suite *)

Import QueueSamples.

Example test_processes_all_items :
  exit (processInBatches sampleProcess None false (inOrder 2) [1; 2; 3; 4; 5]
          (testConfig 2 true))
  = Success [2; 4; 6; 8; 10].
Proof. reflexivity. Qed.

Example test_respects_batch_size :
  length (hookPoints [] (events
    (processInBatches sampleProcess (Some sampleHook) false (inOrder 3)
       (seq 1 10) (testConfig 3 true))))
  = 4.
Proof. reflexivity. Qed.

Example test_calls_afterBatch_after_each_batch :
  length (hookPoints [] (events
    (processInBatches sampleProcess (Some sampleHook) false (inOrder 2)
       (seq 1 6) (testConfig 2 true))))
  = 3.
Proof. reflexivity. Qed.

Example test_skips_afterBatch :
  hookPoints [] (events
    (processInBatches sampleProcess (Some sampleHook) false (inOrder 2)
       (seq 1 4) (testConfig 2 false)))
  = [].
Proof. reflexivity. Qed.

Example test_reports_progress_correctly :
  progressReports (events
    (processInBatches sampleProcess None true (inOrder 2) (seq 1 6)
       (testConfig 2 false)))
  = [ {| batch := 1; totalBatches := 3; processed := 2; total := 6;
         percent := 33 |};
      {| batch := 2; totalBatches := 3; processed := 4; total := 6;
         percent := 67 |};
      {| batch := 3; totalBatches := 3; processed := 6; total := 6;
         percent := 100 |} ].
Proof. reflexivity. Qed.

Example test_handles_empty_input :
  processInBatches sampleProcess None false (inOrder 20) []
    DEFAULT_QUEUE_CONFIG
  = ([], Success []).
Proof. reflexivity. Qed.

Example test_handles_single_item :
  exit (processInBatches sampleProcess None false (inOrder 20) [42]
          DEFAULT_QUEUE_CONFIG)
  = Success [84].
Proof. reflexivity. Qed.

Example test_propagates_errors :
  exit (processInBatches boom None false (inOrder 10) [1; 2; 3]
          (testConfig 10 true))
  = Failure "boom".
Proof. reflexivity. Qed.

(** *** Witnesses *)

Lemma sample_validCompletion :
  validCompletion sampleCompletion sampleItems sampleConfig.
Proof.
  intros k Hk. change (k < 3) in Hk.
  destruct k as [|[|[|k]]]; [| | |lia];
    (split; [apply (bool_decide_unpack _); by vm_compute|]);
    intros [|[|p]] i; simpl; intros [= <-]; lia.
Qed.

Lemma processInBatches_partitions_in_order_witness :
  exit (processInBatches sampleProcess (Some sampleHook) true
          sampleCompletion sampleItems sampleConfig)
  = Success [2; 4; 6; 8; 10].
Proof.
  assert (Hf : forall x, x ∈ sampleItems ->
            sampleProcess x = Success ((fun n => n * 2) x)) by done.
  assert (Hhook : hookSucceeds (Some sampleHook)
            (ceilDiv (length sampleItems) (batchSize sampleConfig))
            sampleConfig) by (intros hook k [= <-] _ _; reflexivity).
  assert (HB : 0 < batchSize sampleConfig) by (simpl; lia).
  apply (processInBatches_partitions_in_order sampleProcess (fun n => n * 2)
           (Some sampleHook) true sampleCompletion sampleItems sampleConfig
           HB sample_validCompletion Hf Hhook).
Defined.

Lemma checkpoint_hook_once_per_batch_witness :
  map fst (hookPoints [] (events (processInBatches sampleProcess
             (Some sampleHook) true sampleCompletion sampleItems
             sampleConfig)))
  = [0; 1; 2].
Proof.
  assert (HB : 0 < batchSize sampleConfig) by (simpl; lia).
  pose proof (checkpoint_hook_once_per_batch sampleProcess sampleHook true
                sampleCompletion sampleItems sampleConfig HB
                sample_validCompletion) as H.
  cbv zeta in H. change (checkpointAfterBatch sampleConfig) with true in H.
  destruct H as (m & _ & Hm & _ & Hcalls & _).
  rewrite Hcalls, Hm; [reflexivity|exact I].
Defined.


(** Claim C8, as stated, fails on a run that fails: its last progress
    event is that of the last completed batch.  Here it is the only one,
    for 23 items out of 40, and its percentage is 57, where rounding the
    exact 57.5 gives 58: the double for [(23 / 40) * 100] is just below
    57.5. *)
Lemma progress_stops_short_of_100 :
  exit (processInBatches failsOn30 None true fortyCompletion fortyItems
          fortyConfig)
  = Failure "boom"
  /\ progressReports
       (events (processInBatches failsOn30 None true fortyCompletion
                  fortyItems fortyConfig))
     = [ {| batch := 1; totalBatches := 2; processed := 23; total := 40;
            percent := 57 |} ]
  /\ (200 * 23 + 40) / (2 * 40) = 58.
Proof. by vm_compute. Qed.

(** *** The adaptive batch size *)

(** Claim C7, amended.  When the heap is more than half used the adaptive
    batch size is at least 10; otherwise (or where no heap statistics
    exist) it is the base size, unchanged.  So the result is never below
    the smaller of 10 and the base size. *)
Theorem getAdaptiveBatchSize_floor (memoryUsage : option MemoryUsage)
    (baseBatchSize : nat) :
  let above50 :=
    match memoryUsage with
    | Some mem => heapUsedRatioAbove mem 50
    | None => false
    end in
  (if above50 then 10 <= getAdaptiveBatchSize memoryUsage baseBatchSize
   else getAdaptiveBatchSize memoryUsage baseBatchSize = baseBatchSize)
  /\ Nat.min 10 baseBatchSize <= getAdaptiveBatchSize memoryUsage baseBatchSize.
Proof.
  unfold getAdaptiveBatchSize, heapUsedRatioAbove.
  destruct memoryUsage as [mem|]; cbv zeta; [|split; [done|lia]].
  repeat case_bool_decide; split; lia.
Qed.

(** The test of the suite on a base size of 50, under any memory pressure. *)
Example test_adaptive_size_of_50 (memoryUsage : option MemoryUsage) :
  10 <= getAdaptiveBatchSize memoryUsage 50 <= 50.
Proof.
  unfold getAdaptiveBatchSize. destruct memoryUsage as [mem|]; [|lia].
  repeat case_match; simpl; lia.
Qed.

(** Claim C7, as stated, fails: with a quarter of the heap in use a base
    size of 5 is returned as it is. *)
Lemma getAdaptiveBatchSize_below_floor :
  getAdaptiveBatchSize (Some {| heapUsed := 1; heapTotal := 4 |}) 5 < 10.
Proof. vm_compute. lia. Qed.

(** *** Failures, pauses and the processor *)

Section QueueExtras.
Context {T R E : Type}.
Variable process : T -> Exit E R.
Variable afterBatch : option (nat -> Exit E unit).
Variable onProgress : bool.
Variable completion : nat -> list nat.
Variable items : list T.
Variable config : EmbeddingQueueConfig.

Lemma batchLoop_hooks nBatches remaining : forall batchIdx results rs hook k,
  exit (batchLoop process afterBatch onProgress completion items config
          nBatches remaining batchIdx results) = Success rs ->
  afterBatch = Some hook -> checkpointAfterBatch config = true ->
  batchIdx <= k < batchIdx + remaining -> hook k = Success tt.
Proof.
  induction remaining as [|remaining IH]; intros batchIdx results rs hook k;
    [lia|].
  intros Hexit Hhook Hcp Hk. simpl in Hexit.
  destruct (mapEffectCollect _ _ _ _) as [tr [e|brs]]; [done|].
  rewrite bind_success in Hexit.
  rewrite reportProgress_eq in Hexit. rewrite bind_success in Hexit.
  unfold runAfterBatch in Hexit. rewrite Hhook, Hcp in Hexit.
  unfold emit in Hexit. rewrite !bind_success in Hexit. simpl in Hexit.
  rewrite <- Hhook in Hexit.
  destruct (hook batchIdx) as [e|u] eqn:Hb; [done|].
  destruct (decide (k = batchIdx)) as [->|].
  { destruct u. exact Hb. }
  assert (backpressure (E:=E) config batchIdx nBatches
          = (events (backpressure (E:=E) config batchIdx nBatches),
             Success tt)) as Hbp.
  { unfold backpressure. by destruct (_ && _). }
  rewrite Hbp, bind_success in Hexit.
  destruct (batchLoop _ _ _ _ _ _ _ _ _ _) as [tr'' r] eqn:Hloop.
  simpl in Hexit. subst r.
  eapply (IH (S batchIdx)); [by rewrite Hloop|done|done|lia].
Qed.



Lemma hook_of_batchEvents k k' :
  EvAfterBatch k
    ∈ batchEvents afterBatch onProgress completion items config k' ->
  k = k'.
Proof.
  unfold batchEvents, processEvents, progressEvents, hookEvents, sleepEvents.
  rewrite !elem_of_app. intros [Hk|[Hk|[Hk|Hk]]].
  - apply list_elem_of_fmap in Hk as (? & ? & _). done.
  - destruct onProgress; [|by apply elem_of_nil in Hk].
    by apply list_elem_of_singleton in Hk.
  - destruct (hookEnabled _ _); [|by apply elem_of_nil in Hk].
    apply list_elem_of_singleton in Hk. by injection Hk.
  - destruct (_ && _); [|by apply elem_of_nil in Hk].
    by apply list_elem_of_singleton in Hk.
Qed.


Lemma run_success_inv rs :
  0 < batchSize config ->
  validCompletion completion items config ->
  exit (processInBatches process afterBatch onProgress completion items
          config) = Success rs ->
  Forall2 (processOK process) items rs
  /\ hookSucceeds afterBatch (ceilDiv (length items) (batchSize config))
       config.
Proof.
  intros HB Hvalid Hrun.
  destruct (run_shape process afterBatch onProgress completion items config
              HB Hvalid) as (j & tail & _ & _ & Hexit).
  rewrite Hrun in Hexit. split; [apply Hexit|].
  intros hook k Hhook Hcp Hk.
  eapply batchLoop_hooks; [exact Hrun|done|done|lia].
Qed.

Lemma run_succeeds :
  0 < batchSize config ->
  validCompletion completion items config ->
  Forall (fun x => isSuccess (process x)) items ->
  hookSucceeds afterBatch (ceilDiv (length items) (batchSize config)) config ->
  exists rs,
    exit (processInBatches process afterBatch onProgress completion items
            config) = Success rs.
Proof.
  intros HB Hvalid Hitems Hhooks.
  destruct (run_shape process afterBatch onProgress completion items config
              HB Hvalid) as (j & tail & _ & _ & Hexit).
  destruct (exit _) as [e|rs]; [|by exists rs].
  destruct Hexit as [Hj [(p & i & x & _ & Hx & He & _)
                        |(hook & Hhook & Hcp & He & _)]].
  - apply lookup_batchOf in Hx as [Hx%list_elem_of_lookup_2 _].
    rewrite Forall_forall in Hitems. specialize (Hitems x Hx).
    by rewrite He in Hitems.
  - by rewrite (Hhooks hook j Hhook Hcp Hj) in He.
Qed.










End QueueExtras.

Section QueueExtraTheorems.
Context {T R E : Type}.

(** Property X1.  On the empty input [processInBatches] runs no batch: it
    returns the empty list without calling [process], the hook or the
    progress callback and without pausing, whatever the configuration
    (a batch size of zero included). *)
Theorem processInBatches_empty (process : T -> Exit E R)
    (afterBatch : option (nat -> Exit E unit)) (onProgress : bool)
    (completion : nat -> list nat) (config : EmbeddingQueueConfig) :
  processInBatches process afterBatch onProgress completion [] config
  = ([], Success []).
Proof.
  unfold processInBatches. simpl length.
  assert (ceilDiv 0 (batchSize config) = 0) as ->; [|done].
  unfold ceilDiv. destruct (batchSize config) as [|b]; [done|].
  apply Nat.div_small. lia.
Qed.

(** Property X2.  For a batch size [B > 0], whatever the order in which
    the calls of a batch complete: [processInBatches] succeeds exactly when
    [process] succeeds on every item and every call of the hook succeeds;
    there is no partial result: a result, when there is one, holds the
    output of every item, at the position of the item. *)
Theorem processInBatches_all_or_nothing
    (process : T -> Exit E R) (afterBatch : option (nat -> Exit E unit))
    (onProgress : bool) (completion : nat -> list nat) (items : list T)
    (config : EmbeddingQueueConfig) :
  0 < batchSize config ->
  validCompletion completion items config ->
  let run := processInBatches process afterBatch onProgress completion
               items config in
  (isSuccess (exit run)
   <-> Forall (fun x => isSuccess (process x)) items
       /\ hookSucceeds afterBatch
            (ceilDiv (length items) (batchSize config)) config)
  /\ (forall rs, exit run = Success rs ->
        Forall2 (processOK process) items rs).
Proof.
  intros HB Hvalid run. split; [split|].
  - intros Hs. destruct (exit run) as [e|rs] eqn:Hrun; [done|].
    destruct (run_success_inv process afterBatch onProgress completion items
                config rs HB Hvalid Hrun) as [Hrs Hhooks].
    split; [|done]. eapply processOK_isSuccess, Hrs.
  - intros [Hitems Hhooks].
    destruct (run_succeeds process afterBatch onProgress completion items
                config HB Hvalid Hitems Hhooks) as [rs Hrs].
    unfold run. by rewrite Hrs.
  - intros rs Hrun.
    by apply (run_success_inv process afterBatch onProgress completion items
                config rs HB Hvalid).
Qed.

(** Property X3.  A failure stops the run at once. For a batch size
    [B > 0], when [processInBatches] fails with [e], the last thing it did
    is the call that failed with [e] (of [process] on an item of some batch
    [j], or of the hook after batch [j]); every item of the batches before
    [j] has been processed, no item of a later batch has, and the hook has
    not run for a later batch. *)
Theorem processInBatches_stops_at_failure
    (process : T -> Exit E R) (afterBatch : option (nat -> Exit E unit))
    (onProgress : bool) (completion : nat -> list nat) (items : list T)
    (config : EmbeddingQueueConfig) (e : E) :
  0 < batchSize config ->
  validCompletion completion items config ->
  let run := processInBatches process afterBatch onProgress completion
               items config in
  exit run = Failure e ->
  exists j,
    j < ceilDiv (length items) (batchSize config)
    /\ ((exists i x,
           items !! i = Some x /\ process x = Failure e
           /\ j * batchSize config <= i < processedAfter items config j
           /\ last (events run) = Some (EvProcess i))
        \/ (exists hook,
              afterBatch = Some hook /\ checkpointAfterBatch config = true
              /\ hook j = Failure e
              /\ last (events run) = Some (EvAfterBatch j)))
    /\ (forall i, EvProcess i ∈ events run ->
          i < processedAfter items config j)
    /\ (forall i, i < j * batchSize config -> EvProcess i ∈ events run)
    /\ (forall k, EvAfterBatch k ∈ events run -> k <= j).
Proof.
  intros HB Hvalid run Hrun.
  destruct (run_shape process afterBatch onProgress completion items config
              HB Hvalid) as (j & tail & Hev & Hok & Hexit).
  fold run in Hev, Hexit. rewrite Hrun in Hexit. destruct Hexit as [Hj Hint].
  exists j. split; [done|].
  assert (forall i, i ∈ completion j ->
            j * batchSize config + i < processedAfter items config j) as Hin.
  { intros i Hi. destruct (Hvalid j Hj) as [Hperm _].
    rewrite Hperm, elem_of_seq, length_batchOf in Hi.
    unfold processedAfter. apply ceilDiv_lt in Hj; [|done]. lia. }
  assert (processedIndices (events run)
          = flat_map (batchIndices completion config) (seq 0 j)
              ++ processedIndices tail) as Hproc.
  { by rewrite Hev, processedIndices_app, processedIndices_batches. }
  assert (j * batchSize config < length items) as HjN.
  { by apply ceilDiv_lt in Hj. }
  split; [|split; [|split]].
  - destruct Hint as [(p & i & x & Hp & Hx & He & ->)
                     |(hook & Hhook & Hcp & He & _ & ->)].
    + left. exists (j * batchSize config + i), x.
      apply lookup_batchOf in Hx as [Hx Hi].
      split; [done|]. split; [done|]. split; [lia|].
      rewrite Hev. unfold processEvents.
      rewrite (take_S_r _ _ _ Hp), map_app. simpl.
      by rewrite app_assoc, last_snoc.
    + right. exists hook. repeat (split; [done|]).
      by rewrite Hev, !app_assoc, last_snoc.
  - intros i Hi%(elem_of_processedIndices completion). rewrite Hproc in Hi.
    apply elem_of_app in Hi as [Hi|Hi].
    + apply (elem_of_batches completion items config j i HB Hvalid) in Hi;
        [|lia].
      unfold processedAfter. lia.
    + destruct Hint as [(p & i' & x & _ & _ & _ & ->)
                       |(hook & _ & _ & _ & _ & ->)].
      * rewrite processedIndices_processEvents in Hi.
        apply list_elem_of_fmap in Hi as (i0 & -> & Hi0).
        apply Hin. apply elem_of_take in Hi0 as (n & Hn & _).
        by eapply list_elem_of_lookup_2.
      * rewrite !processedIndices_app, processedIndices_processEvents in Hi.
        unfold progressEvents in Hi. 
        assert (i ∈ map (fun i => j * batchSize config + i) (completion j))
          as Hi'.
        { destruct onProgress; simpl in Hi; by rewrite ?app_nil_r in Hi. }
        apply list_elem_of_fmap in Hi' as (i0 & -> & Hi0). by apply Hin.
  - intros i Hi. apply (elem_of_processedIndices completion). rewrite Hproc.
    apply elem_of_app. left.
    apply (elem_of_batches completion items config j i HB Hvalid); lia.
  - intros k. rewrite Hev, elem_of_app. intros [Hk|Hk].
    + apply list_elem_of_In, in_flat_map in Hk
        as (k' & Hk'%list_elem_of_In & Hk).
      apply elem_of_seq in Hk'. apply list_elem_of_In in Hk.
      apply hook_of_batchEvents in Hk. lia.
    + destruct Hint as [(p & i' & x & _ & _ & _ & ->)
                       |(hook & _ & _ & _ & _ & ->)].
      * apply list_elem_of_fmap in Hk as (? & ? & _). done.
      * rewrite !elem_of_app in Hk. destruct Hk as [Hk|[Hk|Hk]].
        -- apply list_elem_of_fmap in Hk as (? & ? & _). done.
        -- unfold progressEvents in Hk. destruct onProgress.
           ++ apply list_elem_of_singleton in Hk. done.
           ++ by apply elem_of_nil in Hk.
        -- apply list_elem_of_singleton in Hk. injection Hk. lia.
Qed.


End QueueExtraTheorems.

Lemma ceilDiv_antitone n b b' :
  0 < b -> b <= b' -> ceilDiv n b' <= ceilDiv n b.
Proof.
  intros Hb Hbb'. destruct (ceilDiv n b') as [|c'] eqn:Hc'; [lia|].
  assert (c' < ceilDiv n b') as Hlt by lia.
  apply ceilDiv_lt in Hlt; [|lia].
  assert (c' < ceilDiv n b); [|lia]. apply ceilDiv_lt; [done|]. nia.
Qed.

Lemma heapUsedRatioAbove_mono mem1 mem2 pct :
  pressureLe mem1 mem2 ->
  heapUsedRatioAbove mem1 pct = true -> heapUsedRatioAbove mem2 pct = true.
Proof.
  intros (H1 & H2 & Hle). unfold heapUsedRatioAbove.
  rewrite !bool_decide_eq_true. nia.
Qed.

(** Property X5.  The adapted batch size never exceeds the larger of 10
    and the base size, and a larger base size never gives a smaller
    adapted size. *)
Theorem getAdaptiveBatchSize_upper_bound (memoryUsage : option MemoryUsage)
    (baseBatchSize : nat) :
  getAdaptiveBatchSize memoryUsage baseBatchSize <= Nat.max 10 baseBatchSize
  /\ (forall larger, baseBatchSize <= larger ->
        getAdaptiveBatchSize memoryUsage baseBatchSize
        <= getAdaptiveBatchSize memoryUsage larger).
Proof.
  unfold getAdaptiveBatchSize. split.
  - destruct memoryUsage as [mem|]; [|lia].
    pose proof (Nat.Div0.div_le_upper_bound baseBatchSize 4 baseBatchSize).
    pose proof (Nat.Div0.div_le_upper_bound baseBatchSize 2 baseBatchSize).
    pose proof (Nat.Div0.div_le_upper_bound (3 * baseBatchSize) 4
                  baseBatchSize).
    repeat case_match; lia.
  - intros larger Hle. destruct memoryUsage as [mem|]; [|lia].
    pose proof (Nat.Div0.div_le_mono baseBatchSize larger 4 Hle).
    pose proof (Nat.Div0.div_le_mono baseBatchSize larger 2 Hle).
    pose proof (Nat.Div0.div_le_mono (3 * baseBatchSize) (3 * larger) 4).
    repeat case_match; lia.
Qed.

(** Property X6.  For a base size of at least 10 the adapted size lies
    between 10 and the base size, and a fuller heap never gives a larger
    batch. *)
Theorem getAdaptiveBatchSize_antitone (mem1 mem2 : MemoryUsage)
    (baseBatchSize : nat) :
  pressureLe mem1 mem2 ->
  10 <= baseBatchSize ->
  10 <= getAdaptiveBatchSize (Some mem2) baseBatchSize
  /\ getAdaptiveBatchSize (Some mem2) baseBatchSize
     <= getAdaptiveBatchSize (Some mem1) baseBatchSize
  /\ getAdaptiveBatchSize (Some mem1) baseBatchSize <= baseBatchSize.
Proof.
  intros Hle Hbase. unfold getAdaptiveBatchSize.
  pose proof (heapUsedRatioAbove_mono mem1 mem2 85 Hle).
  pose proof (heapUsedRatioAbove_mono mem1 mem2 70 Hle).
  pose proof (heapUsedRatioAbove_mono mem1 mem2 50 Hle).
  pose proof (Nat.Div0.div_le_upper_bound baseBatchSize 4 baseBatchSize).
  pose proof (Nat.Div0.div_le_upper_bound baseBatchSize 2 baseBatchSize).
  pose proof (Nat.Div0.div_le_upper_bound (3 * baseBatchSize) 4
                baseBatchSize).
  pose proof (Nat.Div0.div_le_mono baseBatchSize (2 * baseBatchSize) 4).
  pose proof (Nat.Div0.div_le_mono (2 * baseBatchSize) (3 * baseBatchSize) 4).
  assert (2 * baseBatchSize / 4 = baseBatchSize / 2) as Hhalf.
  { replace (2 * baseBatchSize) with (baseBatchSize * 2) by lia.
    change 4 with (2 * 2). rewrite <- Nat.Div0.div_div.
    by rewrite Nat.div_mul. }
  destruct (heapUsedRatioAbove mem1 85) eqn:H185,
    (heapUsedRatioAbove mem1 70) eqn:H170,
    (heapUsedRatioAbove mem1 50) eqn:H150,
    (heapUsedRatioAbove mem2 85) eqn:H285,
    (heapUsedRatioAbove mem2 70) eqn:H270,
    (heapUsedRatioAbove mem2 50) eqn:H250;
    try (exfalso; auto; fail); try lia.
Qed.

Lemma effectiveBatchSize_bounds fullConfig memoryUsage :
  Nat.min 10 (batchSize fullConfig)
  <= effectiveBatchSize fullConfig memoryUsage
  <= Nat.max 10 (batchSize fullConfig).
Proof.
  unfold effectiveBatchSize, getAdaptiveBatchSize.
  pose proof (Nat.Div0.div_le_upper_bound (batchSize fullConfig) 4
                (batchSize fullConfig)).
  pose proof (Nat.Div0.div_le_upper_bound (batchSize fullConfig) 2
                (batchSize fullConfig)).
  pose proof (Nat.Div0.div_le_upper_bound (3 * batchSize fullConfig) 4
                (batchSize fullConfig)).
  repeat case_match; lia.
Qed.

(** Property X7.  [createEmbeddingProcessor (...).embedBatch] with a
    positive base size, an embedding function that succeeds on the texts
    and a checkpoint that succeeds: the result is the embeddings of the
    texts in their order, and the checkpoint runs once after each of the
    [ceil (N / size)] batches (never, when [checkpointAfterBatch] is off),
    where [size], the adapted batch size, lies between [min 10 base] and
    [max 10 base]. *)
Theorem embedBatch_checkpoints {E : Type}
    (embedFn : string -> Exit E (list float)) (f : string -> list float)
    (checkpointFn : nat -> Exit E unit) (fullConfig : EmbeddingQueueConfig)
    (memoryUsage : option MemoryUsage) (completion : nat -> list nat)
    (texts : list string) (onProgress : bool) :
  let size := effectiveBatchSize fullConfig memoryUsage in
  let run := EmbeddingQueue.embedBatch embedFn checkpointFn fullConfig
               memoryUsage completion texts onProgress in
  0 < batchSize fullConfig ->
  validCompletion completion texts (withBatchSize fullConfig size) ->
  (forall text, text ∈ texts -> embedFn text = Success (f text)) ->
  (forall k, checkpointFn k = Success tt) ->
  exit run = Success (map f texts)
  /\ map fst (hookPoints [] (events run))
     = (if checkpointAfterBatch fullConfig
        then seq 0 (ceilDiv (length texts) size) else [])
  /\ Nat.min 10 (batchSize fullConfig) <= size
     <= Nat.max 10 (batchSize fullConfig)
  /\ ceilDiv (length texts) (Nat.max 10 (batchSize fullConfig))
     <= ceilDiv (length texts) size
     <= ceilDiv (length texts) (Nat.min 10 (batchSize fullConfig)).
Proof.
  intros size run HB Hvalid Hf Hcheckpoint.
  pose proof (effectiveBatchSize_bounds fullConfig memoryUsage) as Hsize.
  fold size in Hsize.
  assert (0 < batchSize (withBatchSize fullConfig size)) as HB'.
  { simpl. lia. }
  change run with (processInBatches embedFn (Some checkpointFn) onProgress
                     completion texts (withBatchSize fullConfig size)).
  destruct (run_succeeds embedFn (Some checkpointFn) onProgress completion
              texts (withBatchSize fullConfig size) HB' Hvalid) as [rs Hrs].
  { apply Forall_forall. intros text Htext. by rewrite Hf. }
  { intros hook k [= <-] _ _. apply Hcheckpoint. }
  destruct (run_success_inv embedFn (Some checkpointFn) onProgress completion
              texts (withBatchSize fullConfig size) rs HB' Hvalid Hrs)
    as [Hok _].
  split; [|split; [|split; [done|]]].
  - rewrite Hrs. f_equal. by eapply Forall2_processOK_map.
  - destruct (run_summary embedFn (Some checkpointFn) onProgress completion
                texts (withBatchSize fullConfig size) HB' Hvalid)
      as (m & _ & Hm & _ & _ & Hhooks).
    rewrite Hhooks. unfold hookEnabled. simpl.
    destruct (checkpointAfterBatch fullConfig); [|done].
    rewrite Hm by (by rewrite Hrs). rewrite map_map. simpl.
    apply map_id.
  - split; apply ceilDiv_antitone; lia.
Qed.

(** *** One call at a time *)

Lemma validOrder_one n order : validOrder 1 n order -> order = seq 0 n.
Proof.
  intros [Hperm Hbound].
  assert (length order = n) as Hlen.
  { apply Permutation_length in Hperm. by rewrite length_seq in Hperm. }
  assert (NoDup order) as Hnodup.
  { rewrite Hperm. apply NoDup_seq. }
  assert (forall p, p < n -> order !! p = Some p) as Hid.
  { intros p. induction p as [p IH] using lt_wf_ind. intros Hp.
    destruct (lookup_lt_is_Some_2 order p) as [i Hi]; [lia|].
    pose proof (Hbound p i Hi) as Hip.
    destruct (decide (i = p)) as [->|Hne]; [done|].
    assert (i < p) as Hlt by lia.
    pose proof (IH i Hlt ltac:(lia)) as Hi'.
    pose proof (NoDup_lookup order p i i Hnodup Hi Hi'). lia. }
  apply list_eq. intros p. destruct (decide (p < n)) as [Hp|Hp].
  - by rewrite Hid, lookup_seq_lt.
  - rewrite !lookup_ge_None_2; [done|rewrite length_seq; lia|lia].
Qed.

Lemma map_add_seq a n : map (fun i => a + i) (seq 0 n) = seq a n.
Proof. etrans; [apply (fmap_add_seq a 0 n)|]. by rewrite Nat.add_0_r. Qed.

Section Sequential.
Context {T R E : Type}.
Variable process : T -> Exit E R.
Variable afterBatch : option (nat -> Exit E unit).
Variable onProgress : bool.
Variable completion : nat -> list nat.
Variable items : list T.
Variable config : EmbeddingQueueConfig.
Hypothesis HB : 0 < batchSize config.
Hypothesis Hone : concurrency config = 1.
Hypothesis Hvalid : validCompletion completion items config.

Lemma completion_in_order k :
  k < ceilDiv (length items) (batchSize config) ->
  completion k = seq 0 (length (batchOf items config k)).
Proof.
  intros Hk. apply validOrder_one. rewrite <- Hone. by apply Hvalid.
Qed.

Lemma batchIndices_in_order k :
  k < ceilDiv (length items) (batchSize config) ->
  batchIndices completion config k
  = seq (k * batchSize config)
      (processedAfter items config k - k * batchSize config).
Proof.
  intros Hk. unfold batchIndices. rewrite completion_in_order by done.
  rewrite length_batchOf, map_add_seq. f_equal. unfold processedAfter.
  apply ceilDiv_lt in Hk; [|done]. lia.
Qed.

Lemma batches_in_order j :
  j <= ceilDiv (length items) (batchSize config) ->
  flat_map (batchIndices completion config) (seq 0 j)
  = seq 0 (Nat.min (j * batchSize config) (length items)).
Proof.
  induction j as [|j IH]; intros Hj; [done|].
  rewrite seq_S, flat_map_app, IH by lia. simpl flat_map.
  rewrite app_nil_r, batchIndices_in_order by lia.
  assert (j < ceilDiv (length items) (batchSize config)) as Hlt by lia.
  apply ceilDiv_lt in Hlt; [|done].
  replace (Nat.min (j * batchSize config) (length items))
    with (j * batchSize config) by lia.
  rewrite <- (seq_app (j * batchSize config)). f_equal.
  unfold processedAfter. lia.
Qed.

End Sequential.

(** Property X26.  With a concurrency of one the items are processed one
    at a time, in the order of the input: for a batch size [B > 0] the
    calls of every batch complete in the order of the batch, and the items
    processed by a run are the first [n] of the input, in that order, all
    of them when the run succeeds. *)
Theorem sequential_when_concurrency_one {T R E : Type}
    (process : T -> Exit E R) (afterBatch : option (nat -> Exit E unit))
    (onProgress : bool) (completion : nat -> list nat) (items : list T)
    (config : EmbeddingQueueConfig) :
  0 < batchSize config ->
  concurrency config = 1 ->
  validCompletion completion items config ->
  let run := processInBatches process afterBatch onProgress completion
               items config in
  (forall k, k < ceilDiv (length items) (batchSize config) ->
     completion k = seq 0 (length (batchOf items config k)))
  /\ exists n,
       n <= length items
       /\ processedIndices (events run) = seq 0 n
       /\ (isSuccess (exit run) -> n = length items).
Proof.
  intros HB Hone Hvalid run.
  split; [by apply completion_in_order|].
  destruct (run_shape process afterBatch onProgress completion items config
              HB Hvalid) as (j & tail & Hev & _ & Hexit).
  fold run in Hev, Hexit.
  assert (processedIndices (events run)
          = flat_map (batchIndices completion config) (seq 0 j)
              ++ processedIndices tail) as Hproc.
  { by rewrite Hev, processedIndices_app, processedIndices_batches. }
  rewrite Hproc.
  destruct (exit run) as [e|rs].
  - destruct Hexit as [Hj Hint].
    rewrite (batches_in_order completion items config HB Hone Hvalid) by lia.
    pose proof Hj as HjN. apply ceilDiv_lt in HjN; [|done].
    replace (Nat.min (j * batchSize config) (length items))
      with (j * batchSize config) by lia.
    destruct Hint as [(p & i & x & Hp & Hx & He & ->)
                     |(hook & Hhook & Hcp & He & _ & ->)].
    + rewrite (completion_in_order completion items config Hone Hvalid)
        in Hp by done.
      apply lookup_seq in Hp as [Hi Hp]. simpl in Hi. subst i.
      rewrite processedIndices_processEvents.
      rewrite (completion_in_order completion items config Hone Hvalid)
        by done.
      rewrite take_seq. replace (Nat.min (S p) _) with (S p) by lia.
      rewrite map_add_seq, <- seq_app. exists (j * batchSize config + S p).
      apply lookup_batchOf in Hx as [Hx Hbound]. unfold processedAfter in *.
      split_and!; [lia|done|done].
    + rewrite !processedIndices_app, processedIndices_processEvents.
      assert (processedIndices (progressEvents onProgress items config j)
              = []) as ->.
      { unfold progressEvents. by destruct onProgress. }
      simpl. rewrite app_nil_r.
      fold (batchIndices completion config j).
      rewrite (batchIndices_in_order completion items config HB Hone Hvalid)
        by done.
      rewrite <- seq_app. eexists. split_and!; [|done|done].
      unfold processedAfter. lia.
  - destruct Hexit as (-> & -> & _). simpl. rewrite app_nil_r.
    rewrite (batches_in_order completion items config HB Hone Hvalid) by lia.
    exists (length items). pose proof (ceilDiv_covers (length items) _ HB).
    split_and!; [lia|f_equal; lia|done].
Qed.

(** *** Witnesses of the properties above *)

Lemma sample_validCompletion_of {T} (items : list T) :
  length items = 5 -> validCompletion sampleCompletion items sampleConfig.
Proof.
  intros Hlen k Hk. unfold batchOf, slice. rewrite length_take, length_drop.
  rewrite Hlen in *. change (k < 3) in Hk.
  destruct k as [|[|[|k]]]; [| | |lia];
    (split; [apply (bool_decide_unpack _); by vm_compute|]);
    intros [|[|p]] i; simpl; intros [= <-]; lia.
Qed.

Lemma processInBatches_all_or_nothing_witness :
  isSuccess (exit (processInBatches sampleProcess (Some sampleHook) true
                     sampleCompletion sampleItems sampleConfig)).
Proof.
  assert (HB : 0 < batchSize sampleConfig) by (simpl; lia).
  destruct (processInBatches_all_or_nothing sampleProcess (Some sampleHook)
              true sampleCompletion sampleItems sampleConfig HB
              sample_validCompletion) as [[_ H] _].
  apply H. split; [by repeat constructor|].
  intros hook k [= <-] _ _. reflexivity.
Defined.

Lemma processInBatches_stops_at_failure_witness :
  exists j,
    j < 3
    /\ forall i,
         EvProcess i ∈ events (processInBatches boom (Some sampleHook) true
                                 sampleCompletion sampleItems sampleConfig) ->
         i < processedAfter sampleItems sampleConfig j.
Proof.
  assert (HB : 0 < batchSize sampleConfig) by (simpl; lia).
  destruct (processInBatches_stops_at_failure boom (Some sampleHook) true
              sampleCompletion sampleItems sampleConfig "boom" HB
              sample_validCompletion eq_refl) as (j & Hj & _ & Hproc & _).
  exists j. split; [exact Hj|exact Hproc].
Defined.


Lemma getAdaptiveBatchSize_antitone_witness :
  10 <= getAdaptiveBatchSize (Some {| heapUsed := 9; heapTotal := 10 |}) 50
  /\ getAdaptiveBatchSize (Some {| heapUsed := 9; heapTotal := 10 |}) 50
     <= getAdaptiveBatchSize (Some {| heapUsed := 1; heapTotal := 4 |}) 50
  /\ getAdaptiveBatchSize (Some {| heapUsed := 1; heapTotal := 4 |}) 50 <= 50.
Proof.
  apply (getAdaptiveBatchSize_antitone {| heapUsed := 1; heapTotal := 4 |}
           {| heapUsed := 9; heapTotal := 10 |} 50).
  - unfold pressureLe. simpl. lia.
  - lia.
Defined.

Lemma embedBatch_checkpoints_witness :
  map fst (hookPoints [] (events
    (EmbeddingQueue.embedBatch (E:=string) (fun _ => Success [1%float])
       (fun _ => Success tt) sampleConfig None sampleCompletion
       ["a"; "b"; "c"; "d"; "e"] false)))
  = [0; 1; 2].
Proof.
  assert (HB : 0 < batchSize sampleConfig) by (simpl; lia).
  apply (embedBatch_checkpoints (E:=string) (fun _ => Success [1%float])
           (fun _ => [1%float]) (fun _ => Success tt) sampleConfig None
           sampleCompletion ["a"; "b"; "c"; "d"; "e"] false HB).
  - by apply (sample_validCompletion_of ["a"; "b"; "c"; "d"; "e"]).
  - done.
  - done.
Defined.

Lemma inOrder_validCompletion :
  validCompletion (inOrder 2) [1; 2; 3; 4] (testConfig 2 true).
Proof.
  intros k Hk. change (k < 2) in Hk.
  destruct k as [|[|k]]; [| |lia];
    (split; [apply (bool_decide_unpack _); by vm_compute|]);
    intros [|[|p]] i; simpl; intros [= <-]; lia.
Qed.

Lemma sequential_when_concurrency_one_witness :
  processedIndices
    (events (processInBatches sampleProcess (Some sampleHook) true
               (inOrder 2) [1; 2; 3; 4] (testConfig 2 true)))
  = [0; 1; 2; 3].
Proof.
  assert (HB : 0 < batchSize (testConfig 2 true)) by (simpl; lia).
  destruct (sequential_when_concurrency_one sampleProcess (Some sampleHook)
              true (inOrder 2) [1; 2; 3; 4] (testConfig 2 true) HB eq_refl
              inOrder_validCompletion) as [_ (n & _ & Hproc & Hn)].
  rewrite Hproc, Hn; [reflexivity|exact I].
Defined.

(** ** The embedding client *)

Import Ollama OllamaSpec OllamaSamples.

Lemma validateEmbedding_Success v v' :
  validateEmbedding v = Success v' -> v' = v /\ validEmbedding v.
Proof.
  unfold validateEmbedding, validEmbedding.
  destruct (length v =? 0) eqn:H0; [done|].
  destruct (length v =? EXPECTED_EMBEDDING_DIMENSION) eqn:Hdim; [|done].
  destruct (existsb _ v) eqn:Hfin; [done|]. simpl.
  intros [= <-]. split; [done|]. split; [by apply Nat.eqb_eq|].
  apply Forall_forall. intros x Hx.
  destruct (PrimFloat.is_finite x) eqn:Hx'; [done|].
  assert (existsb (fun v => negb (PrimFloat.is_finite v)) v = true);
    [|congruence].
  apply existsb_exists. exists x. split; [by apply list_elem_of_In|].
  by rewrite Hx'.
Qed.

Lemma validateEmbedding_invalid v :
  invalidEmbedding v ->
  exists e, validateEmbedding v = Failure e /\ isValidationError e.
Proof.
  unfold validateEmbedding, isValidationError. intros Hinv.
  destruct (length v =? 0) eqn:H0; [by eexists|].
  destruct (length v =? EXPECTED_EMBEDDING_DIMENSION) eqn:Hdim; [|by eexists].
  destruct (existsb _ v) eqn:Hfin; [by eexists|]. exfalso.
  apply Nat.eqb_neq in H0. apply Nat.eqb_eq in Hdim.
  destruct Hinv as [?|[?|Hex]]; [done..|].
  apply Exists_exists in Hex as (x & Hx & Hx').
  assert (existsb (fun v => negb (PrimFloat.is_finite v)) v = true);
    [|congruence].
  apply existsb_exists. exists x. split; [by apply list_elem_of_In|].
  by rewrite Hx'.
Qed.

Lemma valid_not_invalid v : validEmbedding v -> ~ invalidEmbedding v.
Proof.
  intros [Hlen Hfin] [H0|[Hdim|Hex]].
  - rewrite Hlen in H0. discriminate.
  - done.
  - apply Exists_exists in Hex as (x & Hx & Hx').
    rewrite Forall_forall in Hfin. specialize (Hfin x Hx). congruence.
Qed.

(** The course of a call of [embed]: [k] retries, each after a failure. *)
Lemma embedSingle_attempts responses text :
  exists k,
    k <= 3
    /\ (forall i, i < k -> isFailure (embedAttempt (responses i)))
    /\ (k < 3 -> isSuccess (embedAttempt (responses k)))
    /\ exit (embedSingle responses text) = embedAttempt (responses k)
    /\ events (embedSingle responses text) = attemptsTrace text k.
Proof.
  unfold embedSingle, retryPolicy, recurs, exponential. simpl.
  destruct (embedAttempt (responses 0)) as [e0|v0] eqn:H0.
  2:{ exists 0. rewrite H0. split_and!; [lia|intros; lia|done..]. }
  destruct (embedAttempt (responses 1)) as [e1|v1] eqn:H1.
  2:{ exists 1. rewrite H1. split_and!; [lia| |done..].
      intros [|i] ?; [by rewrite H0|lia]. }
  destruct (embedAttempt (responses 2)) as [e2|v2] eqn:H2.
  2:{ exists 2. rewrite H2. split_and!; [lia| |done..].
      intros [|[|i]] ?; [by rewrite H0|by rewrite H1|lia]. }
  exists 3. split_and!; [lia| |lia| |].
  - intros [|[|[|i]]] ?; [by rewrite H0|by rewrite H1|by rewrite H2|lia].
  - by destruct (embedAttempt (responses 3)).
  - by destruct (embedAttempt (responses 3)).
Qed.

(** Claim C3, amended.  A vector of dimension zero, of a dimension other than
    1024, or with a value that is not finite makes [validateEmbedding], and
    the attempt of [embed] that received it, fail with an [OllamaError]
    that says so, and the attempt is made again while the retry policy
    allows.  When the last attempt of a call received such a vector, the
    call fails with that error (and was the fourth attempt); so it does
    when the service answers nothing but such vectors.  Whatever the
    service answers, a vector that [embed] returns has passed the
    validation. *)
Theorem embedding_validation_choke_point
    (responses : nat -> EmbeddingResponse) (text : string) :
  (forall v, invalidEmbedding v ->
     exists e, validateEmbedding v = Failure e /\ isValidationError e
               /\ embedAttempt (Json v) = Failure e)
  /\ (forall v, exit (embedSingle responses text) = Success v ->
        validEmbedding v /\ ~ invalidEmbedding v)
  /\ (exists k,
        events (embedSingle responses text) = attemptsTrace text k
        /\ forall v, responses k = Json v -> invalidEmbedding v ->
             k = 3
             /\ exists e, exit (embedSingle responses text) = Failure e
                          /\ isValidationError e)
  /\ ((forall n, n <= 3 ->
         exists v, responses n = Json v /\ invalidEmbedding v) ->
      exists e, exit (embedSingle responses text) = Failure e
                /\ isValidationError e).
Proof.
  split_and!.
  - intros v Hv. destruct (validateEmbedding_invalid v Hv) as (e & He & Hval).
    by exists e.
  - intros v Hv.
    destruct (embedSingle_attempts responses text)
      as (k & _ & _ & _ & Hex & _).
    rewrite Hex in Hv. destruct (responses k) as [?|[?|]| |v']; try done.
    simpl in Hv. apply validateEmbedding_Success in Hv as [-> Hvalid].
    split; [done|by apply valid_not_invalid].
  - destruct (embedSingle_attempts responses text)
      as (k & Hk & _ & Hlast & Hex & Hev).
    exists k. split; [done|]. intros v Hv Hinv.
    destruct (validateEmbedding_invalid v Hinv) as (e & He & Hval).
    assert (Hfail : embedAttempt (responses k) = Failure e) by by rewrite Hv.
    split.
    + destruct (decide (k < 3)) as [Hlt|]; [|lia].
      specialize (Hlast Hlt). by rewrite Hfail in Hlast.
    + exists e. by rewrite Hex.
  - intros Hall.
    destruct (embedSingle_attempts responses text)
      as (k & Hk & _ & _ & Hex & _).
    destruct (Hall k Hk) as (v & Hv & Hinv).
    destruct (validateEmbedding_invalid v Hinv) as (e & He & Hval).
    exists e. by rewrite Hex, Hv.
Qed.

(** Claim C3, as stated, fails: the service returns a vector that holds an
    infinity, and [embed] does not fail; the second attempt returns the
    vector of the second response. *)
Lemma embed_succeeds_after_invalid_vector :
  infiniteThenGood 0 = Json infiniteVector
  /\ existsb (fun x => negb (PrimFloat.is_finite x)) infiniteVector = true
  /\ exit (embedSingle infiniteThenGood "text") = Success sampleVector.
Proof. by vm_compute. Qed.

(** Claim C4, amended.  [embed] runs its attempt (the request and the
    validation of the response) again after every failure, a validation
    failure included: at most 3 retries, after delays of 100, 200 and 400
    ms.  Its result is that of the first attempt that succeeds, or the
    failure of the fourth. *)
Theorem embed_retries_every_failure
    (responses : nat -> EmbeddingResponse) (text : string) :
  exists k,
    k <= 3
    /\ (forall i, i < k -> isFailure (embedAttempt (responses i)))
    /\ (k < 3 -> isSuccess (embedAttempt (responses k)))
    /\ (forall i v, i <= k -> i < 3 -> responses i = Json v ->
          invalidEmbedding v -> i < k)
    /\ exit (embedSingle responses text) = embedAttempt (responses k)
    /\ events (embedSingle responses text) = attemptsTrace text k.
Proof.
  destruct (embedSingle_attempts responses text)
    as (k & Hk & Hfail & Hlast & Hexit & Hevents).
  exists k. split_and!; [done..| |done|done].
  intros i v Hi Hi3 Hv Hinv.
  destruct (decide (i < k)) as [|Hge]; [done|]. exfalso.
  assert (i = k) as -> by lia.
  destruct (validateEmbedding_invalid v Hinv) as (e & He & _).
  specialize (Hlast Hi3). rewrite Hv in Hlast. simpl in Hlast.
  by rewrite He in Hlast.
Qed.

(** Claim C4, as stated, fails: an empty vector fails the validation, and
    [embed] tries again 100 ms later and returns the vector of the second
    response. *)
Lemma embed_retries_validation_failure :
  isFailure (validateEmbedding [])
  /\ embedSingle sampleResponses "text"
     = ([EvFetch "text" 0; EvSleep 100; EvFetch "text" 1],
        Success sampleVector).
Proof. split; [exact I|]. by vm_compute. Qed.

(** *** The outcome and the cost of a call, batches, health *)

Lemma embedAttempt_Success response v :
  embedAttempt response = Success v
  <-> response = Json v /\ validEmbedding v.
Proof.
  split.
  - destruct response as [e|[body|]| |v']; simpl; try done.
    by intros [-> ?]%validateEmbedding_Success.
  - intros [-> [Hlen Hfin]]. simpl. unfold validateEmbedding.
    rewrite Hlen. simpl.
    destruct (existsb _ v) eqn:Hex; [|done].
    apply existsb_exists in Hex as (x & Hx%list_elem_of_In & Hx').
    rewrite Forall_forall in Hfin. by rewrite (Hfin x Hx) in Hx'.
Qed.

(** Property X8.  [embed] returns the vector of the first response, among
    the first four, that is a valid vector, all the attempts before it
    having failed; it fails exactly when the four attempts fail, with the
    error of the fourth. *)
Theorem embedSingle_first_valid
    (responses : nat -> EmbeddingResponse) (text : string) :
  (forall v,
     exit (embedSingle responses text) = Success v
     <-> exists k,
           k <= 3 /\ responses k = Json v /\ validEmbedding v
           /\ forall i, i < k -> isFailure (embedAttempt (responses i)))
  /\ (forall e,
        exit (embedSingle responses text) = Failure e
        <-> (forall i, i < 3 -> isFailure (embedAttempt (responses i)))
            /\ embedAttempt (responses 3) = Failure e).
Proof.
  destruct (embedSingle_attempts responses text)
    as (k & Hk & Hbefore & Hat & Hexit & _).
  rewrite Hexit. split.
  - intros v. split.
    + intros Hv. exists k. apply embedAttempt_Success in Hv as [? ?]. done.
    + intros (k' & Hk' & Hresp & Hvalid & Hbefore').
      assert (embedAttempt (responses k') = Success v) as Hv.
      { by apply embedAttempt_Success. }
      destruct (lt_eq_lt_dec k k') as [[Hlt| ->]|Hgt]; [| done |].
      * specialize (Hbefore' k Hlt).
        assert (k < 3) as Hk3 by lia. specialize (Hat Hk3).
        by destruct (embedAttempt (responses k)).
      * specialize (Hbefore k' Hgt). by rewrite Hv in Hbefore.
  - intros e. split.
    + intros He.
      assert (k = 3) as ->.
      { destruct (decide (k < 3)) as [Hk3|]; [|lia].
        specialize (Hat Hk3). by rewrite He in Hat. }
      done.
    + intros [Hall He].
      assert (k = 3) as ->; [|done].
      destruct (decide (k < 3)) as [Hk3|]; [|lia].
      specialize (Hat Hk3). specialize (Hall k Hk3).
      by destruct (embedAttempt (responses k)).
Qed.

(** Property X9.  A call of [embed] makes between one and four requests and
    waits [100 * (2 ^ (requests - 1) - 1)] milliseconds in all, at most 700;
    it makes a single request and does not wait when the first attempt
    succeeds, and a call that fails has used the four requests and the 700
    milliseconds. *)
Theorem embedSingle_budget
    (responses : nat -> EmbeddingResponse) (text : string) :
  let tr := events (embedSingle responses text) in
  1 <= fetchCount tr <= 4
  /\ totalSleep tr = 100 * (2 ^ (fetchCount tr - 1) - 1)
  /\ totalSleep tr <= 700
  /\ (isSuccess (embedAttempt (responses 0)) -> tr = [EvFetch text 0])
  /\ (isFailure (exit (embedSingle responses text)) ->
        fetchCount tr = 4 /\ totalSleep tr = 700).
Proof.
  destruct (embedSingle_attempts responses text)
    as (k & Hk & Hbefore & Hat & Hexit & Hev).
  intros tr. subst tr. rewrite Hev.
  assert (k = 0 \/ k = 1 \/ k = 2 \/ k = 3) as Hcases by lia.
  split; [|split; [|split; [|split]]].
  - destruct Hcases as [->|[->|[->| ->]]]; vm_compute; lia.
  - destruct Hcases as [->|[->|[->| ->]]]; by vm_compute.
  - destruct Hcases as [->|[->|[->| ->]]]; vm_compute; lia.
  - intros H0. destruct k as [|k]; [done|].
    assert (0 < S k) as Hlt by lia. specialize (Hbefore 0 Hlt).
    by destruct (embedAttempt (responses 0)).
  - intros Hfail.
    assert (k = 3) as ->; [|by vm_compute].
    destruct (decide (k < 3)) as [Hk3|]; [|lia].
    specialize (Hat Hk3). rewrite Hexit in Hfail.
    by destruct (embedAttempt (responses k)).
Qed.

Lemma embedSingle_Success_valid responses text v :
  exit (embedSingle responses text) = Success v -> validEmbedding v.
Proof.
  destruct (embedSingle_attempts responses text) as (k & _ & _ & _ & -> & _).
  by intros [_ ?]%embedAttempt_Success.
Qed.


(** Property X10.  [embedBatch] of the embedding client, whatever the
    order in which the calls complete: a result holds one vector per text,
    at the position of the text, which is the vector [embed] returns for
    that text and has passed the validation, every call having completed
    once; a failure is the failure of [embed] on one of the texts. *)
Theorem embedBatch_in_order (responses : nat -> nat -> EmbeddingResponse)
    (completion : list nat) (texts : list string) :
  completion ≡ₚ seq 0 (length texts) ->
  match exit (Ollama.embedBatch responses completion texts) with
  | Success vectors =>
      length vectors = length texts
      /\ (forall i text, texts !! i = Some text ->
            exists v, vectors !! i = Some v
              /\ exit (embedSingle (responses i) text) = Success v
              /\ validEmbedding v)
      /\ processedIndices
           (events (Ollama.embedBatch responses completion texts))
         = completion
  | Failure e =>
      exists i text,
        texts !! i = Some text
        /\ exit (embedSingle (responses i) text) = Failure e
  end.
Proof.
  intros Hperm. unfold Ollama.embedBatch.
  pose proof (mapEffectCollect_spec
                (fun '(i, text) => exit (embedSingle (responses i) text))
                0 (imap pair texts) completion) as Hspec.
  rewrite length_imap in Hspec. specialize (Hspec Hperm).
  destruct (mapEffectCollect _ _ _ _) as [tr [e|vectors]]; simpl.
  - destruct Hspec as (p & i & [i' text] & _ & Hlookup & He & _).
    rewrite list_lookup_imap in Hlookup.
    destruct (texts !! i) as [text'|] eqn:Htext; [|done].
    simpl in Hlookup. injection Hlookup as <- <-. by exists i, text'.
  - destruct Hspec as [-> Hall]. split_and!.
    + apply Forall2_length in Hall. by rewrite length_imap in Hall.
    + intros i text Htext.
      assert (imap pair texts !! i = Some (i, text)) as Hpair.
      { by rewrite list_lookup_imap, Htext. }
      destruct (Forall2_lookup_l _ _ _ _ _ Hall Hpair) as (v & Hv & Hok).
      unfold processOK in Hok.
      exists v. split; [done|]. split; [done|].
      by eapply embedSingle_Success_valid.
    + clear. induction completion as [|i order IH]; [done|].
      simpl. by f_equal.
Qed.

Lemma string_app_assoc (a b c : string) :
  (a +:+ b) +:+ c = a +:+ (b +:+ c).
Proof.
  induction a as [|x a IH]; [done|].
  change (String x ((a +:+ b) +:+ c) = String x (a +:+ (b +:+ c))).
  by rewrite IH.
Qed.

Lemma prefix_app_iff p s :
  String.prefix p s = true <-> exists r, s = p +:+ r.
Proof.
  revert s. induction p as [|c p IH]; intros s.
  - split; [by exists s|]. by destruct s.
  - destruct s as [|c' s]; simpl.
    + split; [done|]. by intros [r ?].
    + destruct (ascii_dec c c') as [->|Hne].
      * rewrite IH. split; intros [r Hr]; exists r.
        -- by rewrite Hr.
        -- by injection Hr.
      * split; [done|]. intros [r Hr]. by injection Hr.
Qed.

(** Property X11.  [checkHealth] succeeds exactly when the service lists
    its models and either the configured model is among them or
    auto-install is on and [ollama pull] exits with code 0. The pull is
    started exactly when the model is missing and auto-install is on. A
    model is present when a listed name is the configured name or that name
    followed by a colon and a tag. *)
Theorem checkHealth_outcome (config : HealthConfig) (tags : TagsResponse)
    (pull : PullOutcome) :
  let run := checkHealth config tags pull in
  (exit run = Success tt
   <-> exists models,
         tags = TagsJson models
         /\ (hasModel (model config) models = true
             \/ (autoInstall config = true /\ pull = PullClosed (Some 0))))
  /\ (forall m,
        EvPull m ∈ events run
        <-> m = model config
            /\ exists models,
                 tags = TagsJson models
                 /\ hasModel (model config) models = false
                 /\ autoInstall config = true)
  /\ (forall modelName models,
        hasModel modelName models = true
        <-> exists name,
              name ∈ models
              /\ (name = modelName
                  \/ exists tag, name = modelName +:+ ":" +:+ tag)).
Proof.
  intros run. subst run. unfold checkHealth, autoInstallModel. split_and!.
  - destruct tags as [| | |models]; simpl;
      try (split; [done|by intros (? & ? & _)]).
    destruct (hasModel (model config) models) eqn:Hhas; simpl.
    { split; [|done]. intros _. exists models. auto. }
    destruct (autoInstall config); simpl.
    + split.
      * destruct pull as [[[|n]|]|msg]; try done.
        intros _. exists models. auto.
      * intros (models' & [= <-] & [?|[_ ->]]); [congruence|done].
    + split; [done|].
      intros (models' & [= <-] & [?|[? _]]); congruence.
  - intros m. destruct tags as [| | |models]; simpl.
    1-3: split; [by intros ?%list_elem_of_singleton|by intros (_ & ? & ? & _)].
    destruct (hasModel (model config) models) eqn:Hhas; simpl.
    { split; [by intros ?%list_elem_of_singleton|].
      intros (_ & ? & [= <-] & ? & _). congruence. }
    destruct (autoInstall config); simpl.
    + split.
      * intros Hin. apply elem_of_cons in Hin as [?|Hin]; [done|].
        apply list_elem_of_singleton in Hin as [= ->]. split; [done|].
        by exists models.
      * intros [-> _]. apply elem_of_cons. right. by left.
    + split; [by intros ?%list_elem_of_singleton|].
      by intros (_ & ? & _ & _ & ?).
  - intros modelName models. unfold hasModel. rewrite existsb_exists.
    split.
    + intros (name & Hin%list_elem_of_In & Hname). exists name.
      split; [done|]. apply orb_true_iff in Hname as [Heq|Hpre].
      * left. by apply bool_decide_eq_true in Heq.
      * right. apply prefix_app_iff in Hpre as [tag ->]. exists tag.
        apply string_app_assoc.
    + intros (name & Hin & Hname). exists name.
      split; [by apply list_elem_of_In|]. apply orb_true_iff.
      destruct Hname as [->|[tag ->]].
      * left. by apply bool_decide_eq_true.
      * right. apply prefix_app_iff. exists tag.
        symmetry. apply string_app_assoc.
Qed.

Lemma embedBatch_in_order_witness :
  exit (Ollama.embedBatch (fun _ => sampleResponses) [1; 0] ["a"; "b"])
  = Success [sampleVector; sampleVector]
  /\ processedIndices
       (events (Ollama.embedBatch (fun _ => sampleResponses) [1; 0]
                  ["a"; "b"]))
     = [1; 0].
Proof.
  assert (Hperm : [1; 0] ≡ₚ seq 0 (length ["a"; "b"])).
  { apply (bool_decide_unpack _). by vm_compute. }
  pose proof (embedBatch_in_order (fun _ => sampleResponses) [1; 0]
                ["a"; "b"] Hperm) as H.
  assert (Hexit : exit (Ollama.embedBatch (fun _ => sampleResponses) [1; 0]
                          ["a"; "b"])
                  = Success [sampleVector; sampleVector]).
  { by vm_compute. }
  rewrite Hexit in H. destruct H as (_ & _ & Hev).
  split; [exact Hexit|exact Hev].
Defined.

(** ** The concept curator *)

Import JsString AutoTagger TaggerSpec TaggerSamples.

(** *** Strings *)

Lemma includes_char_cons (c a : ascii) (s : string) :
  includes (String a s) (String c "")
  = Ascii.eqb c a || includes s (String c "").
Proof.
  simpl. destruct (Ascii.ascii_dec c a) as [->|Hne].
  - rewrite Ascii.eqb_refl. by destruct s.
  - apply Ascii.eqb_neq in Hne. by rewrite Hne.
Qed.

Lemma split_nonempty sep s : split sep s <> [].
Proof.
  destruct s as [|c s]; simpl; [done|].
  destruct (Ascii.eqb c sep); [done|]. by destruct (split sep s).
Qed.

Lemma split_singleton sep s w :
  split sep s = [w] -> s = w /\ includes w (String sep "") = false.
Proof.
  revert w. induction s as [|c s IH]; intros w; simpl.
  - by intros [= <-].
  - destruct (Ascii.eqb c sep) eqn:Hc.
    { intros [= _ Hs]. by apply split_nonempty in Hs. }
    destruct (split sep s) as [|w' ws] eqn:Hs.
    { by apply split_nonempty in Hs. }
    intros [= <- ->]. destruct (IH w' eq_refl) as [-> Hw]. split; [done|].
    by rewrite includes_char_cons, Hw, Ascii.eqb_sym, Hc.
Qed.

Lemma split_pair sep s a b :
  split sep s = [a; b] ->
  s = a +:+ String sep b /\ includes b (String sep "") = false.
Proof.
  revert a. induction s as [|c s IH]; intros a; simpl; [done|].
  destruct (Ascii.eqb c sep) eqn:Hc.
  - intros [= <- Hs]. apply Ascii.eqb_eq in Hc as ->.
    by apply split_singleton in Hs as [-> ?].
  - destruct (split sep s) as [|w ws] eqn:Hs; [done|].
    intros [= <- ->]. destruct (IH w eq_refl) as [-> ?]. done.
Qed.

Lemma mapChars_app f s1 s2 :
  mapChars f (s1 +:+ s2) = mapChars f s1 +:+ mapChars f s2.
Proof.
  induction s1 as [|c s1 IH]; [done|].
  change (String (f c) (mapChars f (s1 +:+ s2))
          = String (f c) (mapChars f s1 +:+ mapChars f s2)).
  by rewrite IH.
Qed.

Lemma isValidConceptId_valid lower id :
  isValidConceptId lower id = true -> structurallyValid lower id.
Proof.
  unfold isValidConceptId.
  destruct (negb (includes id "/") || negb (length (split "/" id) =? 2))
    eqn:Hslash; [done|].
  apply orb_false_elim in Hslash as [_ Hlen].
  apply negb_false_iff, Nat.eqb_eq in Hlen.
  destruct (split "/" id) as [|parent [|child [|? ?]]] eqn:Hsplit; try done.
  clear Hlen. apply split_pair in Hsplit as [Hid Hchild].
  case_bool_decide as Hparent; [|done]. simpl.
  destruct (includes child " ") eqn:Hspace; [done|].
  destruct (30 <? utf16Length child) eqn:Hlong; [done|].
  apply Nat.ltb_ge in Hlong.
  case_bool_decide as Hconcept; [done|].
  case_bool_decide as Hnew; [done|]. simpl.
  case_bool_decide as Hlower; [|done]. simpl.
  destruct (4 <? length (split "-" child)) eqn:Hwords; [done|].
  apply Nat.ltb_ge in Hwords. intros _.
  exists parent, child. by split_and!.
Qed.

Lemma split_no_sep sep s :
  includes s (String sep "") = false -> split sep s = [s].
Proof.
  induction s as [|c s IH]; [done|].
  rewrite includes_char_cons. intros [Hc Hs]%orb_false_elim.
  simpl. rewrite Ascii.eqb_sym, Hc, (IH Hs). done.
Qed.

Lemma split_app_sep sep a b :
  includes a (String sep "") = false ->
  split sep (a +:+ String sep b) = a :: split sep b.
Proof.
  induction a as [|c a IH].
  - intros _. change (split sep (String sep b) = "" :: split sep b).
    simpl. by rewrite Ascii.eqb_refl.
  - rewrite includes_char_cons. intros [Hc Ha]%orb_false_elim.
    change (split sep (String c (a +:+ String sep b))
            = String c a :: split sep b).
    simpl. by rewrite Ascii.eqb_sym, Hc, (IH Ha).
Qed.

Lemma includes_app_sep sep a b :
  includes (a +:+ String sep b) (String sep "") = true.
Proof.
  induction a as [|c a IH].
  - change (includes (String sep b) (String sep "") = true).
    by rewrite includes_char_cons, Ascii.eqb_refl.
  - change (includes (String c (a +:+ String sep b)) (String sep "") = true).
    by rewrite includes_char_cons, IH, orb_true_r.
Qed.

Lemma validParents_plain parent :
  parent ∈ validParents ->
  includes parent "/" = false
  /\ isAscii parent = true
  /\ allChars (fun c => negb (isUpperAscii c)) parent = true.
Proof.
  unfold validParents. intros Hparent.
  repeat (apply elem_of_cons in Hparent as [->|Hparent]; [done|]).
  by apply elem_of_nil in Hparent.
Qed.

Lemma structurallyValid_isValid lower id :
  structurallyValid lower id -> isValidConceptId lower id = true.
Proof.
  intros (parent & child & Hid & Hparent & Hslash & Hspace & Hlower & Hwords
          & Hlong & Hconcept & Hnew).
  destruct (validParents_plain parent Hparent) as (Hplain & _ & _).
  unfold isValidConceptId. rewrite Hlower.
  rewrite bool_decide_true by done. subst id.
  change (parent +:+ "/" +:+ child) with (parent +:+ String "/" child).
  rewrite includes_app_sep, (split_app_sep _ _ _ Hplain),
    (split_no_sep _ _ Hslash). simpl.
  rewrite bool_decide_true by done. simpl. rewrite Hspace.
  apply Nat.ltb_ge in Hlong. rewrite Hlong.
  rewrite (bool_decide_false (child = "concept")),
    (bool_decide_false (child = "new")) by done. simpl.
  apply Nat.ltb_ge in Hwords. by rewrite Hwords.
Qed.

Lemma allChars_app p s1 s2 :
  allChars p (s1 +:+ s2) = allChars p s1 && allChars p s2.
Proof.
  induction s1 as [|c s1 IH]; [done|].
  change (allChars p (String c (s1 +:+ s2))
          = allChars p (String c s1) && allChars p s2).
  simpl. by rewrite IH, andb_assoc.
Qed.

Lemma lowerChar_fixed c : lowerChar c = c <-> negb (isUpperAscii c) = true.
Proof. destruct c as [[] [] [] [] [] [] [] []]; by vm_compute. Qed.

Lemma mapChars_lowerChar_fixed s :
  mapChars lowerChar s = s
  <-> allChars (fun c => negb (isUpperAscii c)) s = true.
Proof.
  induction s as [|c s IH]; simpl; [done|].
  rewrite andb_true_iff, <- IH, <- lowerChar_fixed. split.
  - by intros [= ? ?].
  - by intros [-> ->].
Qed.

(** On ASCII strings lower case means no capital letter. *)
Lemma toLowerCase_ascii_fixed lower s :
  isAscii s = true ->
  toLowerCase lower s = s
  <-> allChars (fun c => negb (isUpperAscii c)) s = true.
Proof.
  intros Hascii. unfold toLowerCase. rewrite Hascii.
  apply mapChars_lowerChar_fixed.
Qed.

Lemma lowercase_child lower parent child :
  parent ∈ validParents -> isAscii child = true ->
  toLowerCase lower (parent +:+ "/" +:+ child) = parent +:+ "/" +:+ child
  <-> allChars (fun c => negb (isUpperAscii c)) child = true.
Proof.
  intros (_ & Hascii & Hlower)%validParents_plain Hchild.
  rewrite toLowerCase_ascii_fixed.
  - rewrite !allChars_app, Hlower. simpl. done.
  - unfold isAscii in *. rewrite !allChars_app, Hascii, Hchild. done.
Qed.

(** *** The letter case of an answer *)

Lemma string_app_nil_r (s : string) : s +:+ "" = s.
Proof.
  induction s as [|c s IH]; [done|].
  change (String c (s +:+ "") = String c s). by rewrite IH.
Qed.

Lemma rev_app_spec (s acc : string) :
  String.rev_app s acc = String.rev s +:+ acc.
Proof.
  unfold String.rev. revert acc.
  induction s as [|c s IH]; intros acc; [done|].
  simpl. rewrite (IH (String c "")), IH. by rewrite string_app_assoc.
Qed.

Lemma rev_cons (c : ascii) (s : string) :
  String.rev (String c s) = String.rev s +:+ String c "".
Proof. unfold String.rev at 1. simpl. by rewrite rev_app_spec. Qed.

Lemma rev_app_distr (s1 s2 : string) :
  String.rev (s1 +:+ s2) = String.rev s2 +:+ String.rev s1.
Proof.
  induction s1 as [|c s1 IH]; [by rewrite string_app_nil_r|].
  change (String.rev (String c (s1 +:+ s2))
          = String.rev s2 +:+ String.rev (String c s1)).
  by rewrite !rev_cons, IH, string_app_assoc.
Qed.

Lemma rev_involutive (s : string) : String.rev (String.rev s) = s.
Proof.
  induction s as [|c s IH]; [done|].
  by rewrite rev_cons, rev_app_distr, IH.
Qed.

Lemma trimStart_app (a : string) (c : ascii) (s : string) :
  Ascii.is_space c = false ->
  exists a', trimStart (a +:+ String c s) = a' +:+ String c s.
Proof.
  intros Hc. induction a as [|x a IH].
  - exists "". simpl. by rewrite Hc.
  - change (String x a +:+ String c s) with (String x (a +:+ String c s)).
    simpl. destruct (Ascii.is_space x); [done|]. by exists (String x a).
Qed.

Lemma trimEnd_app (s : string) (c : ascii) (b : string) :
  Ascii.is_space c = false ->
  exists b', trimEnd (s +:+ String c b) = s +:+ String c b'.
Proof.
  intros Hc. unfold trimEnd.
  change (String c b) with (String c "" +:+ b).
  rewrite <- string_app_assoc, rev_app_distr, rev_app_distr.
  change (String.rev (String c "")) with (String c "").
  change (String c "" +:+ String.rev s) with (String c (String.rev s)).
  destruct (trimStart_app (String.rev b) c (String.rev s) Hc) as [b' ->].
  exists (String.rev b').
  rewrite rev_app_distr, rev_cons, rev_involutive.
  by rewrite string_app_assoc.
Qed.

(** What [trim] takes away stands before and after what it leaves. *)
Lemma trimStart_rest s : exists l, s = l +:+ trimStart s.
Proof.
  induction s as [|c s [l IH]]; [by exists ""|]. simpl.
  destruct (Ascii.is_space c); [|by exists ""].
  exists (String c l). by rewrite IH at 1.
Qed.

Lemma trimEnd_rest s : exists r, s = trimEnd s +:+ r.
Proof.
  unfold trimEnd. destruct (trimStart_rest (String.rev s)) as [l Hl].
  exists (String.rev l).
  by rewrite <- rev_app_distr, <- Hl, rev_involutive.
Qed.

Lemma trim_rest s : exists l r, s = l +:+ trim s +:+ r.
Proof.
  unfold trim. destruct (trimStart_rest s) as [l Hl].
  destruct (trimEnd_rest (trimStart s)) as [r Hr].
  exists l, r. by rewrite <- Hr.
Qed.

Lemma includes_prefix (s w : string) :
  String.prefix w s = true -> includes s w = true.
Proof. intros H. destruct s; cbn [includes]; by rewrite H. Qed.

Lemma includes_app_mid (a w b : string) : includes (a +:+ w +:+ b) w = true.
Proof.
  induction a as [|c a IH].
  - apply includes_prefix, prefix_app_iff. by exists b.
  - change (String c a +:+ w +:+ b) with (String c (a +:+ w +:+ b)).
    cbn [includes]. rewrite IH. apply orb_true_r.
Qed.

Lemma includes_parts s w :
  includes s w = true <-> exists a b, s = a +:+ w +:+ b.
Proof.
  split.
  - induction s as [|c s IH]; cbn [includes].
    + rewrite orb_false_r. intros [r ->]%prefix_app_iff. by exists "", r.
    + intros [[r ->]%prefix_app_iff|(a & b & ->)%IH]%orb_true_iff.
      * by exists "", r.
      * by exists (String c a), b.
  - intros (a & b & ->). apply includes_app_mid.
Qed.

(** [toUpperCase], character by character. *)
Lemma toUpperCase_cons c s :
  c <> "196"%char ->
  toUpperCase (String c s) = String (upperChar c) (toUpperCase s).
Proof.
  intros Hc. destruct s as [|c' s]; [done|].
  cbn [toUpperCase]. by rewrite (proj2 (Ascii.eqb_neq c "196") Hc).
Qed.

Lemma toUpperCase_dotless s :
  toUpperCase (String "196" (String "177" s)) = String "I" (toUpperCase s).
Proof. done. Qed.

Lemma toUpperCase_cases c s :
  (exists s', c = "196"%char /\ s = String "177" s'
              /\ toUpperCase (String c s) = String "I" (toUpperCase s'))
  \/ toUpperCase (String c s) = String (upperChar c) (toUpperCase s).
Proof.
  destruct s as [|c' s]; [by right|]. cbn [toUpperCase].
  destruct (Ascii.eqb c "196") eqn:Hc; [|by right].
  destruct (Ascii.eqb c' "177") eqn:Hc'; [|by right].
  apply Ascii.eqb_eq in Hc, Hc'. subst. left. by exists s.
Qed.

Lemma upperChar_capital c letter :
  isUpperAscii letter = true -> upperChar c = letter ->
  c = letter \/ c = lowerChar letter.
Proof.
  intros Hletter <-. revert Hletter.
  destruct c as [[] [] [] [] [] [] [] []]; vm_compute; auto; discriminate.
Qed.

Lemma capital_upperChar letter :
  isUpperAscii letter = true ->
  upperChar letter = letter /\ upperChar (lowerChar letter) = letter
  /\ letter <> "196"%char /\ lowerChar letter <> "196"%char
  /\ Ascii.is_space letter = false
  /\ Ascii.is_space (lowerChar letter) = false.
Proof.
  destruct letter as [[] [] [] [] [] [] [] []]; vm_compute; try discriminate;
    by intros _; split_and!.
Qed.

Lemma anyCase_continuation word s :
  allChars isUpperAscii word = true -> anyCase word (String "177" s) = false.
Proof.
  destruct word as [|letter word]; [done|]. cbn [allChars anyCase].
  intros [Hletter _]%andb_true_iff.
  assert (Ascii.eqb "177" letter = false
          /\ Ascii.eqb "177" (lowerChar letter) = false) as [-> ->].
  { revert Hletter. clear.
    destruct letter as [[] [] [] [] [] [] [] []]; by vm_compute. }
  destruct s; simpl; by rewrite andb_false_r.
Qed.

(** A spelling of a word in capital letters becomes the word. *)
Lemma anyCase_toUpperCase word s rest :
  allChars isUpperAscii word = true -> anyCase word s = true ->
  toUpperCase (s +:+ rest) = word +:+ toUpperCase rest.
Proof.
  revert s. induction word as [|letter word IH]; intros [|c s]; try done.
  cbn [allChars anyCase].
  intros [Hletter Hword]%andb_true_iff [[Hc Hs]%andb_true_iff|Hi]%orb_true_iff.
  - destruct (capital_upperChar letter Hletter) as (H1 & H2 & H3 & H4 & _).
    change (String c s +:+ rest) with (String c (s +:+ rest)).
    change (String letter word +:+ toUpperCase rest)
      with (String letter (word +:+ toUpperCase rest)).
    apply orb_true_iff in Hc as [->%Ascii.eqb_eq| ->%Ascii.eqb_eq];
      rewrite toUpperCase_cons by done; rewrite ?H1, ?H2; f_equal; by apply IH.
  - apply andb_true_iff in Hi as [->%Ascii.eqb_eq Hi].
    destruct s as [|c' s]; [done|].
    apply andb_true_iff in Hi as [[->%Ascii.eqb_eq ->%Ascii.eqb_eq]%andb_true_iff Hs].
    change (String "196" (String "177" s) +:+ rest)
      with (String "196" (String "177" (s +:+ rest))).
    rewrite toUpperCase_dotless.
    change (String "I" word +:+ toUpperCase rest)
      with (String "I" (word +:+ toUpperCase rest)).
    f_equal. by apply IH.
Qed.

(** A text that becomes the word (and more) starts with a spelling of it. *)
Lemma toUpperCase_anyCase word text :
  allChars isUpperAscii word = true ->
  String.prefix word (toUpperCase text) = true ->
  exists s rest, text = s +:+ rest /\ anyCase word s = true.
Proof.
  revert text. induction word as [|letter word IH]; intros text.
  { intros _ _. by exists "", text. }
  cbn [allChars]. intros [Hletter Hword]%andb_true_iff.
  destruct text as [|c text]; [done|].
  destruct (toUpperCase_cases c text) as [(s' & -> & -> & ->)| ->].
  - cbn [String.prefix]. destruct (ascii_dec letter "I") as [->|]; [|done].
    intros (s & rest & -> & Hs)%IH; [|done].
    exists (String "196" (String "177" s)), rest. split; [done|].
    cbn [anyCase]. rewrite Hs. by vm_compute.
  - cbn [String.prefix].
    destruct (ascii_dec letter (upperChar c)) as [Hc|]; [|done].
    intros (s & rest & -> & Hs)%IH; [|done].
    exists (String c s), rest. split; [done|].
    cbn [anyCase]. rewrite Hs.
    destruct (upperChar_capital c letter Hletter (eq_sym Hc)) as [->| ->].
    + by rewrite Ascii.eqb_refl.
    + rewrite Ascii.eqb_refl, orb_true_r. done.
Qed.

(** The upper case of a text includes a word in capital letters exactly
    when the text holds a spelling of the word. *)
Lemma includes_toUpperCase word text :
  allChars isUpperAscii word = true ->
  includes (toUpperCase text) word = true
  <-> exists before s after,
        text = before +:+ s +:+ after /\ anyCase word s = true.
Proof.
  intros Hword. split.
  - remember (String.length text) as n eqn:Hn. revert text Hn.
    induction n as [n IH] using lt_wf_ind. intros text Hn.
    destruct text as [|c text].
    { simpl. rewrite orb_false_r.
      intros (s & rest & ? & ?)%(toUpperCase_anyCase word ""); [|done].
      by exists "", s, rest. }
    destruct (String.prefix word (toUpperCase (String c text))) eqn:Hprefix.
    { intros _.
      apply toUpperCase_anyCase in Hprefix as (s & rest & ? & ?); [|done].
      by exists "", s, rest. }
    destruct (toUpperCase_cases c text) as [(s' & -> & -> & Hup)|Hup];
      rewrite Hup in *; cbn [includes]; rewrite Hprefix; simpl orb.
    + intros (before & s & after & -> & Hs)%(IH (String.length s'));
        [|simpl in *; lia|done].
      by exists (String "196" (String "177" before)), s, after.
    + intros (before & s & after & -> & Hs)%(IH (String.length text));
        [|simpl in *; lia|done].
      by exists (String c before), s, after.
  - intros (before & s & after & -> & Hs).
    remember (String.length before) as n eqn:Hn. revert before Hn.
    induction n as [n IH] using lt_wf_ind. intros before Hn.
    destruct before as [|c before].
    { change ("" +:+ s +:+ after) with (s +:+ after).
      rewrite (anyCase_toUpperCase word) by done.
      apply includes_prefix, prefix_app_iff. by exists (toUpperCase after). }
    change (String c before +:+ s +:+ after)
      with (String c (before +:+ s +:+ after)).
    destruct (toUpperCase_cases c (before +:+ s +:+ after))
      as [(s' & -> & Hs' & ->)| ->]; cbn [includes].
    + destruct before as [|c' before].
      * destruct word as [|letter word]; [by destruct (toUpperCase s')|].
        destruct s as [|c1 s]; [done|].
        simpl in Hs'. injection Hs' as -> _.
        by rewrite anyCase_continuation in Hs.
      * simpl in Hs'. injection Hs' as -> <-.
        rewrite (IH (String.length before)); [apply orb_true_r| |done].
        simpl in *. lia.
    + rewrite (IH (String.length before)); [apply orb_true_r| |done].
      simpl in *. lia.
Qed.

(** A spelling of a word holds no white space, so [trim] leaves it. *)
Lemma anyCase_no_space word s :
  allChars isUpperAscii word = true -> anyCase word s = true ->
  allChars (fun c => negb (Ascii.is_space c)) s = true.
Proof.
  revert s. induction word as [|letter word IH]; intros [|c s]; try done.
  cbn [allChars anyCase].
  intros [Hletter Hword]%andb_true_iff [[Hc Hs]%andb_true_iff|Hi]%orb_true_iff.
  - destruct (capital_upperChar letter Hletter) as (_ & _ & _ & _ & H5 & H6).
    rewrite (IH s) by done.
    apply orb_true_iff in Hc as [->%Ascii.eqb_eq| ->%Ascii.eqb_eq];
      by rewrite ?H5, ?H6.
  - apply andb_true_iff in Hi as [_ Hi]. destruct s as [|c' s]; [done|].
    apply andb_true_iff in Hi
      as [[->%Ascii.eqb_eq ->%Ascii.eqb_eq]%andb_true_iff Hs].
    cbn [allChars]. by rewrite (IH s).
Qed.

Lemma string_last s :
  s <> "" -> exists front c, s = front +:+ String c "".
Proof.
  induction s as [|c s IH]; [done|]. intros _.
  destruct s as [|c' s]; [by exists "", c|].
  destruct IH as (front & c9 & ->); [done|]. by exists (String c front), c9.
Qed.

Lemma trim_keeps before s after :
  allChars (fun c => negb (Ascii.is_space c)) s = true ->
  exists before' after', trim (before +:+ s +:+ after) = before' +:+ s +:+ after'.
Proof.
  intros Hs. destruct s as [|c1 s1].
  { by exists "", (trim (before +:+ "" +:+ after)). }
  destruct (string_last (String c1 s1)) as (front & c9 & Hlast); [done|].
  assert (Ascii.is_space c1 = false) as H1.
  { simpl in Hs. by apply andb_true_iff in Hs as [?%negb_true_iff _]. }
  assert (Ascii.is_space c9 = false) as H9.
  { rewrite Hlast, allChars_app in Hs.
    apply andb_true_iff in Hs as [_ Hs]. simpl in Hs.
    by rewrite andb_true_r in Hs; apply negb_true_iff in Hs. }
  unfold trim.
  change (String c1 s1 +:+ after) with (String c1 (s1 +:+ after)).
  destruct (trimStart_app before c1 (s1 +:+ after) H1) as [before' ->].
  change (String c1 (s1 +:+ after)) with (String c1 s1 +:+ after).
  rewrite Hlast, !string_app_assoc.
  change (String c9 "" +:+ after) with (String c9 after).
  rewrite <- string_app_assoc.
  destruct (trimEnd_app (before' +:+ front) c9 after H9) as [after' ->].
  exists before', after'. by rewrite !string_app_assoc.
Qed.

(** What [llmJudgeDuplicate] looks for in an answer: a spelling of the
    word, in any letter case, anywhere. *)
Lemma includes_trimmed word answer :
  allChars isUpperAscii word = true ->
  includes (toUpperCase (trim answer)) word = true
  <-> exists before s after,
        answer = before +:+ s +:+ after /\ anyCase word s = true.
Proof.
  intros Hword. rewrite includes_toUpperCase by done. split.
  - intros (before & s & after & Htrim & Hs).
    destruct (trim_rest answer) as (l & r & Hanswer).
    exists (l +:+ before), s, (after +:+ r). split; [|done].
    rewrite Hanswer at 1. by rewrite Htrim, !string_app_assoc.
  - intros (before & s & after & -> & Hs).
    destruct (trim_keeps before s after) as (before' & after' & ->).
    { by apply (anyCase_no_space word). }
    by exists before', s, after'.
Qed.

Lemma saysDuplicate_containing before word after :
  toUpperCase word = "DUPLICATE" ->
  includes (toUpperCase (trim (before +:+ word +:+ after))) "DUPLICATE" = true.
Proof.
  intros Hword. apply includes_trimmed; [done|].
  destruct (toUpperCase_anyCase "DUPLICATE" word) as (s & rest & -> & Hs);
    [done|by rewrite Hword|].
  exists before, s, (rest +:+ after). by rewrite string_app_assoc.
Qed.

(** *** The loop body *)

Lemma acceptProposal_persistCalls w k proposal tr b :
  acceptProposal w k proposal = (tr, Success b) ->
  persistCalls tr
  = if b then [Added proposal; Stored (ProposedConcept.id proposal)] else [].
Proof. accept_cases; intros ?; by simplify_eq. Qed.

Lemma acceptProposal_events w k proposal ev :
  ev ∈ events (acceptProposal w k proposal) ->
  eventConceptId ev = ProposedConcept.id proposal.
Proof.
  accept_cases; intros Hev;
    repeat (apply elem_of_cons in Hev as [->|Hev]; [done|]);
    by apply elem_of_nil in Hev.
Qed.

Lemma llmJudgeDuplicate_answer w k proposed existing :
  llmJudgeDuplicate w k proposed existing
  = match loadConfig w k with
    | None => None
    | Some _ =>
        match judgeAnswer w k proposed existing with
        | Some answer =>
            Some {| isDuplicate := saysDuplicate answer; available := true |}
        | None => Some {| isDuplicate := false; available := false |}
        end
    end.
Proof.
  unfold llmJudgeDuplicate, judgeAnswer, saysDuplicate.
  destruct (loadConfig w k) as [config|]; [|done].
  destruct (judge_provider config).
  - destruct (AI_GATEWAY_API_KEY w k) as [key|]; [|done].
    destruct (truthy key); [|done]. simpl. by destruct (generateText _ _ _ _).
  - by destruct (fetchGenerate _ _ _ _ _).
Qed.

(** *** The loop *)

Lemma acceptLoop_cons w k proposal proposals nAccepted nRejected :
  acceptLoop w k (proposal :: proposals) nAccepted nRejected
  = bind (acceptProposal w k proposal)
      (fun isAccepted : bool =>
         if isAccepted
         then acceptLoop w (S k) proposals (S nAccepted) nRejected
         else acceptLoop w (S k) proposals nAccepted (S nRejected)).
Proof. done. Qed.

Lemma acceptLoop_counts w proposals : forall k nAccepted nRejected counts,
  exit (acceptLoop w k proposals nAccepted nRejected) = Success counts ->
  accepted counts = nAccepted + length (acceptedOf w k proposals)
  /\ accepted counts + rejected counts
     = nAccepted + nRejected + length proposals
  /\ persistCalls (events (acceptLoop w k proposals nAccepted nRejected))
     = flat_map (fun p => [Added p; Stored (ProposedConcept.id p)])
         (acceptedOf w k proposals).
Proof.
  induction proposals as [|proposal proposals IH]; intros k nA nR counts.
  - simpl. intros [= <-]. simpl. split_and!; [lia|lia|done].
  - rewrite acceptLoop_cons. cbn [acceptedOf]. unfold isAccepted.
    destruct (acceptProposal w k proposal) as [tr [e|b]] eqn:Hstep; [done|].
    rewrite bind_success. cbn [exit events fst snd].
    pose proof (acceptProposal_persistCalls w k proposal tr b Hstep) as Htr.
    unfold persistCalls in *. rewrite omap_app, Htr.
    destruct b; intros Hexit; apply IH in Hexit as (Ha & Hsum & Hcalls);
      rewrite Hcalls; cbn [length flat_map app]; split_and!; (lia || done).
Qed.

Lemma acceptLoop_events w proposals : forall k nAccepted nRejected ev,
  ev ∈ events (acceptLoop w k proposals nAccepted nRejected) ->
  exists proposal, proposal ∈ proposals
    /\ eventConceptId ev = ProposedConcept.id proposal.
Proof.
  induction proposals as [|proposal proposals IH]; intros k nA nR ev.
  - simpl. by intros ?%elem_of_nil.
  - rewrite acceptLoop_cons.
    pose proof (acceptProposal_events w k proposal ev) as Hstep.
    destruct (acceptProposal w k proposal) as [tr [e|b]].
    + rewrite bind_failure. intros Hev. exists proposal.
      split; [left|by apply Hstep].
    + rewrite bind_success. cbn [events fst]. intros [Hev|Hev]%elem_of_app.
      * exists proposal. split; [left|by apply Hstep].
      * destruct b; apply IH in Hev as (p & ? & ?); exists p;
          (split; [by right|done]).
Qed.

Lemma validateProposedConcepts_valid lower raw p :
  p ∈ validateProposedConcepts lower raw ->
  p ∈ default [] raw /\ isValidConceptId lower (ProposedConcept.id p) = true.
Proof.
  unfold validateProposedConcepts. destruct raw as [concepts|].
  - intros Hp%list_elem_of_In%filter_In. destruct Hp as [Hin Hp].
    split; [by apply list_elem_of_In|].
    destruct (isValidConceptId lower (ProposedConcept.id p)); [done|].
    by destruct (negb (truthy _) || negb (truthy _)).
  - by intros ?%elem_of_nil.
Qed.

Lemma enrichProposals_events w llmProposals ev :
  ev ∈ events (enrichProposals w llmProposals) ->
  exists raw proposal,
    llmProposals = Some raw
    /\ proposal ∈ validateProposedConcepts (engineLowerCase w) raw
    /\ eventConceptId ev = ProposedConcept.id proposal.
Proof.
  unfold enrichProposals. destruct llmProposals as [raw|]; simpl.
  2:{ by intros ?%elem_of_nil. }
  set (valid := validateProposedConcepts (engineLowerCase w) raw).
  destruct (0 <? length valid) eqn:Hlen.
  2:{ by intros ?%elem_of_nil. }
  unfold autoAcceptProposals.
  apply Nat.ltb_lt in Hlen.
  destruct (length valid =? 0) eqn:H0.
  { apply Nat.eqb_eq in H0. lia. }
  intros Hev.
  assert (Hin : ev ∈ events (acceptLoop w 0 valid 0 0)).
  { destruct (acceptLoop w 0 valid 0 0) as [tr [e|c]];
      simpl in *; [by rewrite app_nil_r in Hev|done]. }
  apply acceptLoop_events in Hin as (p & ? & ?). by exists raw, p.
Qed.

(** *** The claims *)

(** Claim C5.  A proposal has a similarity candidate and the judge returns
    [available = false].  Then the judge does not call it a duplicate, and
    the loop body does not reject it: it persists the concept and its
    embedding and counts the proposal as accepted, and the loop goes on to
    the next proposal.  The body can then fail only with the error of
    [addConcept] or [storeConceptEmbedding], never because of the judge. *)
Theorem dedup_fail_open (w : World) (k : nat) (proposal : ProposedConcept.t)
    (embedding : list float) (best : Concept.t) (rest : list Concept.t)
    (judgeResult : JudgeResult) (proposals : list ProposedConcept.t)
    (nAccepted nRejected : nat) :
  embed w k (proposalText proposal) = Success embedding ->
  findSimilarConcepts w k embedding 0.75%float = Success (best :: rest) ->
  llmJudgeDuplicate w k proposal best = Some judgeResult ->
  available judgeResult = false ->
  let accepting := [
    EvEmbed proposal (proposalText proposal);
    EvFindSimilar proposal embedding 0.75%float;
    EvJudge proposal best;
    EvAddConcept proposal;
    EvStoreConceptEmbedding (ProposedConcept.id proposal) embedding
  ] in
  isDuplicate judgeResult = false
  /\ exit (acceptProposal w k proposal) <> Success false
  /\ (forall e, exit (acceptProposal w k proposal) = Failure e ->
        exists e', e = TaxonomyFailed e'
          /\ (addConcept w k proposal = Failure e'
              \/ storeConceptEmbedding w k (ProposedConcept.id proposal)
                   embedding = Failure e'))
  /\ (addConcept w k proposal = Success tt ->
      storeConceptEmbedding w k (ProposedConcept.id proposal) embedding
        = Success tt ->
      acceptProposal w k proposal = (accepting, Success true)
      /\ acceptLoop w k (proposal :: proposals) nAccepted nRejected
         = (accepting
              ++ events (acceptLoop w (S k) proposals (S nAccepted) nRejected),
            exit (acceptLoop w (S k) proposals (S nAccepted) nRejected))).
Proof.
  intros Hembed Hsimilar Hjudge Havailable accepting.
  assert (Hdup : isDuplicate judgeResult = false).
  { rewrite llmJudgeDuplicate_answer in Hjudge.
    destruct (loadConfig w k); [|done].
    destruct (judgeAnswer w k proposal best); by simplify_eq/=. }
  assert (Hstep : acceptProposal w k proposal
            = bind ([EvEmbed proposal (proposalText proposal);
                     EvFindSimilar proposal embedding 0.75%float;
                     EvJudge proposal best], Success tt)
                (fun _ =>
                   (callTaxonomy (EvAddConcept proposal)
                      (addConcept w k proposal);;;
                    callTaxonomy
                      (EvStoreConceptEmbedding (ProposedConcept.id proposal)
                         embedding)
                      (storeConceptEmbedding w k (ProposedConcept.id proposal)
                         embedding);;;
                    succeed true)%eff)).
  { unfold acceptProposal, callOllama, callTaxonomy, tryJudge.
    rewrite Hembed. cbn [mapError bind]. rewrite Hsimilar. cbn [mapError bind].
    rewrite Hjudge. cbn [bind succeed app]. rewrite Hdup.
    destruct (addConcept w k proposal) as [?|[]]; [done|].
    by destruct (storeConceptEmbedding w k _ embedding) as [?|[]]. }
  split_and!; [done| | |].
  - rewrite Hstep. unfold callTaxonomy.
    destruct (addConcept w k proposal) as [?|[]]; [done|].
    by destruct (storeConceptEmbedding w k _ embedding) as [?|[]].
  - intros e. rewrite Hstep. unfold callTaxonomy.
    destruct (addConcept w k proposal) as [e1|[]];
      [|destruct (storeConceptEmbedding w k _ embedding) as [e2|[]]];
      cbn; intros ?; simplify_eq; eauto.
  - intros Hadd Hstore.
    assert (Haccept : acceptProposal w k proposal = (accepting, Success true)).
    { rewrite Hstep. unfold callTaxonomy. by rewrite Hadd, Hstore. }
    split; [done|]. by rewrite acceptLoop_cons, Haccept, bind_success.
Qed.

(** Claim C6.  The loop body rejects a proposal exactly when a candidate was
    found and the judge answered a text that, trimmed and in upper case,
    includes DUPLICATE.  After any other answer the proposal is persisted
    and accepted (provided the taxonomy accepts the writes).  An answer
    passes that test exactly when the word stands somewhere in it, every
    letter in either case (the letter I also as the dotless i, whose upper
    case it is), whatever stands before and after. *)
Theorem reject_only_on_duplicate_answer (w : World) (k : nat)
    (proposal : ProposedConcept.t) :
  (exit (acceptProposal w k proposal) = Success false
   <-> exists embedding best rest answer,
         embed w k (proposalText proposal) = Success embedding
         /\ findSimilarConcepts w k embedding 0.75%float
            = Success (best :: rest)
         /\ judgeAnswer w k proposal best = Some answer
         /\ includes (toUpperCase (trim answer)) "DUPLICATE" = true)
  /\ (forall embedding best rest answer,
        embed w k (proposalText proposal) = Success embedding ->
        findSimilarConcepts w k embedding 0.75%float
          = Success (best :: rest) ->
        judgeAnswer w k proposal best = Some answer ->
        includes (toUpperCase (trim answer)) "DUPLICATE" = false ->
        addConcept w k proposal = Success tt ->
        storeConceptEmbedding w k (ProposedConcept.id proposal) embedding
          = Success tt ->
        exit (acceptProposal w k proposal) = Success true
        /\ persistCalls (events (acceptProposal w k proposal))
           = [Added proposal; Stored (ProposedConcept.id proposal)])
  /\ (forall answer,
        includes (toUpperCase (trim answer)) "DUPLICATE" = true
        <-> exists before word after,
              answer = before +:+ word +:+ after
              /\ anyCase "DUPLICATE" word = true).
Proof.
  split; [split|split].
  - accept_cases; intros ?; simplify_eq.
    rewrite llmJudgeDuplicate_answer in Hjudge.
    destruct (loadConfig w k); [|done].
    destruct (judgeAnswer w k proposal best) as [answer|] eqn:Hanswer;
      simplify_eq.
    by exists embedding, best, rest, answer.
  - intros (embedding & best & rest & answer & Hembed & Hsimilar & Hanswer
            & Hdup).
    pose proof (llmJudgeDuplicate_answer w k proposal best) as Hjudge.
    rewrite Hanswer in Hjudge.
    destruct (loadConfig w k) eqn:Hconfig;
      [|by unfold judgeAnswer in Hanswer; rewrite Hconfig in Hanswer].
    unfold acceptProposal, callOllama, callTaxonomy, tryJudge.
    rewrite Hembed. cbn [mapError bind]. rewrite Hsimilar. cbn [mapError bind].
    rewrite Hjudge. unfold saysDuplicate. by rewrite Hdup.
  - intros embedding best rest answer Hembed Hsimilar Hanswer Hdup Hadd Hstore.
    pose proof (llmJudgeDuplicate_answer w k proposal best) as Hjudge.
    rewrite Hanswer in Hjudge.
    destruct (loadConfig w k) eqn:Hconfig;
      [|by unfold judgeAnswer in Hanswer; rewrite Hconfig in Hanswer].
    unfold acceptProposal, callOllama, callTaxonomy, tryJudge.
    rewrite Hembed. cbn [mapError bind]. rewrite Hsimilar. cbn [mapError bind].
    rewrite Hjudge. unfold saysDuplicate. rewrite Hdup.
    cbn [bind succeed app isDuplicate]. by rewrite Hadd, Hstore.
  - intros answer. by apply includes_trimmed.
Qed.

(** Claim C9.  [isValidConceptId] holds exactly of the identifiers
    [parent/child] whose parent is one of the eight categories and whose
    child has no slash and no space, at most 4 hyphen-separated words and
    at most 30 characters (as [child.length] counts them), and is neither
    [concept] nor [new], and that are in lower case: lower-casing leaves
    them as they are, which for a child of ASCII characters means that it
    holds no capital letter.  [validateProposedConcepts] keeps proposals
    it was given, and such ones only; and every call that [enrich] has the
    curator make (embedding, retrieval, judge, persistence) is about one
    of them. *)
Theorem invalid_proposals_never_reach_pipeline (w : World)
    (llmProposals : option (option (list ProposedConcept.t))) :
  (forall lower id,
     isValidConceptId lower id = true <-> structurallyValid lower id)
  /\ (forall lower parent child,
        parent ∈ validParents -> isAscii child = true ->
        toLowerCase lower (parent +:+ "/" +:+ child)
        = parent +:+ "/" +:+ child
        <-> allChars (fun c => negb (isUpperAscii c)) child = true)
  /\ (forall lower raw p,
        p ∈ validateProposedConcepts lower raw ->
        p ∈ default [] raw /\ structurallyValid lower (ProposedConcept.id p))
  /\ (forall ev,
        ev ∈ events (enrichProposals w llmProposals) ->
        exists raw p,
          llmProposals = Some raw /\ p ∈ default [] raw
          /\ eventConceptId ev = ProposedConcept.id p
          /\ structurallyValid (engineLowerCase w) (ProposedConcept.id p)).
Proof.
  split_and!.
  - intros lower id. split; [apply isValidConceptId_valid|].
    apply structurallyValid_isValid.
  - apply lowercase_child.
  - intros lower raw p [Hin Hp]%validateProposedConcepts_valid.
    split; [done|]. by apply isValidConceptId_valid.
  - intros ev (raw & p & Hraw & Hp & Hev)%enrichProposals_events.
    apply validateProposedConcepts_valid in Hp as [Hin Hp].
    exists raw, p. split_and!; [done..|]. by apply isValidConceptId_valid.
Qed.

(** Claim C10.  When [autoAcceptProposals] succeeds, the two counts add up to
    the number of proposals, [accepted] is the number of proposals the loop
    body accepted, and the calls of [addConcept] and
    [storeConceptEmbedding] are one pair for each of these, in order, and
    no other. *)
Theorem accept_counts_match_persistence (w : World)
    (proposals : list ProposedConcept.t) (counts : AcceptCounts) :
  exit (autoAcceptProposals w proposals) = Success counts ->
  accepted counts + rejected counts = length proposals
  /\ accepted counts = length (acceptedOf w 0 proposals)
  /\ persistCalls (events (autoAcceptProposals w proposals))
     = flat_map (fun p => [Added p; Stored (ProposedConcept.id p)])
         (acceptedOf w 0 proposals).
Proof.
  unfold autoAcceptProposals. destruct proposals as [|proposal proposals].
  { simpl. by intros [= <-]. }
  cbn [length Nat.eqb]. rewrite exit_mapError_Success, events_mapError.
  intros Hexit. apply acceptLoop_counts in Hexit as (Ha & Hsum & Hcalls).
  split_and!; [|done..]. simpl in *. lia.
Qed.

(** *** The scenarios of the design *)

(** Scenario C: no candidate above the threshold, the concept is persisted. *)
Example scenario_no_candidate :
  exit (autoAcceptProposals duplicateSecond [machineLearning])
  = Success {| accepted := 1; rejected := 0 |}
  /\ persistCalls (events (autoAcceptProposals duplicateSecond
                             [machineLearning]))
     = [Added machineLearning; Stored "programming/machine-learning"].
Proof. by vm_compute. Qed.

(** Scenario D: a candidate, and the judge answers DUPLICATE. *)
Example scenario_duplicate :
  exit (autoAcceptProposals
          (sampleWorld (fun _ => [existingML])
             (GenerateJson (Some "DUPLICATE")))
          [machineLearning])
  = Success {| accepted := 0; rejected := 1 |}
  /\ persistCalls (events (autoAcceptProposals
                             (sampleWorld (fun _ => [existingML])
                                (GenerateJson (Some "DUPLICATE")))
                             [machineLearning]))
     = [].
Proof. by vm_compute. Qed.

(** The judge answers the word with a dotless i (U+0131): its upper case is
    the letter I, and the proposal is rejected. *)
Example scenario_dotless_i :
  saysDuplicate ("dupl" +:+ String "196" (String "177" "cate")) = true
  /\ exit (acceptProposal
             (sampleWorld (fun _ => [existingML])
                (GenerateJson
                   (Some ("dupl" +:+ String "196" (String "177" "cate")))))
             0 machineLearning)
     = Success false.
Proof. by vm_compute. Qed.

(** Scenario E: the identifier [new/concept] does not pass the validation. *)
Example scenario_placeholder_id :
  isValidConceptId sampleLowerCase "new/concept" = false
  /\ validateProposedConcepts sampleLowerCase
       (Some [ProposedConcept.mk "new/concept" "New Concept" None None;
              machineLearning])
     = [machineLearning].
Proof. by vm_compute. Qed.

(** *** Witnesses *)

Lemma dedup_fail_open_witness :
  acceptProposal unreachableJudge 0 machineLearning
  = ([EvEmbed machineLearning (proposalText machineLearning);
      EvFindSimilar machineLearning [1%float] 0.75%float;
      EvJudge machineLearning existingML;
      EvAddConcept machineLearning;
      EvStoreConceptEmbedding (ProposedConcept.id machineLearning)
        [1%float]],
     Success true).
Proof.
  apply (dedup_fail_open unreachableJudge 0 machineLearning [1%float]
           existingML [] {| isDuplicate := false; available := false |}
           [] 0 0 eq_refl eq_refl eq_refl eq_refl); reflexivity.
Defined.

Lemma accept_counts_match_persistence_witness :
  accepted {| accepted := 1; rejected := 1 |}
  + rejected {| accepted := 1; rejected := 1 |}
  = length [machineLearning; deepLearning]
  /\ accepted {| accepted := 1; rejected := 1 |}
     = length (acceptedOf duplicateSecond 0 [machineLearning; deepLearning])
  /\ persistCalls
       (events (autoAcceptProposals duplicateSecond
                  [machineLearning; deepLearning]))
     = flat_map (fun p => [Added p; Stored (ProposedConcept.id p)])
         (acceptedOf duplicateSecond 0 [machineLearning; deepLearning]).
Proof.
  apply (accept_counts_match_persistence duplicateSecond
           [machineLearning; deepLearning]
           {| accepted := 1; rejected := 1 |}).
  reflexivity.
Defined.

(** *** Failures, the judge and the embeddings stored *)

Lemma acceptLoop_trace w proposals : forall k nAccepted nRejected,
  match exit (acceptLoop w k proposals nAccepted nRejected) with
  | Success _ =>
      events (acceptLoop w k proposals nAccepted nRejected)
      = bodyEvents w k proposals
      /\ forall i p, proposals !! i = Some p ->
           isSuccess (exit (acceptProposal w (k + i) p))
  | Failure e =>
      exists n proposal,
        proposals !! n = Some proposal
        /\ exit (acceptProposal w (k + n) proposal) = Failure e
        /\ (forall i p, i < n -> proposals !! i = Some p ->
              isSuccess (exit (acceptProposal w (k + i) p)))
        /\ events (acceptLoop w k proposals nAccepted nRejected)
           = bodyEvents w k (take (S n) proposals)
  end.
Proof.
  induction proposals as [|proposal proposals IH]; intros k nA nR.
  - simpl. split; [done|]. by intros i p ?.
  - rewrite acceptLoop_cons.
    destruct (acceptProposal w k proposal) as [tr [e|b]] eqn:Hstep.
    + rewrite bind_failure. simpl. exists 0, proposal.
      rewrite Nat.add_0_r, Hstep, take_0. simpl.
      split_and!; [done|done|intros; lia|by rewrite app_nil_r].
    + rewrite bind_success. cbn [exit events fst snd].
      assert (forall nA' nR',
        match exit (acceptLoop w (S k) proposals nA' nR') with
        | Success _ =>
            tr ++ events (acceptLoop w (S k) proposals nA' nR')
            = bodyEvents w k (proposal :: proposals)
            /\ forall i p, (proposal :: proposals) !! i = Some p ->
                 isSuccess (exit (acceptProposal w (k + i) p))
        | Failure e =>
            exists n proposal0,
              (proposal :: proposals) !! n = Some proposal0
              /\ exit (acceptProposal w (k + n) proposal0) = Failure e
              /\ (forall i p, i < n -> (proposal :: proposals) !! i = Some p ->
                    isSuccess (exit (acceptProposal w (k + i) p)))
              /\ tr ++ events (acceptLoop w (S k) proposals nA' nR')
                 = bodyEvents w k (take (S n) (proposal :: proposals))
        end) as Hrest.
      { intros nA' nR'. specialize (IH (S k) nA' nR').
        destruct (exit (acceptLoop w (S k) proposals nA' nR')) as [e|c].
        - destruct IH as (n & p & Hn & He & Hbefore & Hev).
          exists (S n), p. rewrite Nat.add_succ_r.
          split_and!; [done|done| |].
          + intros [|i] q Hi Hq.
            * injection Hq as <-. by rewrite Nat.add_0_r, Hstep.
            * rewrite Nat.add_succ_r. apply Hbefore; [lia|done].
          + simpl. by rewrite Hstep, Hev.
        - destruct IH as [Hev Hall]. split.
          + simpl. by rewrite Hstep, Hev.
          + intros [|i] q Hq.
            * injection Hq as <-. by rewrite Nat.add_0_r, Hstep.
            * rewrite Nat.add_succ_r. by apply Hall. }
      destruct b; apply Hrest.
Qed.

Lemma elem_of_bodyEvents w proposals : forall k ev,
  ev ∈ bodyEvents w k proposals
  <-> exists i p, proposals !! i = Some p
        /\ ev ∈ events (acceptProposal w (k + i) p).
Proof.
  induction proposals as [|proposal proposals IH]; intros k ev; simpl.
  - split; [by intros ?%elem_of_nil|]. by intros (i & p & ? & _).
  - rewrite elem_of_app, IH. split.
    + intros [Hev|(i & p & Hp & Hev)].
      * exists 0, proposal. by rewrite Nat.add_0_r.
      * exists (S i), p. by rewrite Nat.add_succ_r.
    + intros ([|i] & p & Hp & Hev).
      * left. injection Hp as <-. by rewrite Nat.add_0_r in Hev.
      * right. exists i, p. by rewrite Nat.add_succ_r in Hev.
Qed.

Lemma persistCalls_bodyEvents w proposals : forall k,
  (forall i p, proposals !! i = Some p ->
     isSuccess (exit (acceptProposal w (k + i) p))) ->
  persistCalls (bodyEvents w k proposals)
  = flat_map (fun p => [Added p; Stored (ProposedConcept.id p)])
      (acceptedOf w k proposals).
Proof.
  induction proposals as [|proposal proposals IH]; intros k Hall; [done|].
  simpl. unfold persistCalls in *. rewrite omap_app.
  rewrite IH.
  2:{ intros i p Hp. specialize (Hall (S i) p Hp).
      by rewrite Nat.add_succ_r in Hall. }
  specialize (Hall 0 proposal eq_refl). rewrite Nat.add_0_r in Hall.
  unfold isAccepted.
  destruct (acceptProposal w k proposal) as [tr [e|b]] eqn:Hstep; [done|].
  pose proof (acceptProposal_persistCalls w k proposal tr b Hstep) as Htr.
  unfold persistCalls in Htr. simpl. rewrite Htr. by destruct b.
Qed.

Lemma autoAcceptProposals_events w proposals :
  events (autoAcceptProposals w proposals)
  = events (acceptLoop w 0 proposals 0 0).
Proof.
  unfold autoAcceptProposals. destruct proposals as [|p proposals]; [done|].
  simpl length. cbn [Nat.eqb]. apply events_mapError.
Qed.

Lemma autoAcceptProposals_exit w proposals :
  exit (autoAcceptProposals w proposals)
  = match exit (acceptLoop w 0 proposals 0 0) with
    | Success counts => Success counts
    | Failure e => Failure (enrichmentError e)
    end.
Proof.
  unfold autoAcceptProposals. destruct proposals as [|p proposals]; [done|].
  simpl length. cbn [Nat.eqb].
  by destruct (acceptLoop w 0 (p :: proposals) 0 0) as [tr [e|c]].
Qed.

(** Property X12.  [autoAcceptProposals] stops at the first proposal whose
    processing fails, and reports that failure as an [EnrichmentError]
    whose message is built from it. The proposals before it were all
    decided, nothing is done for the proposals after it, and nothing is
    undone: the concepts accepted before the failure stay added, with
    their embeddings, followed by whatever the failing body had persisted
    itself. *)
Theorem autoAccept_stops_at_first_failure (w : World)
    (proposals : list ProposedConcept.t) (err : EnrichmentError) :
  exit (autoAcceptProposals w proposals) = Failure err ->
  exists n proposal,
    proposals !! n = Some proposal
    /\ exit (acceptProposal w n proposal) = Failure (cause err)
    /\ err = enrichmentError (cause err)
    /\ (forall i p, i < n -> proposals !! i = Some p ->
          isSuccess (exit (acceptProposal w i p)))
    /\ events (autoAcceptProposals w proposals)
       = bodyEvents w 0 (take (S n) proposals)
    /\ persistCalls (events (autoAcceptProposals w proposals))
       = flat_map (fun p => [Added p; Stored (ProposedConcept.id p)])
           (acceptedOf w 0 (take n proposals))
         ++ persistCalls (events (acceptProposal w n proposal)).
Proof.
  rewrite autoAcceptProposals_exit, autoAcceptProposals_events.
  pose proof (acceptLoop_trace w proposals 0 0 0) as Htrace.
  destruct (exit (acceptLoop w 0 proposals 0 0)) as [e|c]; [|done].
  intros [= <-]. destruct Htrace as (n & p & Hn & He & Hbefore & Hev).
  exists n, p. simpl in *. split_and!; try done.
  rewrite Hev, (take_S_r _ _ _ Hn).
  assert (forall l k, bodyEvents w k (l ++ [p])
            = bodyEvents w k l ++ events (acceptProposal w (k + length l) p))
    as Hsnoc.
  { induction l as [|q l IH]; intros k; simpl.
    - by rewrite app_nil_r, Nat.add_0_r.
    - by rewrite IH, Nat.add_succ_r, app_assoc. }
  rewrite Hsnoc. unfold persistCalls at 1. rewrite omap_app.
  fold (persistCalls (bodyEvents w 0 (take n proposals))).
  rewrite persistCalls_bodyEvents.
  - simpl. rewrite length_take_le; [done|].
    apply lookup_lt_Some in Hn. lia.
  - intros i q Hq. apply lookup_take_Some in Hq as [Hq Hi].
    by apply Hbefore.
Qed.

(** Property X13.  Step 3 of [enrich] never fails. When
    [autoAcceptProposals] fails, its calls have been made all the same
    (concepts accepted before the failure stay persisted) and the counts
    reported are 0 accepted and 0 rejected; when it succeeds, its counts
    are the counts reported. *)
Theorem enrichProposals_never_fails (w : World)
    (llmProposals : option (option (list ProposedConcept.t))) :
  isSuccess (exit (enrichProposals w llmProposals))
  /\ (forall raw err,
        llmProposals = Some raw ->
        exit (autoAcceptProposals w
                (validateProposedConcepts (engineLowerCase w) raw))
          = Failure err ->
        enrichProposals w llmProposals
        = (events (autoAcceptProposals w
                (validateProposedConcepts (engineLowerCase w) raw)),
           Success {| accepted := 0; rejected := 0 |}))
  /\ (forall raw counts,
        llmProposals = Some raw ->
        exit (autoAcceptProposals w
                (validateProposedConcepts (engineLowerCase w) raw))
          = Success counts ->
        enrichProposals w llmProposals
        = (events (autoAcceptProposals w
                (validateProposedConcepts (engineLowerCase w) raw)),
           Success counts)).
Proof.
  unfold enrichProposals. destruct llmProposals as [raw|]; simpl.
  2:{ split_and!; [done|intros; discriminate..]. }
  destruct (validateProposedConcepts (engineLowerCase w) raw)
    as [|p proposals] eqn:Hvalid.
  { simpl. split_and!; [done|intros ? ? [= <-]..].
    - by rewrite Hvalid.
    - rewrite Hvalid. by intros [= <-]. }
  cbn [length Nat.ltb Nat.leb].
  destruct (autoAcceptProposals w (p :: proposals)) as [tr [e|c]] eqn:Hrun;
    simpl.
  - split_and!; [done|intros ? ? [= <-]..]; rewrite Hvalid, Hrun; simpl.
    + intros _. by rewrite app_nil_r.
    + done.
  - split_and!; [done|intros ? ? [= <-]..]; rewrite Hvalid, Hrun; simpl.
    + done.
    + by intros [= <-].
Qed.

(** Property X14.  When the body of the loop fails although [addConcept]
    was called and succeeded, it is [storeConceptEmbedding] that failed:
    the concept has been added to the taxonomy, without its embedding, and
    the failure is the error of the taxonomy. *)
Theorem store_failure_leaves_concept_added (w : World) (k : nat)
    (proposal : ProposedConcept.t) (e : AcceptFailure) :
  exit (acceptProposal w k proposal) = Failure e ->
  EvAddConcept proposal ∈ events (acceptProposal w k proposal) ->
  addConcept w k proposal = Success tt ->
  exists embedding e',
    embed w k (proposalText proposal) = Success embedding
    /\ storeConceptEmbedding w k (ProposedConcept.id proposal) embedding
       = Failure e'
    /\ e = TaxonomyFailed e'
    /\ persistCalls (events (acceptProposal w k proposal))
       = [Added proposal; Stored (ProposedConcept.id proposal)].
Proof.
  accept_cases; intros Hexit Hev Hadd'; try discriminate;
    try (repeat (apply elem_of_cons in Hev as [?|Hev]; [discriminate|]);
         by apply elem_of_nil in Hev);
    injection Hexit as <-; by eexists _, _.
Qed.

Lemma judgeCalls_acceptProposal w k proposal :
  judgeCalls (events (acceptProposal w k proposal))
  = match embed w k (proposalText proposal) with
    | Success embedding =>
        match findSimilarConcepts w k embedding 0.75%float with
        | Success (best :: _) => [(proposal, best)]
        | _ => []
        end
    | Failure _ => []
    end.
Proof. accept_cases; reflexivity. Qed.

Lemma judgeCalls_bodyEvents w proposals : forall k,
  length (judgeCalls (bodyEvents w k proposals)) <= length proposals.
Proof.
  induction proposals as [|p proposals IH]; intros k; [done|].
  simpl. unfold judgeCalls in *. rewrite omap_app, length_app.
  specialize (IH (S k)).
  pose proof (judgeCalls_acceptProposal w k p) as Hp.
  unfold judgeCalls in Hp. rewrite Hp.
  destruct (embed w k (proposalText p)) as [e|embedding]; simpl; [lia|].
  destruct (findSimilarConcepts w k embedding 0.75%float) as [e|[|best rest]];
    simpl; lia.
Qed.

Lemma run_is_bodyEvents w proposals :
  exists m,
    m <= length proposals
    /\ (isSuccess (exit (acceptLoop w 0 proposals 0 0)) ->
        m = length proposals)
    /\ events (autoAcceptProposals w proposals)
       = bodyEvents w 0 (take m proposals).
Proof.
  rewrite autoAcceptProposals_events.
  pose proof (acceptLoop_trace w proposals 0 0 0) as Htrace.
  destruct (exit (acceptLoop w 0 proposals 0 0)) as [e|c].
  - destruct Htrace as (n & p & Hn%lookup_lt_Some & _ & _ & ->).
    exists (S n). split_and!; [lia|done|done].
  - destruct Htrace as [-> _]. exists (length proposals).
    by rewrite firstn_all.
Qed.

(** Property X15.  The judge is consulted at most once per proposal, and
    only about the best candidate: every call of the judge in a run is for
    a proposal whose embedding succeeded and whose similarity search found
    candidates, and compares it with the first of them, no other; no call
    is made when the embedding or the search fails or finds nothing. *)
Theorem judge_consulted_for_best_candidate_only (w : World)
    (proposals : list ProposedConcept.t) :
  length (judgeCalls (events (autoAcceptProposals w proposals)))
  <= length proposals
  /\ (forall proposal existing,
        EvJudge proposal existing ∈ events (autoAcceptProposals w proposals) ->
        exists k embedding rest,
          proposals !! k = Some proposal
          /\ embed w k (proposalText proposal) = Success embedding
          /\ findSimilarConcepts w k embedding 0.75%float
             = Success (existing :: rest))
  /\ (forall k proposal,
        judgeCalls (events (acceptProposal w k proposal))
        = match embed w k (proposalText proposal) with
          | Success embedding =>
              match findSimilarConcepts w k embedding 0.75%float with
              | Success (best :: _) => [(proposal, best)]
              | _ => []
              end
          | Failure _ => []
          end).
Proof.
  destruct (run_is_bodyEvents w proposals) as (m & Hm & _ & ->).
  split_and!.
  - etrans; [apply judgeCalls_bodyEvents|]. rewrite length_take. lia.
  - intros proposal existing.
    intros (i & q & [Hq _]%lookup_take_Some & Hin)%elem_of_bodyEvents.
    simpl in Hin. exists i.
    assert (proposal = q
            /\ exists embedding rest,
                 embed w i (proposalText q) = Success embedding
                 /\ findSimilarConcepts w i embedding 0.75%float
                    = Success (existing :: rest))
      as (-> & embedding & rest & ? & ?).
    { revert Hin. clear. accept_cases; intros Hev;
        repeat (apply elem_of_cons in Hev as [Hev|Hev];
                [try discriminate|]);
        try (by apply elem_of_nil in Hev);
        injection Hev as <- <-; (split; [done|]); by eexists _, _. }
    by exists embedding, rest.
  - apply judgeCalls_acceptProposal.
Qed.

(** Property X16.  An embedding is stored only under the identifier of a
    proposal of the run, only after [addConcept] was called for that
    proposal and succeeded, and it is the vector the embedding client
    returned for the text of that proposal. *)
Theorem stored_embedding_is_computed_embedding (w : World)
    (proposals : list ProposedConcept.t) (id : string)
    (embedding : list float) :
  EvStoreConceptEmbedding id embedding
    ∈ events (autoAcceptProposals w proposals) ->
  exists k proposal,
    proposals !! k = Some proposal
    /\ id = ProposedConcept.id proposal
    /\ embed w k (proposalText proposal) = Success embedding
    /\ addConcept w k proposal = Success tt
    /\ EvAddConcept proposal ∈ events (autoAcceptProposals w proposals).
Proof.
  rewrite autoAcceptProposals_events.
  pose proof (acceptLoop_trace w proposals 0 0 0) as Htrace.
  assert (exists l, events (acceptLoop w 0 proposals 0 0) = bodyEvents w 0 l
                    /\ forall i p, l !! i = Some p -> proposals !! i = Some p)
    as (l & -> & Hl).
  { destruct (exit (acceptLoop w 0 proposals 0 0)) as [e|c].
    - destruct Htrace as (n & p & _ & _ & _ & ->).
      eexists. split; [done|]. by intros i q [? _]%lookup_take_Some.
    - destruct Htrace as [-> _]. by exists proposals. }
  intros (i & p & Hp & Hev)%elem_of_bodyEvents. simpl in Hev.
  exists i, p. split; [by apply Hl|].
  assert (id = ProposedConcept.id p
          /\ embed w i (proposalText p) = Success embedding
          /\ addConcept w i p = Success tt
          /\ EvAddConcept p ∈ events (acceptProposal w i p))
    as (? & ? & ? & Hadd).
  { revert Hev. clear. accept_cases; intros Hev;
      repeat (apply elem_of_cons in Hev as [Hev|Hev];
              [try discriminate|]);
      try (by apply elem_of_nil in Hev);
      injection Hev as <- <-; split_and!; try done;
      repeat first [by left | right]. }
  split_and!; try done.
  apply elem_of_bodyEvents. by exists i, p.
Qed.

Lemma embedCalls_acceptProposal w k proposal :
  embedCalls (events (acceptProposal w k proposal))
  = [(proposal, proposalText proposal)].
Proof. accept_cases; reflexivity. Qed.

Lemma embedCalls_bodyEvents w proposals : forall k,
  embedCalls (bodyEvents w k proposals)
  = map (fun p => (p, proposalText p)) proposals.
Proof.
  induction proposals as [|p proposals IH]; intros k; [done|].
  simpl. unfold embedCalls in *. rewrite omap_app, IH.
  pose proof (embedCalls_acceptProposal w k p) as Hp.
  unfold embedCalls in Hp. by rewrite Hp.
Qed.

(** Property X17.  A run of [autoAcceptProposals] embeds the proposals one
    by one in the order given, each once, with the text built from its
    label and definition: all of them when the run succeeds, those up to
    the failing one otherwise. Every similarity search of the run uses the
    threshold 0.75 and the embedding computed for the proposal it is
    about. *)
Theorem autoAccept_embeds_each_proposal_once (w : World)
    (proposals : list ProposedConcept.t) :
  exists m,
    m <= length proposals
    /\ (isSuccess (exit (autoAcceptProposals w proposals)) ->
        m = length proposals)
    /\ embedCalls (events (autoAcceptProposals w proposals))
       = map (fun p => (p, proposalText p)) (take m proposals)
    /\ (forall p embedding threshold,
          EvFindSimilar p embedding threshold
            ∈ events (autoAcceptProposals w proposals) ->
          threshold = 0.75%float
          /\ exists k, proposals !! k = Some p
               /\ embed w k (proposalText p) = Success embedding).
Proof.
  rewrite autoAcceptProposals_events, autoAcceptProposals_exit.
  pose proof (acceptLoop_trace w proposals 0 0 0) as Htrace.
  assert (exists m, m <= length proposals
            /\ (isSuccess (exit (acceptLoop w 0 proposals 0 0)) ->
                m = length proposals)
            /\ events (acceptLoop w 0 proposals 0 0)
               = bodyEvents w 0 (take m proposals))
    as (m & Hm & Hsucc & Hev).
  { destruct (exit (acceptLoop w 0 proposals 0 0)) as [e|c].
    - destruct Htrace as (n & p & Hn%lookup_lt_Some & _ & _ & ->).
      exists (S n). split_and!; [lia|done|done].
    - destruct Htrace as [-> _]. exists (length proposals).
      by rewrite firstn_all. }
  exists m. split_and!; [done| | |].
  - intros Hs. apply Hsucc.
    by destruct (exit (acceptLoop w 0 proposals 0 0)).
  - by rewrite Hev, embedCalls_bodyEvents.
  - intros p embedding threshold. rewrite Hev.
    intros (i & q & [Hq _]%lookup_take_Some & Hin)%elem_of_bodyEvents.
    simpl in Hin.
    assert (threshold = 0.75%float /\ p = q
            /\ embed w i (proposalText q) = Success embedding)
      as (? & -> & ?).
    { revert Hin. clear. accept_cases; intros Hev;
        repeat (apply elem_of_cons in Hev as [Hev|Hev];
                [try discriminate|]);
        try (by apply elem_of_nil in Hev);
        by injection Hev as <- <- <-. }
    split; [done|]. by exists i.
Qed.

(** Witnesses of the properties of the loop. *)

Lemma autoAccept_stops_at_first_failure_witness :
  exists n proposal,
    [machineLearning; deepLearning] !! n = Some proposal
    /\ exit (acceptProposal embedFailsSecond n proposal)
       = Failure (OllamaFailed
                    {| Ollama.reason := "Connection failed: refused" |})
    /\ persistCalls (events (autoAcceptProposals embedFailsSecond
                               [machineLearning; deepLearning]))
       = flat_map (fun p => [Added p; Stored (ProposedConcept.id p)])
           (acceptedOf embedFailsSecond 0
              (take n [machineLearning; deepLearning]))
         ++ persistCalls (events (acceptProposal embedFailsSecond n proposal)).
Proof.
  destruct (autoAccept_stops_at_first_failure embedFailsSecond
              [machineLearning; deepLearning]
              (enrichmentError
                 (OllamaFailed
                    {| Ollama.reason := "Connection failed: refused" |}))
              eq_refl)
    as (n & proposal & Hn & He & _ & _ & _ & Hpersist).
  exists n, proposal. split; [exact Hn|]. split; [exact He|exact Hpersist].
Defined.

Lemma store_failure_leaves_concept_added_witness :
  persistCalls (events (acceptProposal storeFails 0 machineLearning))
  = [Added machineLearning; Stored (ProposedConcept.id machineLearning)].
Proof.
  assert (Hadd : EvAddConcept machineLearning
                   ∈ events (acceptProposal storeFails 0 machineLearning)).
  { vm_compute. right. right. left. }
  destruct (store_failure_leaves_concept_added storeFails 0 machineLearning
              (TaxonomyFailed {| taxonomyReason := "database is locked" |})
              eq_refl Hadd eq_refl)
    as (embedding & e' & _ & _ & _ & Hpersist).
  exact Hpersist.
Defined.

Lemma stored_embedding_is_computed_embedding_witness :
  exists k proposal,
    [machineLearning] !! k = Some proposal
    /\ embed duplicateSecond k (proposalText proposal) = Success [1%float].
Proof.
  assert (Hstore : EvStoreConceptEmbedding "programming/machine-learning"
                     [1%float]
                     ∈ events (autoAcceptProposals duplicateSecond
                                 [machineLearning])).
  { vm_compute. do 3 right. left. }
  destruct (stored_embedding_is_computed_embedding duplicateSecond
              [machineLearning] "programming/machine-learning" [1%float]
              Hstore)
    as (k & proposal & Hk & _ & Hembed & _).
  exists k, proposal. split; [exact Hk|exact Hembed].
Defined.

(** Property X18.  The verdict of the judge is read off the answer by
    searching it for the word DUPLICATE, whatever the letter case and
    whatever stands around it. Any answer that contains the word, the
    sentence [These are NOT duplicates.] included, makes the judge say
    duplicate, and the proposal is rejected without any call that
    persists it. *)
Theorem judge_answer_containing_duplicate (w : World) (k : nat)
    (proposal : ProposedConcept.t) (embedding : list float)
    (best : Concept.t) (rest : list Concept.t) (before word after : string) :
  toUpperCase word = "DUPLICATE" ->
  embed w k (proposalText proposal) = Success embedding ->
  findSimilarConcepts w k embedding 0.75%float = Success (best :: rest) ->
  judgeAnswer w k proposal best = Some (before +:+ word +:+ after) ->
  llmJudgeDuplicate w k proposal best
  = Some {| isDuplicate := true; available := true |}
  /\ acceptProposal w k proposal
     = ([EvEmbed proposal (proposalText proposal);
         EvFindSimilar proposal embedding 0.75%float;
         EvJudge proposal best],
        Success false).
Proof.
  intros Hword Hembed Hsimilar Hanswer.
  assert (llmJudgeDuplicate w k proposal best
          = Some {| isDuplicate := true; available := true |}) as Hjudge.
  { rewrite llmJudgeDuplicate_answer, Hanswer.
    unfold saysDuplicate. rewrite (saysDuplicate_containing _ _ _ Hword).
    unfold judgeAnswer in Hanswer. by destruct (loadConfig w k). }
  split; [done|].
  unfold acceptProposal, callOllama, callTaxonomy, tryJudge.
  by rewrite Hembed; simpl; rewrite Hsimilar; simpl; rewrite Hjudge.
Qed.

Lemma judge_answer_containing_duplicate_witness :
  acceptProposal
    talkativeJudge 0 machineLearning
  = ([EvEmbed machineLearning (proposalText machineLearning);
      EvFindSimilar machineLearning [1%float] 0.75%float;
      EvJudge machineLearning existingML],
     Success false).
Proof.
  apply (judge_answer_containing_duplicate
           talkativeJudge 0 machineLearning [1%float] existingML []
           "These are NOT " "duplicate" "s." eq_refl eq_refl eq_refl eq_refl).
Defined.

(** *** Tags *)

Lemma prefix_nil (s : string) : String.prefix "" s = true.
Proof. by destruct s. Qed.

Lemma prefix_hyphen_cons (c : ascii) (s : string) :
  String.prefix "-" (String c s) = Ascii.eqb c "-".
Proof.
  change (String.prefix "-" (String c s))
    with (if ascii_dec "-" c then String.prefix "" s else false).
  destruct (ascii_dec "-" c) as [<-|Hne].
  - by rewrite prefix_nil.
  - symmetry. apply Ascii.eqb_neq. congruence.
Qed.

Lemma includes_hyphens_cons (c : ascii) (s : string) :
  includes (String c s) "--"
  = (Ascii.eqb c "-" && String.prefix "-" s) || includes s "--".
Proof.
  cbn [includes]. f_equal.
  change (String.prefix "--" (String c s))
    with (if ascii_dec "-" c then String.prefix "-" s else false).
  destruct (ascii_dec "-" c) as [<-|Hne]; [done|].
  symmetry. apply andb_false_iff. left. apply Ascii.eqb_neq. congruence.
Qed.

Lemma allChars_mapChars p f s :
  (forall c, p (f c) = true) -> allChars p (mapChars f s) = true.
Proof. intros Hf. induction s as [|c s IH]; simpl; [done|]. by rewrite Hf. Qed.

Lemma mapChars_id f p s :
  (forall c, p c = true -> f c = c) -> allChars p s = true -> mapChars f s = s.
Proof.
  intros Hf. induction s as [|c s IH]; simpl; [done|].
  intros [Hc Hs]%andb_true_iff. by rewrite Hf, IH.
Qed.

Lemma isTagChar_lowerChar c : isTagChar c = true -> lowerChar c = c.
Proof. destruct c as [[] [] [] [] [] [] [] []]; by vm_compute. Qed.

Lemma allChars_replaceNonTagChars s :
  allChars isTagChar (replaceNonTagChars s) = true.
Proof.
  apply allChars_mapChars. intros c. by destruct (isTagChar c) eqn:Hc.
Qed.

Lemma prefix_collapseHyphens s :
  String.prefix "-" (collapseHyphens s) = String.prefix "-" s.
Proof.
  induction s as [|c s IH]; [done|]. cbn [collapseHyphens].
  destruct (Ascii.eqb c "-" && String.prefix "-" s) eqn:Hcs.
  - apply andb_true_iff in Hcs as [Hc Hs].
    by rewrite IH, Hs, prefix_hyphen_cons, Hc.
  - by rewrite !prefix_hyphen_cons.
Qed.

Lemma allChars_collapseHyphens p s :
  allChars p s = true -> allChars p (collapseHyphens s) = true.
Proof.
  induction s as [|c s IH]; [done|]. cbn [collapseHyphens allChars].
  intros [Hc Hs]%andb_true_iff.
  destruct (_ && _); [by apply IH|]. cbn [allChars]. by rewrite Hc, IH.
Qed.

Lemma includes_collapseHyphens s : includes (collapseHyphens s) "--" = false.
Proof.
  induction s as [|c s IH]; [done|]. cbn [collapseHyphens].
  destruct (Ascii.eqb c "-" && String.prefix "-" s) eqn:Hcs; [done|].
  by rewrite includes_hyphens_cons, prefix_collapseHyphens, Hcs, IH.
Qed.

Lemma collapseHyphens_id s : includes s "--" = false -> collapseHyphens s = s.
Proof.
  induction s as [|c s IH]; [done|].
  rewrite includes_hyphens_cons. intros [Hcs Hs]%orb_false_iff.
  cbn [collapseHyphens]. by rewrite Hcs, IH.
Qed.

Lemma allChars_stripLeadingHyphen p s :
  allChars p s = true -> allChars p (stripLeadingHyphen s) = true.
Proof.
  destruct s as [|c s]; [done|]. simpl.
  intros [Hc Hs]%andb_true_iff. destruct (Ascii.eqb c "-"); [done|].
  simpl. by rewrite Hc.
Qed.

Lemma includes_stripLeadingHyphen s :
  includes s "--" = false -> includes (stripLeadingHyphen s) "--" = false.
Proof.
  destruct s as [|c s]; [done|]. rewrite includes_hyphens_cons.
  intros [Hcs Hs]%orb_false_iff. simpl stripLeadingHyphen.
  destruct (Ascii.eqb c "-") eqn:Hc; [done|].
  by rewrite includes_hyphens_cons, Hc.
Qed.

Lemma prefix_stripLeadingHyphen s :
  includes s "--" = false -> String.prefix "-" (stripLeadingHyphen s) = false.
Proof.
  destruct s as [|c s]; [done|]. rewrite includes_hyphens_cons.
  intros [Hcs Hs]%orb_false_iff. simpl stripLeadingHyphen.
  destruct (Ascii.eqb c "-") eqn:Hc; [done|].
  by rewrite prefix_hyphen_cons.
Qed.

Lemma allChars_stripTrailingHyphen p s :
  allChars p s = true -> allChars p (stripTrailingHyphen s) = true.
Proof.
  induction s as [|c s IH]; [done|]. cbn [stripTrailingHyphen allChars].
  intros [Hc Hs]%andb_true_iff.
  destruct (_ && _); [done|]. cbn [allChars]. by rewrite Hc, IH.
Qed.

Lemma prefix_stripTrailingHyphen s :
  String.prefix "-" s = false ->
  String.prefix "-" (stripTrailingHyphen s) = false.
Proof.
  destruct s as [|c s]; [done|]. rewrite prefix_hyphen_cons. intros Hc.
  cbn [stripTrailingHyphen]. rewrite Hc. cbn [andb].
  by rewrite prefix_hyphen_cons.
Qed.

Lemma includes_stripTrailingHyphen s :
  includes s "--" = false -> includes (stripTrailingHyphen s) "--" = false.
Proof.
  induction s as [|c s IH]; [done|]. rewrite includes_hyphens_cons.
  intros [Hcs Hs]%orb_false_iff. cbn [stripTrailingHyphen].
  destruct (Ascii.eqb c "-" && negb (truthy s)) eqn:Hend; [done|].
  rewrite includes_hyphens_cons, IH by done.
  rewrite orb_false_r. apply andb_false_iff.
  apply andb_false_iff in Hcs as [Hc|Hs']; [by left|right].
  destruct s as [|d s]; [done|]. rewrite prefix_hyphen_cons in Hs'.
  cbn [stripTrailingHyphen]. rewrite Hs'. cbn [andb].
  by rewrite prefix_hyphen_cons.
Qed.

Lemma lastChar_stripTrailingHyphen s :
  includes s "--" = false -> lastChar (stripTrailingHyphen s) <> Some "-"%char.
Proof.
  induction s as [|c s IH]; [done|]. rewrite includes_hyphens_cons.
  intros [Hcs Hs]%orb_false_iff. cbn [stripTrailingHyphen].
  destruct (Ascii.eqb c "-" && negb (truthy s)) eqn:Hend; [done|].
  specialize (IH Hs).
  destruct (stripTrailingHyphen s) as [|d s'] eqn:Hstrip.
  - cbn [lastChar]. intros [= ->].
    change (Ascii.eqb "-" "-") with true in Hcs, Hend. cbn [andb] in Hcs, Hend.
    destruct s as [|d s]; [done|].
    cbn [stripTrailingHyphen] in Hstrip.
    destruct (Ascii.eqb d "-" && negb (truthy s)) eqn:Hd; [|done].
    apply andb_true_iff in Hd as [Hd _].
    rewrite prefix_hyphen_cons in Hcs. by rewrite Hd in Hcs.
  - exact IH.
Qed.

Lemma stripLeadingHyphen_id s :
  String.prefix "-" s = false -> stripLeadingHyphen s = s.
Proof.
  destruct s as [|c s]; [done|]. rewrite prefix_hyphen_cons. simpl.
  by intros ->.
Qed.

Lemma stripTrailingHyphen_id s :
  lastChar s <> Some "-"%char -> stripTrailingHyphen s = s.
Proof.
  induction s as [|c s IH]; [done|]. cbn [stripTrailingHyphen].
  destruct s as [|d s].
  - simpl. intros Hc. destruct (Ascii.eqb c "-") eqn:Hc'; [|done].
    apply Ascii.eqb_eq in Hc'. by subst.
  - intros Hlast. rewrite andb_false_r. f_equal. by apply IH.
Qed.

Lemma normalizeTag_wellFormed lower tag :
  wellFormedTag (normalizeTag lower tag).
Proof.
  unfold normalizeTag, stripHyphens.
  set (s := collapseHyphens (replaceNonTagChars (toLowerCase lower tag))).
  assert (allChars isTagChar s = true) as Hchars.
  { apply allChars_collapseHyphens, allChars_replaceNonTagChars. }
  assert (includes s "--" = false) as Hs by apply includes_collapseHyphens.
  split_and!.
  - by apply allChars_stripTrailingHyphen, allChars_stripLeadingHyphen.
  - by apply includes_stripTrailingHyphen, includes_stripLeadingHyphen.
  - by apply prefix_stripTrailingHyphen, prefix_stripLeadingHyphen.
  - by apply lastChar_stripTrailingHyphen, includes_stripLeadingHyphen.
Qed.

Lemma allChars_impl (p q : ascii -> bool) s :
  (forall c, p c = true -> q c = true) ->
  allChars p s = true -> allChars q s = true.
Proof.
  intros Hpq. induction s as [|c s IH]; [done|]. simpl.
  intros [Hc Hs]%andb_true_iff. by rewrite (Hpq c Hc), IH.
Qed.

Lemma isTagChar_ascii c :
  isTagChar c = true -> (Ascii.nat_of_ascii c <? 128) = true.
Proof. destruct c as [[] [] [] [] [] [] [] []]; by vm_compute. Qed.

(** A string of ASCII characters has as many UTF-16 code units as bytes. *)
Lemma utf16Length_ascii s : isAscii s = true -> utf16Length s = String.length s.
Proof.
  unfold isAscii. induction s as [|c s IH]; [done|]. cbn [allChars].
  intros [Hc Hs]%andb_true_iff. cbn [utf16Length String.length].
  rewrite (IH Hs). f_equal. revert Hc. clear.
  destruct c as [[] [] [] [] [] [] [] []]; by vm_compute.
Qed.

Lemma wellFormedTag_ascii tag : wellFormedTag tag -> isAscii tag = true.
Proof.
  intros [Hchars _]. revert Hchars. apply allChars_impl, isTagChar_ascii.
Qed.

Lemma wellFormedTag_fixed lower tag :
  wellFormedTag tag -> normalizeTag lower tag = tag.
Proof.
  intros Htag. pose proof (wellFormedTag_ascii tag Htag) as Hascii.
  destruct Htag as (Hchars & Hdouble & Hfirst & Hlast).
  unfold normalizeTag, stripHyphens, toLowerCase, replaceNonTagChars.
  rewrite Hascii.
  rewrite (mapChars_id lowerChar isTagChar tag) by
    (done || apply isTagChar_lowerChar).
  rewrite (mapChars_id _ isTagChar tag); [|by intros c ->|done].
  rewrite collapseHyphens_id by done.
  rewrite stripLeadingHyphen_id by done.
  by apply stripTrailingHyphen_id.
Qed.











(** Property X20.  [normalizeTag] is idempotent, and the strings it leaves
    unchanged are exactly the tags in normal form. *)
Theorem normalizeTag_idempotent (unicodeLowerCase : string -> string)
    (tag : string) :
  normalizeTag unicodeLowerCase (normalizeTag unicodeLowerCase tag)
  = normalizeTag unicodeLowerCase tag
  /\ (normalizeTag unicodeLowerCase tag = tag <-> wellFormedTag tag).
Proof.
  split.
  - apply wellFormedTag_fixed, normalizeTag_wellFormed.
  - split; [|apply wellFormedTag_fixed].
    intros <-. apply normalizeTag_wellFormed.
Qed.

(** *** Sets of tags *)

Lemma foldl_setAdd_spec values : forall set,
  NoDup set ->
  NoDup (foldl setAdd set values)
  /\ (forall x, x ∈ foldl setAdd set values <-> x ∈ set \/ x ∈ values)
  /\ set `prefix_of` foldl setAdd set values.
Proof.
  induction values as [|v values IH]; intros set Hset; simpl.
  - split_and!; [done| |done]. intros x. rewrite elem_of_nil. tauto.
  - assert (NoDup (setAdd set v)) as Hadd.
    { unfold setAdd. case_bool_decide; [done|].
      apply NoDup_app. split_and!; [done| |apply NoDup_singleton].
      intros x Hx ->%list_elem_of_singleton. done. }
    destruct (IH _ Hadd) as (Hnodup & Hin & Hpre). split_and!; [done| |].
    + intros x. rewrite Hin, elem_of_cons. unfold setAdd.
      case_bool_decide as Hv.
      * split; [tauto|]. intros [?|[->|?]]; tauto.
      * rewrite elem_of_app, list_elem_of_singleton. tauto.
    + etrans; [|exact Hpre]. unfold setAdd. case_bool_decide; [done|].
      by apply prefix_app_r.
Qed.

Lemma NoDup_newSet values : NoDup (newSet values).
Proof. by apply foldl_setAdd_spec, NoDup_nil_2. Qed.

Lemma elem_of_newSet values x : x ∈ newSet values <-> x ∈ values.
Proof.
  destruct (foldl_setAdd_spec values [] (NoDup_nil_2)) as (_ & Hin & _).
  rewrite Hin, elem_of_nil. tauto.
Qed.

Lemma newSet_app values more :
  newSet values `prefix_of` newSet (values ++ more).
Proof.
  unfold newSet. rewrite foldl_app.
  apply foldl_setAdd_spec, NoDup_newSet.
Qed.

Lemma elem_of_List_filter {A} (f : A -> bool) (l : list A) x :
  x ∈ List.filter f l <-> x ∈ l /\ f x = true.
Proof. rewrite !list_elem_of_In. apply filter_In. Qed.

Lemma split_parts sep s w :
  w ∈ split sep s -> includes w (String sep "") = false.
Proof.
  revert w. induction s as [|c s IH]; intros w; simpl.
  - by intros ->%list_elem_of_singleton.
  - destruct (Ascii.eqb c sep) eqn:Hc.
    + intros [->|Hw]%elem_of_cons; [done|by apply IH].
    + destruct (split sep s) as [|w0 ws] eqn:Hsplit.
      * by destruct (split_nonempty sep s).
      * intros [->|Hw]%elem_of_cons.
        -- rewrite includes_char_cons. rewrite Ascii.eqb_sym, Hc. simpl.
           apply IH. by left.
        -- apply IH. by right.
Qed.

Lemma substring_all s : String.substring 0 (String.length s) s = s.
Proof. induction s as [|c s IH]; [done|]. simpl. by rewrite IH. Qed.

Lemma substring_app base rest :
  String.substring (String.length base)
    (String.length (base +:+ rest) - String.length base) (base +:+ rest)
  = rest.
Proof.
  induction base as [|c base IH]; simpl.
  - rewrite Nat.sub_0_r. apply substring_all.
  - exact IH.
Qed.

Lemma substring_prefix n s : exists rest, s = String.substring 0 n s +:+ rest.
Proof.
  revert s. induction n as [|n IH]; intros s.
  - exists s. by destruct s.
  - destruct s as [|c s]; [by exists ""|].
    destruct (IH s) as [rest Hrest]. exists rest.
    change (String c s = String c (String.substring 0 n s +:+ rest)).
    by f_equal.
Qed.

Lemma string_app_inv_head base a b : base +:+ a = base +:+ b -> a = b.
Proof.
  induction base as [|c base IH]; [done|]. intros [= Heq]. by apply IH.
Qed.

(** The path that is cut into segments. *)
Lemma pathBelow_spec filePath basePath path :
  pathBelow filePath basePath path
  <-> path = match basePath with
             | Some basePath =>
                 if truthy basePath && String.prefix basePath filePath
                 then String.substring (String.length basePath)
                        (String.length filePath - String.length basePath)
                        filePath
                 else filePath
             | None => filePath
             end.
Proof.
  unfold pathBelow. destruct basePath as [base|].
  - destruct (truthy base && String.prefix base filePath) eqn:Hbase.
    + apply andb_true_iff in Hbase as [Hne [rest ->]%prefix_app_iff].
      rewrite substring_app. split.
      * intros [(base' & [= <-] & _ & Heq)|[_ Hnone]].
        -- by apply string_app_inv_head in Heq.
        -- rewrite (Hnone base rest) in Hne; done.
      * intros ->. left. exists base. split_and!; [done| |done].
        by intros ->.
    + split.
      * intros [(base' & [= <-] & Hne & ->)|[-> _]]; [|done].
        apply andb_false_iff in Hbase as [Hbase|Hbase].
        -- by destruct base.
        -- assert (String.prefix base (base +:+ path) = true); [|congruence].
           apply prefix_app_iff. by exists path.
      * intros ->. right. split; [done|]. intros base' rest [= <-] ->.
        apply andb_false_iff in Hbase as [Hbase|Hbase].
        -- by destruct base.
        -- assert (String.prefix base (base +:+ rest) = true); [|congruence].
           apply prefix_app_iff. by exists rest.
  - split.
    + by intros [(base & ? & _)|[-> _]].
    + intros ->. right. split; [done|]. by intros.
Qed.

Lemma string_length_app a b :
  String.length (a +:+ b) = String.length a + String.length b.
Proof.
  induction a as [|c a IH]; [done|].
  change (S (String.length (a +:+ b)) = S (String.length a + String.length b)).
  by rewrite IH.
Qed.

(** The pieces [split] cuts a string into. *)
Lemma split_cons_inv sep s w ws :
  split sep s = w :: ws ->
  includes w (String sep "") = false
  /\ ((ws = [] /\ s = w)
      \/ exists rest, s = w +:+ String sep rest /\ ws = split sep rest).
Proof.
  revert w ws. induction s as [|c s IH]; intros w ws; simpl.
  - intros [= <- <-]. split; [done|]. by left.
  - destruct (Ascii.eqb c sep) eqn:Hc.
    + intros [= <- <-]. apply Ascii.eqb_eq in Hc as ->.
      split; [done|]. right. by exists s.
    + destruct (split sep s) as [|w0 ws0] eqn:Hsplit.
      { by destruct (split_nonempty sep s). }
      intros [= <- <-]. destruct (IH w0 ws0 eq_refl) as [Hw0 Hrest].
      split.
      * by rewrite includes_char_cons, Ascii.eqb_sym, Hc.
      * destruct Hrest as [[-> ->]|(rest & -> & ->)]; [by left|].
        right. by exists rest.
Qed.

Lemma split_app sep a b :
  split sep (a +:+ String sep b) = split sep a ++ split sep b.
Proof.
  induction a as [|c a IH].
  - change (split sep (String sep b) = "" :: split sep b).
    simpl. by rewrite Ascii.eqb_refl.
  - change (split sep (String c (a +:+ String sep b))
            = split sep (String c a) ++ split sep b).
    simpl. rewrite IH. destruct (Ascii.eqb c sep); [done|].
    destruct (split sep a) as [|w ws] eqn:Ha; [|done].
    by destruct (split_nonempty sep a).
Qed.

Lemma elem_of_split sep s w :
  w ∈ split sep s
  <-> includes w (String sep "") = false
      /\ exists before after,
           String sep "" +:+ s +:+ String sep ""
           = before +:+ String sep "" +:+ w +:+ String sep "" +:+ after.
Proof.
  split.
  - remember (String.length s) as n eqn:Hn. revert s w Hn.
    induction n as [n IH] using lt_wf_ind. intros s w Hn Hw.
    destruct (split sep s) as [|w0 ws] eqn:Hsplit; [by apply elem_of_nil in Hw|].
    apply split_cons_inv in Hsplit as [Hw0 Hrest].
    apply elem_of_cons in Hw as [->|Hw].
    + split; [done|]. exists "".
      destruct Hrest as [[_ ->]|(rest & -> & _)].
      * by exists "".
      * exists (rest +:+ String sep ""). by rewrite !string_app_assoc.
    + destruct Hrest as [[-> _]|(rest & -> & ->)]; [by apply elem_of_nil in Hw|].
      destruct (IH (String.length rest)) with (s := rest) (w := w)
        as (Hsep & before & after & Heq); [|done|done|].
      { subst n. rewrite string_length_app. simpl. lia. }
      split; [done|]. exists (String sep w0 +:+ before), after.
      by rewrite !string_app_assoc, <- Heq.
  - intros (Hsep & before & after & Heq).
    assert (split sep (String sep "" +:+ s +:+ String sep "")
            = ("" :: split sep s) ++ [""]) as Hleft.
    { change (String sep "" +:+ s +:+ String sep "")
        with (String sep (s +:+ String sep "")).
      cbn [split]. by rewrite Ascii.eqb_refl, split_app. }
    assert (split sep (before +:+ String sep "" +:+ w +:+ String sep "" +:+ after)
            = split sep before ++ w :: split sep after) as Hright.
    { change (String sep "" +:+ w +:+ String sep "" +:+ after)
        with (String sep (w +:+ String sep after)).
      by rewrite split_app, split_app_sep. }
    rewrite Heq, Hright in Hleft.
    assert ((split sep before ++ w :: split sep after)
              !! length (split sep before) = Some w) as Hlookup.
    { by rewrite lookup_app_r, Nat.sub_diag. }
    assert (0 < length (split sep before)) as Hbefore.
    { pose proof (split_nonempty sep before).
      destruct (split sep before); simpl; [done|lia]. }
    assert (0 < length (split sep after)) as Hafter.
    { pose proof (split_nonempty sep after).
      destruct (split sep after); simpl; [done|lia]. }
    assert (length (split sep before) + S (length (split sep after))
            = S (length (split sep s)) + 1) as Hlen.
    { pose proof (f_equal length Hleft) as Hlen.
      rewrite !length_app in Hlen. simpl in Hlen. lia. }
    rewrite Hleft in Hlookup. rewrite lookup_app_l in Hlookup.
    2:{ simpl. lia. }
    destruct (length (split sep before)) as [|i]; [lia|].
    simpl in Hlookup. by apply list_elem_of_lookup_2 in Hlookup.
Qed.

Lemma split_segmentOf path segment :
  segment ∈ split "/" path <-> segmentOf path segment.
Proof. apply elem_of_split. Qed.

(** Property X21.  [extractPathTags] returns no tag twice.  Its tags are
    exactly the normal forms, of at least two characters, of the segments
    of the path (taken below the base path, if one is given that the path
    starts with) that have at least two characters, hold no dot and match
    none of the patterns to ignore.  Each is in normal form. *)
Theorem extractPathTags_tags (unicodeLowerCase : string -> string)
    (filePath : string) (basePath : option string) :
  NoDup (extractPathTags unicodeLowerCase filePath basePath)
  /\ (forall tag,
        tag ∈ extractPathTags unicodeLowerCase filePath basePath
        <-> exists path segment,
              pathBelow filePath basePath path
              /\ segmentOf path segment
              /\ includes segment "." = false
              /\ 2 <= utf16Length segment
              /\ Forall (fun pattern => pattern segment = false)
                   IGNORE_PATH_PATTERNS
              /\ tag = normalizeTag unicodeLowerCase segment
              /\ 2 <= utf16Length tag)
  /\ (forall tag,
        tag ∈ extractPathTags unicodeLowerCase filePath basePath ->
        wellFormedTag tag
        /\ 2 <= String.length tag
        /\ normalizeTag unicodeLowerCase tag = tag).
Proof.
  unfold extractPathTags.
  set (path := match basePath with
               | Some basePath =>
                   if truthy basePath && String.prefix basePath filePath
                   then String.substring (String.length basePath)
                          (String.length filePath - String.length basePath)
                          filePath
                   else filePath
               | None => filePath
               end).
  assert (forall tag,
            tag ∈ newSet
              (List.filter (fun s => 2 <=? utf16Length s)
                 (map (normalizeTag unicodeLowerCase)
                    (List.filter
                       (fun s => negb (existsb (fun p => p s)
                                         IGNORE_PATH_PATTERNS))
                       (List.filter (fun s => 2 <=? utf16Length s)
                          (List.filter
                             (fun s => truthy s && negb (includes s "."))
                             (split "/" path))))))
            <-> exists segment,
                  segment ∈ split "/" path
                  /\ includes segment "." = false
                  /\ 2 <= utf16Length segment
                  /\ Forall (fun pattern => pattern segment = false)
                       IGNORE_PATH_PATTERNS
                  /\ tag = normalizeTag unicodeLowerCase segment
                  /\ 2 <= utf16Length tag) as Htags.
  { intros tag. rewrite elem_of_newSet, elem_of_List_filter, list_elem_of_fmap.
    rewrite Nat.leb_le. split.
    - intros [(segment & -> & Hseg) Hlen]. exists segment.
      apply elem_of_List_filter in Hseg as [Hseg Hignore].
      apply elem_of_List_filter in Hseg as [Hseg Hlen'%Nat.leb_le].
      apply elem_of_List_filter in Hseg as [Hseg Hdot].
      apply andb_true_iff in Hdot as [_ Hdot%negb_true_iff].
      split_and!; [done..| |done|done].
      apply negb_true_iff in Hignore. apply Forall_forall.
      intros pattern Hp. destruct (pattern segment) eqn:Hps; [|done].
      assert (existsb (fun p => p segment) IGNORE_PATH_PATTERNS = true);
        [|congruence].
      apply existsb_exists. exists pattern.
      split; [by apply list_elem_of_In|done].
    - intros (segment & Hseg & Hdot & Hlen' & Hignore & -> & Hlen).
      split; [|done]. exists segment. split; [done|].
      rewrite !elem_of_List_filter. split_and!; [done| | |].
      + rewrite Hdot. destruct segment; [simpl in Hlen'; lia|done].
      + by apply Nat.leb_le.
      + apply negb_true_iff. apply not_true_is_false.
        intros (pattern & Hp & Hps)%existsb_exists.
        apply list_elem_of_In in Hp.
        rewrite Forall_forall in Hignore. by rewrite (Hignore _ Hp) in Hps. }
  split_and!; [apply NoDup_newSet| |].
  - intros tag. rewrite Htags. split.
    + intros (segment & Hseg & Hrest). exists path, segment.
      split; [by apply pathBelow_spec|].
      split; [by apply split_segmentOf|done].
    + intros (path' & segment & ->%pathBelow_spec & Hseg%split_segmentOf
              & Hrest).
      by exists segment.
  - intros tag (segment & _ & _ & _ & _ & -> & Hlen)%Htags.
    pose proof (normalizeTag_wellFormed unicodeLowerCase segment) as Hwf.
    split_and!; [done| |by apply wellFormedTag_fixed].
    by rewrite <- utf16Length_ascii by by apply wellFormedTag_ascii.
Qed.

(** *** The words of a file name *)

Lemma prefix_cons_inv w c t :
  String.prefix w (String c t) = true ->
  w = "" \/ exists w', w = String c w' /\ String.prefix w' t = true.
Proof.
  destruct w as [|c' w]; [by left|]. cbn [String.prefix].
  destruct (ascii_dec c' c) as [->|]; [|done]. right. by exists w.
Qed.

Lemma prefix_cons c w t :
  String.prefix w t = true -> String.prefix (String c w) (String c t) = true.
Proof. intros H. cbn [String.prefix]. by destruct (ascii_dec c c). Qed.

Lemma includes_nil s : includes s "" = true.
Proof. destruct s; cbn [includes]; by rewrite prefix_nil. Qed.

Lemma includes_cons c s w :
  includes s w = true -> includes (String c s) w = true.
Proof. intros H. cbn [includes]. rewrite H. apply orb_true_r. Qed.

Lemma includes_cons_inv c s w :
  includes (String c s) w = true ->
  String.prefix w (String c s) = true \/ includes s w = true.
Proof. cbn [includes]. by intros ?%orb_true_iff. Qed.

Lemma includes_app_l a s w : includes s w = true -> includes (a +:+ s) w = true.
Proof.
  intros H. induction a as [|c a IH]; [done|].
  change (includes (String c (a +:+ s)) w = true). by apply includes_cons.
Qed.

Lemma includes_app_r s b w : includes s w = true -> includes (s +:+ b) w = true.
Proof.
  intros (l & r & ->)%includes_parts. apply includes_parts.
  exists l, (r +:+ b). by rewrite !string_app_assoc.
Qed.

Lemma noSpace_space w : noSpace (String " " w) = false.
Proof. done. Qed.

(** A word without white space that stands in the result of
    [replaceRuns] stands in what it was given, and holds none of the
    characters replaced. *)
Lemma noSpace_cons c w :
  noSpace (String c w) = negb (Ascii.is_space c) && noSpace w.
Proof. done. Qed.

Lemma replaceRuns_cons p c s :
  replaceRuns p (String c s)
  = if p c then
      match s with
      | String c' _ =>
          if p c' then replaceRuns p s else String " " (replaceRuns p s)
      | EmptyString => " "
      end
    else String c (replaceRuns p s).
Proof. done. Qed.

Lemma replaceRuns_space p c s :
  p c = true -> exists rest, replaceRuns p (String c s) = String " " rest.
Proof.
  revert c. induction s as [|c' s IH]; intros c Hc;
    rewrite replaceRuns_cons, Hc; [by eexists|].
  destruct (p c') eqn:Hc'; [|by eexists].
  by apply IH.
Qed.

Lemma replaceRuns_prefix p s w :
  noSpace w = true -> String.prefix w (replaceRuns p s) = true ->
  String.prefix w s = true /\ allChars (fun c => negb (p c)) w = true.
Proof.
  revert w. induction s as [|c s IH]; intros w Hw.
  { simpl. by destruct w. }
  destruct (p c) eqn:Hc.
  - destruct (replaceRuns_space p c s Hc) as [rest ->].
    intros [->|(w' & -> & _)]%prefix_cons_inv; [done|].
    by rewrite noSpace_space in Hw.
  - rewrite replaceRuns_cons, Hc.
    intros [->|(w' & -> & Hw')]%prefix_cons_inv; [done|].
    rewrite noSpace_cons in Hw. apply andb_true_iff in Hw as [_ Hw].
    destruct (IH w' Hw Hw') as [Hprefix Hchars].
    split; [by apply prefix_cons|]. cbn [allChars]. by rewrite Hc, Hchars.
Qed.

Lemma replaceRuns_includes p s w :
  noSpace w = true -> includes (replaceRuns p s) w = true ->
  includes s w = true /\ allChars (fun c => negb (p c)) w = true.
Proof.
  intros Hw. induction s as [|c s IH].
  { simpl. rewrite orb_false_r. by destruct w. }
  destruct (p c) eqn:Hc.
  - rewrite replaceRuns_cons, Hc.
    assert (includes (String " " (replaceRuns p s)) w = true ->
            includes (String c s) w = true
            /\ allChars (fun c => negb (p c)) w = true) as Hspace.
    { intros [[->|(w' & -> & _)]%prefix_cons_inv|Hin]%includes_cons_inv.
      - split; [apply includes_nil|done].
      - by rewrite noSpace_space in Hw.
      - destruct (IH Hin). split; [by apply includes_cons|done]. }
    destruct s as [|c' s]; [exact Hspace|].
    destruct (p c') eqn:Hc'; [|exact Hspace].
    intros Hin. destruct (IH Hin). split; [by apply includes_cons|done].
  - rewrite replaceRuns_cons, Hc.
    intros [Hprefix|Hin]%includes_cons_inv.
    + destruct (replaceRuns_prefix p (String c s) w Hw) as [Hpre Hchars].
      { by rewrite replaceRuns_cons, Hc. }
      split; [by apply includes_prefix|done].
    + destruct (IH Hin). split; [by apply includes_cons|done].
Qed.

(** The same of [replaceDelimited]. *)
Lemma replaceDelimitedFrom_pieces opening closing s :
  (forall w, noSpace w = true ->
     String.prefix w (replaceDelimitedFrom opening closing s).1 = true ->
     String.prefix w s = true)
  /\ (forall w, noSpace w = true ->
        includes (replaceDelimitedFrom opening closing s).1 w = true ->
        includes s w = true)
  /\ (forall after w,
        (replaceDelimitedFrom opening closing s).2 = Some after ->
        noSpace w = true -> includes after w = true -> includes s w = true).
Proof.
  induction s as [|c s (IH1 & IH2 & IH3)]; [done|].
  cbn [replaceDelimitedFrom].
  destruct (replaceDelimitedFrom opening closing s) as [rest afterClosing].
  cbn [fst snd] in *.
  assert (forall w, noSpace w = true ->
            String.prefix w (String c rest) = true ->
            String.prefix w (String c s) = true) as Hkeep1.
  { intros w Hw [->|(w' & -> & Hw')]%prefix_cons_inv; [done|].
    rewrite noSpace_cons in Hw. apply andb_true_iff in Hw as [_ Hw].
    by apply prefix_cons, IH1. }
  assert (forall w, noSpace w = true ->
            includes (String c rest) w = true ->
            includes (String c s) w = true) as Hkeep2.
  { intros w Hw [Hpre|Hin]%includes_cons_inv.
    - by apply includes_prefix, Hkeep1.
    - by apply includes_cons, IH2. }
  split_and!.
  - destruct (Ascii.eqb c opening); [|exact Hkeep1].
    destruct afterClosing as [after|]; [|exact Hkeep1].
    intros w Hw [->|(w' & -> & _)]%prefix_cons_inv; [done|].
    by rewrite noSpace_space in Hw.
  - destruct (Ascii.eqb c opening); [|exact Hkeep2].
    destruct afterClosing as [after|]; [|exact Hkeep2].
    intros w Hw [[->|(w' & -> & _)]%prefix_cons_inv|Hin]%includes_cons_inv.
    + apply includes_nil.
    + by rewrite noSpace_space in Hw.
    + by apply includes_cons, (IH3 after).
  - intros after w Hafter Hw Hin. apply includes_cons.
    destruct (Ascii.eqb c closing).
    + injection Hafter as <-. by apply IH2.
    + by apply (IH3 after).
Qed.

Lemma replaceDelimited_includes opening closing s w :
  noSpace w = true -> includes (replaceDelimited opening closing s) w = true ->
  includes s w = true.
Proof. apply replaceDelimitedFrom_pieces. Qed.

Lemma trim_includes s w : includes (trim s) w = true -> includes s w = true.
Proof.
  destruct (trim_rest s) as (l & r & Hs). intros Hin. rewrite Hs.
  by apply includes_app_l, includes_app_r.
Qed.

(** The words [split (/\s+/)] returns hold no white space and stand in the
    string. *)
Lemma splitSpaces_words s :
  (forall w ws, splitSpaces false s = w :: ws -> String.prefix w s = true)
  /\ (forall inRun w,
        w ∈ splitSpaces inRun s -> noSpace w = true /\ includes s w = true).
Proof.
  induction s as [|c s [IH1 IH2]].
  { split; [by intros w ws [= <- <-]|].
    by intros inRun w ->%list_elem_of_singleton. }
  cbn [splitSpaces]. destruct (Ascii.is_space c) eqn:Hc.
  - split; [by intros w ws [= <- <-]|].
    intros [|] w Hw.
    + destruct (IH2 true w Hw). split; [done|by apply includes_cons].
    + apply elem_of_cons in Hw as [->|Hw]; [split; [done|apply includes_nil]|].
      destruct (IH2 true w Hw). split; [done|by apply includes_cons].
  - destruct (splitSpaces false s) as [|w0 ws0] eqn:Hsplit.
    + split.
      * intros w ws [= <- <-]. apply prefix_cons, prefix_nil.
      * intros _ w ->%list_elem_of_singleton. rewrite noSpace_cons, Hc.
        split; [done|]. apply includes_prefix, prefix_cons, prefix_nil.
    + pose proof (IH1 w0 ws0 eq_refl) as Hw0.
      assert (w0 ∈ splitSpaces false s) as Hin by (rewrite Hsplit; left).
      destruct (IH2 false w0 Hin) as [Hnone _]. split.
      * intros w ws [= <- <-]. by apply prefix_cons.
      * intros _ w [->|Hw]%elem_of_cons.
        -- rewrite noSpace_cons, Hc, Hnone.
           split; [done|]. by apply includes_prefix, prefix_cons.
        -- assert (w ∈ splitSpaces false s) as Hin'
             by (rewrite Hsplit; by right).
           destruct (IH2 false w Hin'). split; [done|by apply includes_cons].
Qed.

Lemma allChars_and p q s :
  allChars p s = true -> allChars q s = true ->
  allChars (fun c => p c && q c) s = true.
Proof.
  induction s as [|c s IH]; [done|]. cbn [allChars].
  intros [-> Hp]%andb_true_iff [-> Hq]%andb_true_iff. by rewrite IH.
Qed.

(** The words of the cleaned file name stand in the file name. *)
Lemma cleaned_word filename extension word :
  let name :=
    match extension with
    | Some extension =>
        String.substring 0 (String.length filename - String.length extension)
          filename
    | None => filename
    end in
  word ∈ splitSpaces false
           (trim
              (replaceRuns Ascii.is_space
                 (replaceDelimited "[" "]"
                    (replaceDelimited "(" ")"
                       (replaceRuns
                          (fun c => Ascii.eqb c "-" || Ascii.eqb c "_"
                                    || Ascii.eqb c "+")
                          name))))) ->
  includes filename word = true
  /\ allChars (fun c => negb (isWordBreak c)) word = true.
Proof.
  intros name [Hword Hin]%splitSpaces_words.
  apply trim_includes in Hin.
  apply replaceRuns_includes in Hin as [Hin _]; [|done].
  apply replaceDelimited_includes in Hin; [|done].
  apply replaceDelimited_includes in Hin; [|done].
  apply replaceRuns_includes in Hin as [Hin Hbreak]; [|done].
  split.
  - destruct extension as [extension|]; [|done]. subst name.
    destruct (substring_prefix
                (String.length filename - String.length extension) filename)
      as [rest Hrest].
    rewrite Hrest. by apply includes_app_r.
  - pose proof (allChars_and _ _ _ Hword Hbreak) as Hboth. revert Hboth.
    apply allChars_impl. intros c. unfold isWordBreak.
    destruct (Ascii.is_space c), (Ascii.eqb c "-"), (Ascii.eqb c "_"),
      (Ascii.eqb c "+"); done.
Qed.

(** Property X22.  [extractFilenameTags] returns at most three tags, none
    twice.  Every tag it returns is in normal form and has at least three
    characters; it is the normal form of the lower case of a word that
    stands in the file name and holds no white space, hyphen, underscore
    or plus sign, and that in lower case has at least three characters,
    is no stop word and is no number. *)
Theorem extractFilenameTags_tags (unicodeLowerCase : string -> string)
    (filename : string) :
  length (extractFilenameTags unicodeLowerCase filename) <= 3
  /\ NoDup (extractFilenameTags unicodeLowerCase filename)
  /\ forall tag,
       tag ∈ extractFilenameTags unicodeLowerCase filename ->
       wellFormedTag tag
       /\ 3 <= String.length tag
       /\ normalizeTag unicodeLowerCase tag = tag
       /\ exists before word after,
            filename = before +:+ word +:+ after
            /\ allChars (fun c => negb (isWordBreak c)) word = true
            /\ tag = normalizeTag unicodeLowerCase
                       (toLowerCase unicodeLowerCase word)
            /\ 3 <= utf16Length (toLowerCase unicodeLowerCase word)
            /\ (toLowerCase unicodeLowerCase word ∉ STOP_WORDS)
            /\ (truthy (toLowerCase unicodeLowerCase word)
                && allChars isDigit (toLowerCase unicodeLowerCase word))
               = false.
Proof.
  unfold extractFilenameTags.
  split_and!.
  - rewrite length_take. lia.
  - eapply sublist_NoDup; [apply NoDup_newSet|apply sublist_take].
  - intros tag [i [Htag _]]%elem_of_take.
    apply list_elem_of_lookup_2, (proj1 (elem_of_newSet _ _)) in Htag.
    apply elem_of_List_filter in Htag as [Htag Hlen].
    apply list_elem_of_fmap in Htag as (word & -> & Hword).
    apply elem_of_List_filter in Hword as [Hword Hdigits].
    apply elem_of_List_filter in Hword as [Hword Hstop].
    apply elem_of_List_filter in Hword as [Hword Hlen'].
    apply list_elem_of_fmap in Hword as (w0 & -> & Hw0).
    apply cleaned_word in Hw0 as [(before & after & Hname)%includes_parts Hw0].
    pose proof (normalizeTag_wellFormed unicodeLowerCase
                  (toLowerCase unicodeLowerCase w0)) as Hwf.
    split_and!.
    + done.
    + apply Nat.leb_le in Hlen.
      by rewrite <- utf16Length_ascii by by apply wellFormedTag_ascii.
    + by apply wellFormedTag_fixed.
    + exists before, w0, after. split_and!.
      * done.
      * done.
      * done.
      * by apply Nat.leb_le.
      * apply negb_true_iff in Hstop. by apply bool_decide_eq_false in Hstop.
      * by apply negb_true_iff.
Qed.

Lemma sublist_List_filter {A} (f : A -> bool) (l : list A) :
  List.filter f l `sublist_of` l.
Proof.
  induction l as [|x l IH]; [done|]. simpl.
  destruct (f x); [by apply sublist_skip|by apply sublist_cons].
Qed.

(** Property X23.  The tags [generateTags] returns as [allTags]: at most ten,
    none twice, each of at least two characters and taken from the tags of
    the LLM, the path, the file name or the content; the tags of the LLM
    come first; and unless the limit of ten is reached no tag of two
    characters or more is left out. *)
Theorem allTags_bounded
    (llmTags pathTags filenameTags contentTags : list string) :
  let tags := allTags llmTags pathTags filenameTags contentTags in
  length tags <= 10
  /\ NoDup tags
  /\ (forall tag,
        tag ∈ tags ->
        2 <= String.length tag
        /\ (tag ∈ llmTags \/ tag ∈ pathTags \/ tag ∈ filenameTags
            \/ tag ∈ contentTags))
  /\ take 10 (List.filter (fun t => 2 <=? String.length t) (newSet llmTags))
       `prefix_of` tags
  /\ (length tags < 10 ->
      forall tag,
        tag ∈ llmTags ++ pathTags ++ filenameTags ++ contentTags ->
        2 <= String.length tag -> tag ∈ tags).
Proof.
  intros tags. subst tags. unfold allTags.
  set (all := llmTags ++ pathTags ++ filenameTags ++ contentTags).
  set (long := List.filter (fun t => 2 <=? String.length t) (newSet all)).
  assert (NoDup long) as Hlong.
  { eapply sublist_NoDup; [apply NoDup_newSet|apply sublist_List_filter]. }
  split_and!.
  - rewrite length_take. lia.
  - eapply sublist_NoDup; [exact Hlong|apply sublist_take].
  - intros tag [i [Htag _]]%elem_of_take.
    apply list_elem_of_lookup_2, elem_of_List_filter in Htag as [Htag Hlen].
    apply (proj1 (elem_of_newSet _ _)) in Htag. split; [by apply Nat.leb_le|].
    unfold all in Htag. rewrite !elem_of_app in Htag. tauto.
  - destruct (newSet_app llmTags (pathTags ++ filenameTags ++ contentTags))
      as [more Hmore].
    unfold long, all. rewrite Hmore, List.filter_app, take_app.
    by apply prefix_app_r.
  - intros Hlen tag Htag Htaglen.
    rewrite length_take in Hlen.
    rewrite take_ge by lia.
    apply elem_of_List_filter. split; [by apply elem_of_newSet|].
    by apply Nat.leb_le.
Qed.

(** *** The concepts of the prompt *)




Section PromptConcepts.
Variable embed : string -> Exit Ollama.OllamaError (list float).
Variable findSimilarConcepts :
  list float -> float -> nat -> Exit TaxonomyError (list Concept.t).
Variable content : string.
Variable availableConcepts : option (list TaxonomyConcept.t).

Lemma conceptsForPrompt_exit :
  exit (conceptsForPrompt embed findSimilarConcepts content availableConcepts)
  = Success
      (let ragConcepts :=
         match exit (extractRAGContext embed findSimilarConcepts content) with
         | Success ragConcepts => ragConcepts
         | Failure _ => []
         end in
       ragConcepts
         ++ List.filter
              (fun c =>
                 negb (existsb
                         (fun r => bool_decide
                                     (TaxonomyConcept.id r
                                      = TaxonomyConcept.id c))
                         ragConcepts))
              (default [] availableConcepts)).
Proof.
  unfold conceptsForPrompt.
  by destruct (extractRAGContext embed findSimilarConcepts content)
    as [tr [e|ragConcepts]].
Qed.

Lemma excluded_iff (ragConcepts : list TaxonomyConcept.t) c :
  negb (existsb (fun r => bool_decide (TaxonomyConcept.id r
                                       = TaxonomyConcept.id c)) ragConcepts)
  = true
  <-> TaxonomyConcept.id c ∉ map TaxonomyConcept.id ragConcepts.
Proof.
  rewrite negb_true_iff, <- not_true_iff_false, existsb_exists.
  rewrite list_elem_of_fmap. split.
  - intros Hno (r & Hid & Hr). apply Hno. exists r.
    split; [by apply list_elem_of_In|]. by apply bool_decide_eq_true.
  - intros Hno (r & Hr%list_elem_of_In & Hid%bool_decide_eq_true).
    apply Hno. by exists r.
Qed.

(** Property X24.  The concepts [enrich] puts in the prompt: the step never
    fails; the concepts of the RAG context come first (none when its
    extraction fails), followed by the caller's concepts whose identifier
    the RAG context does not hold already; the identifier of every concept
    of the caller is in the prompt; and no identifier occurs twice when
    none does within the RAG context or within the caller's concepts. *)
Theorem conceptsForPrompt_merge :
  exists ragConcepts merged,
    exit (conceptsForPrompt embed findSimilarConcepts content
            availableConcepts) = Success merged
    /\ (exit (extractRAGContext embed findSimilarConcepts content)
        = Success ragConcepts
        \/ (isFailure (exit (extractRAGContext embed findSimilarConcepts
                               content))
            /\ ragConcepts = []))
    /\ ragConcepts `prefix_of` merged
    /\ (forall c,
          c ∈ merged
          <-> c ∈ ragConcepts
              \/ (c ∈ default [] availableConcepts
                  /\ TaxonomyConcept.id c
                       ∉ map TaxonomyConcept.id ragConcepts))
    /\ (forall c,
          c ∈ default [] availableConcepts ->
          TaxonomyConcept.id c ∈ map TaxonomyConcept.id merged)
    /\ (NoDup (map TaxonomyConcept.id ragConcepts) ->
        NoDup (map TaxonomyConcept.id (default [] availableConcepts)) ->
        NoDup (map TaxonomyConcept.id merged)).
Proof.
  rewrite conceptsForPrompt_exit.
  set (ragConcepts :=
         match exit (extractRAGContext embed findSimilarConcepts content) with
         | Success ragConcepts => ragConcepts
         | Failure _ => []
         end).
  exists ragConcepts. eexists. split; [reflexivity|]. cbv zeta.
  assert (forall c,
    c ∈ ragConcepts
        ++ List.filter
             (fun c => negb (existsb
                (fun r => bool_decide (TaxonomyConcept.id r
                                       = TaxonomyConcept.id c)) ragConcepts))
             (default [] availableConcepts)
    <-> c ∈ ragConcepts
        \/ (c ∈ default [] availableConcepts
            /\ TaxonomyConcept.id c ∉ map TaxonomyConcept.id ragConcepts))
    as Hin.
  { intros c. by rewrite elem_of_app, elem_of_List_filter, excluded_iff. }
  split_and!.
  - unfold ragConcepts. destruct (exit _); [right|left]; done.
  - by apply prefix_app_r.
  - exact Hin.
  - intros c Hc.
    destruct (decide (TaxonomyConcept.id c
                        ∈ map TaxonomyConcept.id ragConcepts)) as [Hrag|Hno].
    + rewrite map_app. apply elem_of_app. by left.
    + apply list_elem_of_fmap. exists c. split; [done|]. apply Hin. auto.
  - intros Hrag Havailable. rewrite map_app. apply NoDup_app. split_and!.
    + done.
    + intros x Hx (c & -> & Hc)%list_elem_of_fmap.
      apply elem_of_List_filter in Hc as [_ Hc%excluded_iff]. done.
    + eapply sublist_NoDup; [exact Havailable|].
      apply (fmap_sublist TaxonomyConcept.id), sublist_List_filter.
Qed.

End PromptConcepts.


(** *** The list of concepts in the prompt *)

Lemma includes_char_app (c : ascii) (a b : string) :
  includes (a +:+ b) (String c "")
  = includes a (String c "") || includes b (String c "").
Proof.
  induction a as [|x a IH].
  - change ("" +:+ b) with b. by destruct b.
  - change (String x a +:+ b) with (String x (a +:+ b)).
    by rewrite !includes_char_cons, IH, orb_assoc.
Qed.

Lemma singleLine_app a b : singleLine a -> singleLine b -> singleLine (a +:+ b).
Proof.
  unfold singleLine, newline. intros Ha Hb.
  by rewrite includes_char_app, Ha, Hb.
Qed.

Lemma singleLine_join sep parts :
  singleLine sep -> Forall singleLine parts -> singleLine (join sep parts).
Proof.
  intros Hsep Hparts. unfold join.
  induction Hparts as [|x parts Hx Hparts IH]; [done|].
  destruct parts as [|y parts]; [done|].
  change (String.concat sep (x :: y :: parts))
    with (x +:+ sep +:+ String.concat sep (y :: parts)).
  by repeat apply singleLine_app.
Qed.

Lemma split_join (c : ascii) (parts : list string) :
  parts <> [] ->
  Forall (fun part => includes part (String c "") = false) parts ->
  split c (join (String c "") parts) = parts.
Proof.
  intros Hne Hparts. unfold join.
  induction Hparts as [|x parts Hx Hparts IH]; [done|].
  destruct parts as [|y parts]; [by apply split_no_sep|].
  change (String.concat (String c "") (x :: y :: parts))
    with (x +:+ String c (String.concat (String c "") (y :: parts))).
  rewrite split_app_sep by done. f_equal. by apply IH.
Qed.

Lemma join_foldl sep first others :
  join sep (first :: others)
  = foldl (fun text part => text +:+ sep +:+ part) first others.
Proof.
  unfold join. revert first.
  induction others as [|second others IH]; intros first; [done|].
  change (String.concat sep (first :: second :: others))
    with (first +:+ sep +:+ String.concat sep (second :: others)).
  cbn [foldl]. rewrite <- IH.
  destruct others as [|third others]; [done|].
  change (String.concat sep ((first +:+ sep +:+ second) :: third :: others))
    with ((first +:+ sep +:+ second) +:+ sep
            +:+ String.concat sep (third :: others)).
  change (String.concat sep (second :: third :: others))
    with (second +:+ sep +:+ String.concat sep (third :: others)).
  by rewrite !string_app_assoc.
Qed.

(** Property X27.  [formatConceptsForPrompt] answers a fixed sentence when
    there is no concept. Otherwise, provided no identifier, label or alias
    holds a line feed, the text has one line per concept after its heading,
    in the order of the concepts; the line of a concept is a hyphen, its
    identifier, a colon and its label, followed, when the concept has
    aliases, by all of them in their order, separated by a comma and a
    space, between [(aliases: ] and [)]. *)
Theorem formatConceptsForPrompt_lines (concepts : list TaxonomyConcept.t) :
  (concepts = [] ->
   formatConceptsForPrompt concepts = "No taxonomy concepts available yet.")
  /\ (concepts <> [] ->
      Forall (fun c => singleLine (TaxonomyConcept.id c)
                       /\ singleLine (TaxonomyConcept.prefLabel c)
                       /\ Forall singleLine (TaxonomyConcept.altLabels c))
        concepts ->
      exists lines,
        split "010" (formatConceptsForPrompt concepts)
        = "Available concepts (use these IDs when applicable):" :: lines
        /\ length lines = length concepts
        /\ forall i c,
             concepts !! i = Some c ->
             lines !! i
             = Some ("- " +:+ TaxonomyConcept.id c +:+ ": "
                       +:+ TaxonomyConcept.prefLabel c
                       +:+ match TaxonomyConcept.altLabels c with
                           | [] => ""
                           | first :: others =>
                               " (aliases: "
                                 +:+ foldl (fun text alias =>
                                              text +:+ ", " +:+ alias)
                                       first others
                                 +:+ ")"
                           end)).
Proof.
  split; [by intros ->|]. intros Hne Hsingle.
  unfold formatConceptsForPrompt.
  destruct concepts as [|c0 concepts0] eqn:Hconcepts; [done|].
  rewrite <- Hconcepts in *. clear Hne.
  assert ((length concepts =? 0) = false) as ->.
  { by rewrite Hconcepts. }
  set (line := fun c : TaxonomyConcept.t => _ +:+ _).
  exists (map line concepts).
  assert (forall c, c ∈ concepts -> singleLine (line c)) as Hline.
  { intros c Hc. rewrite Forall_forall in Hsingle.
    destruct (Hsingle c Hc) as (Hid & Hlabel & Halt). unfold line.
    repeat apply singleLine_app; try done.
    destruct (0 <? _); [|done].
    repeat apply singleLine_app; try done. by apply singleLine_join. }
  split_and!.
  - unfold newline.
    change ("Available concepts (use these IDs when applicable):"
              +:+ String "010" "" +:+ join (String "010" "") (map line concepts))
      with ("Available concepts (use these IDs when applicable):"
              +:+ String "010" (join (String "010" "") (map line concepts))).
    rewrite split_app_sep by done. f_equal.
    apply split_join; [by rewrite Hconcepts|].
    apply Forall_forall. intros l (c & -> & Hc)%list_elem_of_fmap.
    by apply Hline.
  - by rewrite length_map.
  - intros i c Hc. rewrite list_lookup_fmap, Hc. simpl. f_equal.
    unfold line. destruct (TaxonomyConcept.altLabels c) as [|first others];
      [done|].
    simpl Nat.ltb. cbv iota. by rewrite join_foldl.
Qed.
